(** * sloth-kubernetes: the source-patch scripts

    A shallow embedding of the four patch scripts of the repository
    ([fix_compilation.py], [fix_orchestrator.py], [fix_final_errors.py],
    [fix_logargs.py]) and the properties their specification states about
    them.

    Text is the decoded text a Python text-mode file object hands to the
    script, as a list of characters: line ends are line feeds (the file
    object has translated the others), and the characters are the code
    points below 256.  The file system is a finite map from paths to text. *)

From Stdlib Require Import Ascii String List Arith Lia Bool DecimalString.
From stdpp Require Import base option list gmap strings.
Import ListNotations.

Local Open Scope list_scope.

(** ** Text *)

Abbreviation text := (list ascii).

Definition txt (s : string) : text := list_ascii_of_string s.

Definition LF : ascii := "010"%char.
Definition TAB : ascii := "009"%char.
Definition DQ : ascii := "034"%char.

(** ** Python string primitives *)

Module PyStr.

(** [s.startswith(p)] *)
Fixpoint startswith (p s : text) : bool :=
  match p, s with
  | [], _ => true
  | a :: p', b :: s' => Ascii.eqb a b && startswith p' s'
  | _ :: _, [] => false
  end.

(** [needle in s] *)
Fixpoint str_in (needle s : text) : bool :=
  startswith needle s
  || match s with
     | [] => false
     | _ :: s' => str_in needle s'
     end.

(** The scan of [s.replace(old, new)] for a non-empty [old]: at each position
    either [old] starts there, and the scan resumes after it, or one
    character is copied.  [fuel] bounds the number of positions visited. *)
Fixpoint replace_scan (fuel : nat) (old new s : text) : text :=
  match fuel with
  | 0 => s
  | S fuel' =>
      if startswith old s
      then new ++ replace_scan fuel' old new (drop (length old) s)
      else match s with
           | [] => []
           | c :: s' => c :: replace_scan fuel' old new s'
           end
  end.

(** [s.replace(old, new)]: every non-overlapping occurrence, left to right.
    With an empty [old] Python puts [new] before every character and at the
    end. *)
Definition str_replace (old new s : text) : text :=
  match old with
  | [] => new ++ flat_map (fun c => c :: new) s
  | _ :: _ => replace_scan (length s) old new s
  end.

(** [f.readlines()]: the lines of [s], each with its line feed. *)
Fixpoint readlines (s : text) : list text :=
  match s with
  | [] => []
  | c :: s' =>
      if Ascii.eqb c LF then [c] :: readlines s'
      else match readlines s' with
           | [] => [[c]]
           | l :: ls => (c :: l) :: ls
           end
  end.

(** [f.writelines(lines)] writes the concatenation of [lines]. *)
Definition writelines (lines : list text) : text := concat lines.

(** [range(a, b)] *)
Definition py_range (a b : nat) : list nat := seq a (b - a).

End PyStr.

Import PyStr.

(** ** Python regular expressions ([re])

    The fragment of the pattern language the scripts use: literal text,
    character classes, greedy [*], [+] and [?], and capturing groups.  The
    matcher is the backtracking one of [re]: a quantifier first tries one
    more iteration and gives characters back when the rest of the pattern
    fails. *)

Module Re.

Inductive regex : Type :=
  | Eps
  | Chr (c : ascii)
  | Str (s : text)
  | Cls (p : ascii -> bool)
  | Seq (r1 r2 : regex)
  | Star (r : regex)
  | Plus (r : regex)
  | Opt (r : regex)
  | Group (i : nat) (r : regex).

Abbreviation groups := (gmap nat text).

Definition code (c : ascii) : nat := nat_of_ascii c.

Definition between (lo hi : nat) (c : ascii) : bool :=
  (lo <=? code c) && (code c <=? hi).

(** [\s] on a [str] pattern, for the code points below 256. *)
Definition is_space (c : ascii) : bool :=
  between 9 13 c || between 28 32 c || (code c =? 133) || (code c =? 160).

(** [\w] on a [str] pattern, for the code points below 256. *)
Definition is_word (c : ascii) : bool :=
  between 48 57 c || between 65 90 c || between 97 122 c || (code c =? 95)
  || (code c =? 170) || (code c =? 178) || (code c =? 179) || (code c =? 181)
  || (code c =? 185) || (code c =? 186) || between 188 190 c
  || between 192 214 c || between 216 246 c || between 248 255 c.

(** [[^x]] *)
Definition is_not (x : ascii) (c : ascii) : bool := negb (Ascii.eqb c x).

Section Matcher.
Context {A : Type}.

Definition cont := text -> groups -> option A.

(** Greedy iteration of the matcher [m]; an iteration that consumes
    nothing ends the loop.  [n] bounds the number of iterations, and
    every one of them consumes a character. *)
Fixpoint star (m : text -> groups -> cont -> option A) (n : nat)
         (s : text) (g : groups) (k : cont) : option A :=
  match n with
  | 0 => k s g
  | S n' =>
      match m s g (fun s' g' =>
                     if length s' <? length s then star m n' s' g' k
                     else None) with
      | Some x => Some x
      | None => k s g
      end
  end.

(** [rmatch r s g k]: match [r] at the start of [s], then hand the rest of
    the text and the groups to [k]; backtrack into [r] when [k] fails. *)
Fixpoint rmatch (r : regex) (s : text) (g : groups) (k : cont) : option A :=
  match r with
  | Eps => k s g
  | Chr c =>
      match s with
      | c' :: s' => if Ascii.eqb c c' then k s' g else None
      | [] => None
      end
  | Str p => if startswith p s then k (drop (length p) s) g else None
  | Cls p =>
      match s with
      | c' :: s' => if p c' then k s' g else None
      | [] => None
      end
  | Seq r1 r2 => rmatch r1 s g (fun s' g' => rmatch r2 s' g' k)
  | Star r' => star (rmatch r') (length s) s g k
  | Plus r' =>
      rmatch r' s g (fun s' g' => star (rmatch r') (length s') s' g' k)
  | Opt r' =>
      match rmatch r' s g k with
      | Some x => Some x
      | None => k s g
      end
  | Group i r' =>
      rmatch r' s g
        (fun s' g' => k s' (<[i := take (length s - length s') s]> g'))
  end.
End Matcher.

(** A match of [r] at the start of [s]: the groups (group 0 is the whole
    match) and the text after the match. *)
Definition match_at (r : regex) (s : text) : option (groups * text) :=
  rmatch r s ∅
    (fun s' g => Some (<[0 := take (length s - length s') s]> g, s')).

(** [m.group(i)]; a group that took no part in the match expands to the
    empty text. *)
Definition group (g : groups) (i : nat) : text := default [] (g !! i).

(** [re.search(r, s) is not None] *)
Fixpoint search (r : regex) (s : text) : bool :=
  match match_at r s with
  | Some _ => true
  | None => match s with
            | [] => false
            | _ :: s' => search r s'
            end
  end.

(** The scan of [re.sub]: at each position the leftmost match is replaced
    and the scan resumes after it; where nothing matches one character is
    copied.  An empty match is replaced and followed by the next character.
    [fuel] bounds the number of positions visited. *)
Fixpoint sub_scan (fuel : nat) (r : regex) (repl : groups -> text)
         (s : text) : text :=
  match fuel with
  | 0 => s
  | S fuel' =>
      match match_at r s with
      | Some (g, rest) =>
          if length rest <? length s
          then repl g ++ sub_scan fuel' r repl rest
          else repl g ++ match s with
                         | [] => []
                         | c :: s' => c :: sub_scan fuel' r repl s'
                         end
      | None =>
          match s with
          | [] => []
          | c :: s' => c :: sub_scan fuel' r repl s'
          end
      end
  end.

(** [re.sub(r, repl, s)] with a function [repl]. *)
Definition sub (r : regex) (repl : groups -> text) (s : text) : text :=
  sub_scan (S (length s)) r repl s.

(** A replacement template: literal text and back-references [\i]. *)
Inductive titem : Type :=
  | TLit (s : text)
  | TRef (i : nat).

Definition expand (t : list titem) (g : groups) : text :=
  flat_map (fun it => match it with
                      | TLit s => s
                      | TRef i => group g i
                      end) t.

(** [re.sub(r, template, s)] *)
Definition sub_template (r : regex) (t : list titem) (s : text) : text :=
  sub r (expand t) s.

End Re.

Import Re.

(** The concatenation of the pieces of a pattern, as they are written. *)
Definition cat (rs : list regex) : regex := foldr Seq Eps rs.

(** ** The world of a script: files, standard output, exceptions

    A script runs against the file system and prints lines; both are kept
    in the [World].  An exception stops the script where it is raised and
    leaves the world as the script had made it up to that point: nothing in
    the four scripts catches one.

    [budget] is the room left on the device: [None] is a device that never
    fills up, [Some b] one that accepts [b] more characters and then fails
    the write with [OSError] (disk full).  [log] lists, oldest first, the
    files opened and the lines printed. *)

Module Py.

Inductive event : Type :=
  | OpenR (path : string)
  | OpenW (path : string)
  | Printed (line : text).

Inductive exn : Type :=
  | FileNotFoundError (path : string)
  | OSError (path : string).

Record World : Type := mkWorld {
  files : gmap string text;
  budget : option nat;
  log : list event
}.

Inductive outcome (A : Type) : Type :=
  | Ok (a : A)
  | Raise (e : exn).
Arguments Ok {A} a.
Arguments Raise {A} e.

Definition Py (A : Type) : Type := World -> outcome A * World.

Definition ret {A} (a : A) : Py A := fun w => (Ok a, w).

Definition bind {A B} (m : Py A) (k : A -> Py B) : Py B :=
  fun w =>
    match m w with
    | (Ok a, w') => k a w'
    | (Raise e, w') => (Raise e, w')
    end.

Definition emit (e : event) (w : World) : World :=
  mkWorld (files w) (budget w) (log w ++ [e]).

(** [print(line)] *)
Definition print (line : text) : Py unit :=
  fun w => (Ok tt, emit (Printed line) w).

(** [os.path.exists(path)] *)
Definition path_exists (path : string) : Py bool :=
  fun w => (Ok (bool_decide (is_Some (files w !! path))), w).

(** [with open(path, 'r') as f: content = f.read()] *)
Definition read_text (path : string) : Py text :=
  fun w =>
    match files w !! path with
    | Some content => (Ok content, emit (OpenR path) w)
    | None => (Raise (FileNotFoundError path), w)
    end.

(** [open(path, 'w')]: the file is created or truncated in place.  The open
    itself always succeeds here: a target that cannot be opened for writing
    (which Python refuses before it truncates anything) is not modelled. *)
Definition open_w (path : string) : Py unit :=
  fun w =>
    (Ok tt, emit (OpenW path) (mkWorld (<[path := []]> (files w)) (budget w) (log w))).

(** [f.write(data)] on the file opened at [path]: the characters the device
    has room for are appended, and the write fails when some are left. *)
Definition f_write (path : string) (data : text) : Py unit :=
  fun w =>
    let old := default [] (files w !! path) in
    match budget w with
    | None => (Ok tt, mkWorld (<[path := old ++ data]> (files w)) None (log w))
    | Some b =>
        if length data <=? b
        then (Ok tt, mkWorld (<[path := old ++ data]> (files w))
                             (Some (b - length data)) (log w))
        else (Raise (OSError path),
              mkWorld (<[path := old ++ take b data]> (files w)) (Some 0) (log w))
    end.

End Py.

Import Py.

Declare Scope py_scope.
Delimit Scope py_scope with py.
Bind Scope py_scope with Py.
Notation "x <- m ;; k" := (bind m (fun x => k))
  (at level 100, m at next level, right associativity) : py_scope.
Notation "m ;; k" := (bind m (fun _ => k))
  (at level 100, right associativity) : py_scope.
Local Open Scope py_scope.

(** [with open(path, 'w') as f: f.write(content)] *)
Definition write_text (path : string) (content : text) : Py unit :=
  open_w path ;; f_write path content.

(** [with open(path, 'r') as f: lines = f.readlines()] *)
Definition read_lines (path : string) : Py (list text) :=
  content <- read_text path ;; ret (readlines content).

(** [with open(path, 'w') as f: f.writelines(lines)] *)
Definition write_lines (path : string) (lines : list text) : Py unit :=
  open_w path ;; f_write path (writelines lines).

(** ** fix_compilation.py *)

Module FixCompilation.

Definition checker_path : string :=
  "/Users/chalkan3/.projects/do-droplet-create/pkg/health/checker.go".
Definition rke_path : string :=
  "/Users/chalkan3/.projects/do-droplet-create/pkg/cluster/rke.go".
Definition dns_path : string :=
  "/Users/chalkan3/.projects/do-droplet-create/pkg/dns/manager.go".
Definition wg_path : string :=
  "/Users/chalkan3/.projects/do-droplet-create/pkg/security/wireguard.go".
Definition ssh_path : string :=
  "/Users/chalkan3/.projects/do-droplet-create/pkg/security/sshkeys.go".

(** The loop of [fix_checker] over the indices [idxs]:
    [if i < len(lines) and needle in lines[i]: lines[i] = "//" + lines[i]; break] *)
Fixpoint comment_first (idxs : list nat) (needle : text) (lines : list text)
  : list text :=
  match idxs with
  | [] => lines
  | i :: rest =>
      match lines !! i with
      | Some l =>
          if str_in needle l then <[i := txt "//" ++ l]> lines
          else comment_first rest needle lines
      | None => comment_first rest needle lines
      end
  end.

(** [for i in range(start, stop): ...] *)
Definition comment_window (start stop : nat) (needle : text)
           (lines : list text) : list text :=
  comment_first (py_range start stop) needle lines.

Definition fix_checker : Py unit :=
  lines <- read_lines checker_path ;;
  let lines := comment_window 370 385 (txt "totalCount") lines in
  write_lines checker_path lines ;;
  print (txt "Fixed checker.go").

Definition empty_string_output : text :=
  txt "pulumi.String(" ++ [DQ; DQ] ++ txt ").ToStringOutput()".

Definition rke_edits (content : text) : text :=
  str_replace (txt "pulumi.Map(nodeInfo)") (txt "pulumi.ToMap(nodeInfo)") content.

Definition dns_edits (content : text) : text :=
  let content :=
    str_replace (txt "pulumi.Map(dnsInfo)") (txt "pulumi.ToMap(dnsInfo)") content in
  let content :=
    str_replace (txt "initialIP == nil")
                (txt "initialIP == " ++ empty_string_output) content in
  content.

Definition wg_edits (content : text) : text :=
  str_replace (txt "pulumi.Map(nodeIPs)") (txt "pulumi.ToMap(nodeIPs)") content.

Definition ssh_edits (content : text) : text :=
  let content :=
    str_replace (txt "s.publicKey == nil")
                (txt "s.publicKey == " ++ empty_string_output) content in
  let content :=
    str_replace (txt "s.privateKey == nil")
                (txt "s.privateKey == " ++ empty_string_output) content in
  content.

Definition fix_pulumi_map_conversions : Py unit :=
  content <- read_text rke_path ;;
  write_text rke_path (rke_edits content) ;;
  print (txt "Fixed rke.go") ;;
  content <- read_text dns_path ;;
  write_text dns_path (dns_edits content) ;;
  print (txt "Fixed dns/manager.go") ;;
  content <- read_text wg_path ;;
  write_text wg_path (wg_edits content) ;;
  print (txt "Fixed wireguard.go") ;;
  content <- read_text ssh_path ;;
  write_text ssh_path (ssh_edits content) ;;
  print (txt "Fixed sshkeys.go").

(** The module body: [fix_checker(); fix_pulumi_map_conversions(); print(...)] *)
Definition main : Py unit :=
  fix_checker ;;
  fix_pulumi_map_conversions ;;
  print (txt "All compilation fixes applied").

End FixCompilation.

(** ** fix_orchestrator.py *)

Module FixOrchestrator.

Definition path : string :=
  "/Users/chalkan3/.projects/do-droplet-create/internal/orchestrator/orchestrator.go".

(** Pattern "&pulumi\.LogArgs\{\s*Message:\s*pulumi\.Sprintf\([^)]+\)\s*\}" *)
Definition logargs_pattern : regex :=
  cat [Str (txt "&pulumi.LogArgs{"); Star (Cls is_space);
       Str (txt "Message:"); Star (Cls is_space);
       Str (txt "pulumi.Sprintf("); Plus (Cls (is_not ")")); Chr ")";
       Star (Cls is_space); Chr "}"].

Definition firewall_if : text :=
  txt "if err := o.configureOSFirewalls(); err != nil {".
Definition firewall_if_commented : text :=
  txt "// OS firewall configuration moved to component" ++ [LF; TAB]
  ++ txt "// if err := o.configureOSFirewalls(); err != nil {".
Definition firewall_return : text :=
  txt "return fmt.Errorf(" ++ [DQ] ++ txt "failed to configure OS firewalls: %w"
  ++ [DQ] ++ txt ", err)" ++ [LF; TAB] ++ txt "}".
Definition firewall_return_commented : text :=
  txt "// " ++ [TAB] ++ txt "return fmt.Errorf(" ++ [DQ]
  ++ txt "failed to configure OS firewalls: %w" ++ [DQ] ++ txt ", err)"
  ++ [LF; TAB] ++ txt "// }".

Definition node_loop : text := txt "for _, nodeConfig := range o.config.Nodes {".
Definition node_loop_fixed : text :=
  txt "for i := range o.config.Nodes {" ++ [LF; TAB; TAB]
  ++ txt "nodeConfig := &o.config.Nodes[i]".
Definition pool_loop : text :=
  txt "for poolName, poolConfig := range o.config.NodePools {".
Definition pool_loop_fixed : text :=
  txt "for poolName := range o.config.NodePools {" ++ [LF; TAB; TAB]
  ++ txt "poolConfig := o.config.NodePools[poolName]".

(** Fixes 1 to 5, in the order of the script. *)
Definition edits (content : text) : text :=
  let content := sub_template logargs_pattern [TLit (txt "nil")] content in
  let content := str_replace firewall_if firewall_if_commented content in
  let content := str_replace firewall_return firewall_return_commented content in
  let content := sub_template (Str node_loop) [TLit node_loop_fixed] content in
  let content := sub_template (Str pool_loop) [TLit pool_loop_fixed] content in
  let content := str_replace (txt "o.config.DNS.") (txt "o.config.Network.DNS.") content in
  let content :=
    str_replace (txt "if o.dnsManager != nil && ingressIP != nil {")
                (txt "if o.dnsManager != nil {") content in
  content.

Definition main : Py unit :=
  content <- read_text path ;;
  write_text path (edits content) ;;
  print (txt "Fixed orchestrator.go").

End FixOrchestrator.

(** ** fix_final_errors.py *)

Module FixFinalErrors.

Definition orch_path : string :=
  "/Users/chalkan3/.projects/do-droplet-create/internal/orchestrator/orchestrator.go".
Definition comp_path : string :=
  "/Users/chalkan3/.projects/do-droplet-create/internal/orchestrator/orchestrator_component.go".

(** Pattern "pulumi\.Map\((\w+Outputs)\)" *)
Definition map_pattern : regex :=
  cat [Str (txt "pulumi.Map(");
       Group 1 (cat [Plus (Cls is_word); Str (txt "Outputs")]); Chr ")"].

(** Pattern "&pulumi\.LogArgs\{\s*Message:\s*pulumi\.Sprintf\([^)]+\),?\s*\}" *)
Definition logargs_pattern : regex :=
  cat [Str (txt "&pulumi.LogArgs{"); Star (Cls is_space);
       Str (txt "Message:"); Star (Cls is_space);
       Str (txt "pulumi.Sprintf("); Plus (Cls (is_not ")")); Chr ")";
       Opt (Chr ","); Star (Cls is_space); Chr "}"].

Definition orch_edits (content : text) : text :=
  let content :=
    str_replace (txt "if o.config.Storage != nil && len(o.config.Storage.Classes) > 0")
                (txt "if len(o.config.Storage.Classes) > 0") content in
  let content :=
    str_replace (txt "o.config.LoadBalancers")
                (txt "[]*config.LoadBalancerConfig{&o.config.LoadBalancer}") content in
  let content :=
    sub_template map_pattern
      [TLit (txt "pulumi.ToMap("); TRef 1; TLit (txt ")")] content in
  let content := sub_template logargs_pattern [TLit (txt "nil")] content in
  content.

Definition comp_edits (content : text) : text :=
  let content :=
    str_replace (txt "addonsComponent, err := NewAddonsComponent")
                (txt "_, err = NewAddonsComponent") content in
  let content :=
    str_replace (txt "component.Nodes = nodeComponent.Nodes.ToMapOutput()")
                (txt "component.Nodes = pulumi.Map{" ++ [DQ] ++ txt "nodes" ++ [DQ]
                 ++ txt ": nodeComponent.Nodes}.ToMapOutput()") content in
  content.

Definition main : Py unit :=
  content <- read_text orch_path ;;
  write_text orch_path (orch_edits content) ;;
  print (txt "Fixed orchestrator.go") ;;
  content <- read_text comp_path ;;
  write_text comp_path (comp_edits content) ;;
  print (txt "Fixed orchestrator_component.go") ;;
  print (txt "All errors fixed!").

End FixFinalErrors.

(** ** fix_logargs.py *)

Module FixLogargs.

(** Pattern (in two pieces) "(Log\.\w+\([^,]+,\s*"
    ")&pulumi\.LogArgs\{\s*Message:\s*(pulumi\.Sprintf\([^)]+\))\s*\}" *)
Definition pattern1 : regex :=
  cat [Group 1 (cat [Str (txt "Log."); Plus (Cls is_word); Chr "(";
                     Plus (Cls (is_not ",")); Chr ","; Star (Cls is_space)]);
       Str (txt "&pulumi.LogArgs{"); Star (Cls is_space);
       Str (txt "Message:"); Star (Cls is_space);
       Group 2 (cat [Str (txt "pulumi.Sprintf("); Plus (Cls (is_not ")")); Chr ")"]);
       Star (Cls is_space); Chr "}"].

(** Pattern "(ctx\.Log\.\w+)\(([^,]+),\s*&pulumi\.LogArgs\{[^}]*Message:\s*(pulumi\.Sprintf\([^)]+\))[^}]*\}\)" *)
Definition pattern2 : regex :=
  cat [Group 1 (cat [Str (txt "ctx.Log."); Plus (Cls is_word)]); Chr "(";
       Group 2 (Plus (Cls (is_not ","))); Chr ","; Star (Cls is_space);
       Str (txt "&pulumi.LogArgs{"); Star (Cls (is_not "}"));
       Str (txt "Message:"); Star (Cls is_space);
       Group 3 (cat [Str (txt "pulumi.Sprintf("); Plus (Cls (is_not ")")); Chr ")"]);
       Star (Cls (is_not "}")); Chr "}"; Chr ")"].

(** [return f'{method}({msg}, nil)'] *)
Definition replace_message (m : groups) : text :=
  let method := group m 1 in
  let msg := group m 2 in
  method ++ txt "(" ++ msg ++ txt ", nil)".

(** The two substitutions of [fix_logargs], on the content read. *)
Definition substitutions (content : text) : text :=
  let content := sub_template pattern1 [TRef 1; TLit (txt "nil")] content in
  let content := sub pattern2 replace_message content in
  content.

Definition fix_logargs (filepath : string) : Py bool :=
  content <- read_text filepath ;;
  let original_content := content in
  let content := substitutions content in
  if bool_decide (content <> original_content) then
    (write_text filepath content ;;
     print (txt "Fixed: " ++ txt filepath) ;;
     ret true)
  else ret false.

Definition go_files : list string :=
  [ "pkg/dns/manager.go"; "pkg/health/checker.go"; "pkg/health/validator.go";
    "pkg/network/manager.go"; "pkg/network/vpn_connectivity.go";
    "pkg/security/os_firewall.go"; "pkg/security/sshkeys.go" ]%string.

Definition full_path (filepath : string) : string :=
  "/Users/chalkan3/.projects/do-droplet-create/" +:+ filepath.

(** [for filepath in paths: ...], with the running [fixed_count]. *)
Fixpoint loop (paths : list string) (fixed_count : nat) : Py nat :=
  match paths with
  | [] => ret fixed_count
  | filepath :: rest =>
      present <- path_exists (full_path filepath) ;;
      if present then
        (fixed <- fix_logargs (full_path filepath) ;;
         if fixed then loop rest (fixed_count + 1) else loop rest fixed_count)
      else loop rest fixed_count
  end.

Definition decimal (n : nat) : text :=
  txt (DecimalString.NilEmpty.string_of_uint (Nat.to_uint n)).

(** The module body; its value is the final [fixed_count]. *)
Definition main : Py nat :=
  fixed_count <- loop go_files 0 ;;
  print (txt "Fixed " ++ decimal fixed_count ++ txt " files") ;;
  ret fixed_count.

End FixLogargs.

(** ** Rules and patch sets

    The edits the scripts make are of four shapes; a rule names one, and a
    patch set is the list of the rules a script applies to one file. *)

Inductive Rule : Type :=
  | Replace (old new : text)
  | ReSub (r : regex) (t : list titem)
  | ReSubFn (r : regex) (f : groups -> text)
  | CommentLine (start stop : nat) (needle : text).

Definition apply_rule (r : Rule) (c : text) : text :=
  match r with
  | Replace old new => str_replace old new c
  | ReSub p t => sub_template p t c
  | ReSubFn p f => sub p f c
  | CommentLine start stop needle =>
      writelines (FixCompilation.comment_window start stop needle (readlines c))
  end.

Definition apply_rules (rules : list Rule) (c : text) : text :=
  fold_left (fun c r => apply_rule r c) rules c.

(** The rule's locator finds something to act on in [c]. *)
Definition matches (r : Rule) (c : text) : bool :=
  match r with
  | Replace old _ => str_in old c
  | ReSub p _ => search p c
  | ReSubFn p _ => search p c
  | CommentLine start stop needle =>
      existsb (fun i => match readlines c !! i with
                        | Some l => str_in needle l
                        | None => false
                        end) (py_range start stop)
  end.

Module PatchSets.
Import FixCompilation FixOrchestrator FixFinalErrors FixLogargs.

Definition checker_rule : Rule := CommentLine 370 385 (txt "totalCount").

Definition orchestrator : list Rule :=
  [ ReSub FixOrchestrator.logargs_pattern [TLit (txt "nil")];
    Replace firewall_if firewall_if_commented;
    Replace firewall_return firewall_return_commented;
    ReSub (Str node_loop) [TLit node_loop_fixed];
    ReSub (Str pool_loop) [TLit pool_loop_fixed];
    Replace (txt "o.config.DNS.") (txt "o.config.Network.DNS.");
    Replace (txt "if o.dnsManager != nil && ingressIP != nil {")
            (txt "if o.dnsManager != nil {") ].

Definition final_orchestrator : list Rule :=
  [ Replace (txt "if o.config.Storage != nil && len(o.config.Storage.Classes) > 0")
            (txt "if len(o.config.Storage.Classes) > 0");
    Replace (txt "o.config.LoadBalancers")
            (txt "[]*config.LoadBalancerConfig{&o.config.LoadBalancer}");
    ReSub map_pattern [TLit (txt "pulumi.ToMap("); TRef 1; TLit (txt ")")];
    ReSub FixFinalErrors.logargs_pattern [TLit (txt "nil")] ].

Definition final_component : list Rule :=
  [ Replace (txt "addonsComponent, err := NewAddonsComponent")
            (txt "_, err = NewAddonsComponent");
    Replace (txt "component.Nodes = nodeComponent.Nodes.ToMapOutput()")
            (txt "component.Nodes = pulumi.Map{" ++ [DQ] ++ txt "nodes" ++ [DQ]
             ++ txt ": nodeComponent.Nodes}.ToMapOutput()") ].

Definition logargs : list Rule :=
  [ ReSub pattern1 [TRef 1; TLit (txt "nil")];
    ReSubFn pattern2 replace_message ].

End PatchSets.

(** ** The vocabulary of the properties *)

(** A matcher that looks at its continuation through its results only. *)
Definition respects {A : Type} (m : text -> groups -> @cont A -> option A) : Prop :=
  forall s g k k', (forall s' g', k s' g' = k' s' g') -> m s g k = m s g k'.

(** [old] occurs in [c] at offset [n] and at no smaller offset. *)
Definition first_at (old c : text) (n : nat) : Prop :=
  startswith old (drop n c) = true /\
  forall j, j < n -> startswith old (drop j c) = false.

(** No line of [lines] at an index in [[a, b)] contains [needle]. *)
Definition window_clear (needle : text) (lines : list text) (a b : nat) : Prop :=
  forall j l, a <= j < b -> lines !! j = Some l -> str_in needle l = false.

(** The FixLogargs.substitutions of [fix_logargs] change [c]. *)
Definition changes (c : text) : bool := bool_decide (FixLogargs.substitutions c <> c).

(** [filepath] is a listed path that exists in [w] and whose content the
    FixLogargs.substitutions change. *)
Definition counted (w : World) (filepath : string) : bool :=
  match files w !! FixLogargs.full_path filepath with
  | Some c => changes c
  | None => false
  end.

Definition fixed_message (path : string) : text := txt "Fixed: " ++ txt path.

(** What the loop logs for one listed path: nothing when it is missing. *)
Definition events_for (w : World) (filepath : string) : list event :=
  let p := FixLogargs.full_path filepath in
  match files w !! p with
  | Some c =>
      if changes c then [OpenR p] ++ [OpenW p] ++ [Printed (fixed_message p)]
      else [OpenR p]
  | None => []
  end.




(** The world after [path] has been read and [data] written to it on a
    device that takes every write. *)
Definition patched (path : string) (data : text) (w : World) : World :=
  mkWorld (<[path := data]> (files w)) None (log w ++ [OpenR path] ++ [OpenW path]).

(** The world after [path] has been read and the write of [data] to it has
    failed with room for [b] characters only. *)
Definition torn (path : string) (data : text) (b : nat) (w : World) : World :=
  mkWorld (<[path := take b data]> (files w)) (Some 0)
          (log w ++ [OpenR path] ++ [OpenW path]).

(** The shape of what [readlines] returns: every line but the last ends in
    its only line feed, and the last is not empty. *)
Inductive wf_lines : list text -> Prop :=
  | wf_nil : wf_lines []
  | wf_last body : body <> [] -> ~ In LF body -> wf_lines [body]
  | wf_cons body rest :
      ~ In LF body -> wf_lines rest -> wf_lines ((body ++ [LF]) :: rest).

(** One of [a], [b] is a prefix of the other. *)
Definition compat (a b : text) : bool := startswith a b || startswith b a.

(** No occurrence of [x] can touch a copy of [new] put into a text: [x] is
    not inside [new], no proper suffix of [x] runs into the start of [new],
    and no suffix of [new] starts [x]. *)
Definition cross_free (x new : text) : bool :=
  negb (str_in x new)
  && forallb (fun k => negb (compat (drop k x) new)) (seq 1 (length x - 1))
  && forallb (fun j => negb (startswith (drop j new) x)) (seq 0 (length new)).

(** No occurrence of [x] in [u ++ s] starts inside [u]. *)
Definition clear_before (x u s : text) : Prop :=
  forall j, j < length u -> startswith x (drop j (u ++ s)) = false.

(** A continuation is only ever handed a suffix of the text matched. *)
Definition hands_suffix {A : Type} (m : text -> groups -> @cont A -> option A) : Prop :=
  forall s g k x, m s g k = Some x ->
                  exists pre s' g', s = pre ++ s' /\ k s' g' = Some x.

(** The event is a print, or it opens a path in [P]. *)
Definition event_on (P : string -> Prop) (e : event) : Prop :=
  match e with
  | OpenR p => P p
  | OpenW p => P p
  | Printed _ => True
  end.

(** Whatever the world and however it ends, [m] leaves every file outside
    [P] as it was, and only adds to the log: prints, and opens of paths in
    [P]. *)
Definition confined {A : Type} (P : string -> Prop) (m : Py A) : Prop :=
  forall w,
    (forall q, ~ P q -> files (snd (m w)) !! q = files w !! q) /\
    exists evs, log (snd (m w)) = log w ++ evs /\ Forall (event_on P) evs.

(** The paths [fix_logargs.py] works on. *)
Definition listed (paths : list string) (q : string) : Prop :=
  exists fp, In fp paths /\ q = FixLogargs.full_path fp.

(** The world [fix_pulumi_map_conversions] leaves when its four files held
    [c2], [c3], [c4] and [c5] and every write was taken. *)
Definition converted (c2 c3 c4 c5 : text) (w : World) : World :=
  let w2 := emit (Printed (txt "Fixed rke.go"))
              (patched FixCompilation.rke_path (FixCompilation.rke_edits c2) w) in
  let w3 := emit (Printed (txt "Fixed dns/manager.go"))
              (patched FixCompilation.dns_path (FixCompilation.dns_edits c3) w2) in
  let w4 := emit (Printed (txt "Fixed wireguard.go"))
              (patched FixCompilation.wg_path (FixCompilation.wg_edits c4) w3) in
  emit (Printed (txt "Fixed sshkeys.go"))
       (patched FixCompilation.ssh_path (FixCompilation.ssh_edits c5) w4).

(** The edits of the four scripts that search for a literal text, in the
    order of the scripts, but for the first replacement of Fix 2 of
    [fix_orchestrator.py]. *)
Definition literal_rules : list Rule :=
  [ Replace (txt "pulumi.Map(nodeInfo)") (txt "pulumi.ToMap(nodeInfo)");
    Replace (txt "pulumi.Map(dnsInfo)") (txt "pulumi.ToMap(dnsInfo)");
    Replace (txt "initialIP == nil")
            (txt "initialIP == " ++ FixCompilation.empty_string_output);
    Replace (txt "pulumi.Map(nodeIPs)") (txt "pulumi.ToMap(nodeIPs)");
    Replace (txt "s.publicKey == nil")
            (txt "s.publicKey == " ++ FixCompilation.empty_string_output);
    Replace (txt "s.privateKey == nil")
            (txt "s.privateKey == " ++ FixCompilation.empty_string_output);
    Replace FixOrchestrator.firewall_return FixOrchestrator.firewall_return_commented;
    ReSub (Str FixOrchestrator.node_loop) [TLit FixOrchestrator.node_loop_fixed];
    ReSub (Str FixOrchestrator.pool_loop) [TLit FixOrchestrator.pool_loop_fixed];
    Replace (txt "o.config.DNS.") (txt "o.config.Network.DNS.");
    Replace (txt "if o.dnsManager != nil && ingressIP != nil {")
            (txt "if o.dnsManager != nil {");
    Replace (txt "if o.config.Storage != nil && len(o.config.Storage.Classes) > 0")
            (txt "if len(o.config.Storage.Classes) > 0");
    Replace (txt "o.config.LoadBalancers")
            (txt "[]*config.LoadBalancerConfig{&o.config.LoadBalancer}");
    Replace (txt "addonsComponent, err := NewAddonsComponent")
            (txt "_, err = NewAddonsComponent");
    Replace (txt "component.Nodes = nodeComponent.Nodes.ToMapOutput()")
            (txt "component.Nodes = pulumi.Map{" ++ [DQ] ++ txt "nodes" ++ [DQ]
             ++ txt ": nodeComponent.Nodes}.ToMapOutput()") ].

(** The edits of the scripts that search for a pattern which is not a
    literal text and replace every match by a template. *)
Definition pattern_rules : list Rule :=
  [ ReSub FixOrchestrator.logargs_pattern [TLit (txt "nil")];
    ReSub FixFinalErrors.map_pattern
          [TLit (txt "pulumi.ToMap("); TRef 1; TLit (txt ")")];
    ReSub FixFinalErrors.logargs_pattern [TLit (txt "nil")];
    ReSub FixLogargs.pattern1 [TRef 1; TLit (txt "nil")] ].

(** The texts a pattern matches, read off the pattern: what the
    backtracking matcher can consume, whichever way it chooses to. *)
Inductive lang : regex -> text -> Prop :=
  | lang_eps : lang Eps []
  | lang_chr c : lang (Chr c) [c]
  | lang_str p : lang (Str p) p
  | lang_cls f c : f c = true -> lang (Cls f) [c]
  | lang_seq a b m1 m2 : lang a m1 -> lang b m2 -> lang (Seq a b) (m1 ++ m2)
  | lang_star_nil a : lang (Star a) []
  | lang_star_cons a m1 m2 :
      m1 <> [] -> lang a m1 -> lang (Star a) m2 -> lang (Star a) (m1 ++ m2)
  | lang_plus a m1 m2 : lang a m1 -> lang (Star a) m2 -> lang (Plus a) (m1 ++ m2)
  | lang_opt_nil a : lang (Opt a) []
  | lang_opt a m : lang a m -> lang (Opt a) m
  | lang_group i a m : lang a m -> lang (Group i a) m.

(** Some text the pattern matches starts [s]. *)
Definition pm (r : regex) (s : text) : Prop :=
  exists m rest, s = m ++ rest /\ lang r m.

(** No match of [r] in [u ++ s] starts inside [u]. *)
Definition clear_re (r : regex) (u s : text) : Prop :=
  forall j, j < length u -> match_at r (drop j (u ++ s)) = None.

(** What makes a pattern replacement safe to apply again: the pattern does
    not match the empty text, no match can start inside a replacement, and
    a match that runs over a replacement was already a match before the
    replacement was made. *)
Record settles (r : regex) (repl : groups -> text) : Prop := {
  settles_nonempty : ~ lang r [];
  settles_inside :
    forall s g rest, match_at r s = Some (g, rest) ->
    forall j Z, j < length (repl g) -> ~ pm r (drop j (repl g) ++ Z);
  settles_before :
    forall s g rest, match_at r s = Some (g, rest) ->
    forall a Z, pm r (a ++ repl g ++ Z) -> pm r (a ++ s)
}.

(** What [m] hands to its continuation is what is left after a text of
    [r]. *)
Definition sound_for {A : Type} (r : regex)
           (m : text -> groups -> @cont A -> option A) : Prop :=
  forall s g k x, m s g k = Some x ->
                  exists pre s' g', s = pre ++ s' /\ lang r pre /\ k s' g' = Some x.

(** Group [i] is not set by [r]. *)
Fixpoint keeps (i : nat) (r : regex) : bool :=
  match r with
  | Seq r1 r2 => keeps i r1 && keeps i r2
  | Star r' | Plus r' | Opt r' => keeps i r'
  | Group j r' => negb (i =? j) && keeps i r'
  | _ => true
  end.

(** The part the LogArgs patterns of [fix_orchestrator.py] and
    [fix_final_errors.py] share: everything up to the [Sprintf] arguments. *)
Definition logargs_head : list regex :=
  [ Str (txt "&pulumi.LogArgs{"); Star (Cls is_space);
    Str (txt "Message:"); Star (Cls is_space);
    Str (txt "pulumi.Sprintf("); Plus (Cls (is_not ")")) ].

(** ** Sample contents and worlds *)

Definition plain_go : text := txt "package health".

Definition logargs_call (receiver args : text) : text :=
  receiver ++ txt ".Log.Info(" ++ [DQ] ++ txt "x" ++ [DQ]
  ++ txt ", &pulumi.LogArgs{Message: pulumi.Sprintf(" ++ args ++ txt ")})".

Definition two_files : World :=
  mkWorld {[ FixLogargs.full_path "pkg/dns/manager.go" := logargs_call (txt "ctx") (txt "msg");
             FixLogargs.full_path "pkg/health/checker.go" := plain_go ]}
          None [].

Definition orchestrator_only : World :=
  mkWorld {[ FixOrchestrator.path := txt "x := o.config.DNS.Zone" ]} None [].

Definition nested_args : text :=
  [DQ] ++ txt "node %s" ++ [DQ] ++ txt ", name(node)".

Definition plain_args : text :=
  [DQ] ++ txt "node %s" ++ [DQ] ++ txt ", name".

Definition checker_go : text :=
  List.repeat LF 370 ++ txt "totalCount := 0" ++ [LF].

Definition five_files : World :=
  mkWorld {[ FixCompilation.checker_path := plain_go;
             FixCompilation.rke_path := txt "m := pulumi.Map(nodeInfo)";
             FixCompilation.dns_path := txt "if initialIP == nil {";
             FixCompilation.wg_path := txt "m := pulumi.Map(nodeIPs)";
             FixCompilation.ssh_path := txt "if s.publicKey == nil {" ]}
          None [].


(** A logging call inside the [Sprintf] arguments of another, with a closing
    brace in its first argument and in its own [Sprintf] arguments. *)
Definition nested_log_call : text :=
  txt "ctx.Log.A(a, &pulumi.LogArgs{Message: pulumi.Sprintf("
  ++ txt "ctx.Log.w(m}, &pulumi.LogArgs{x)Message: pulumi.Sprintf(b}c)})"
  ++ txt "})".

(** * Properties *)

(** ** The primitives on small inputs *)

Example str_replace_all :
  str_replace (txt "ab") (txt "X") (txt "zabab-ab") = txt "zXX-X".
Proof. reflexivity. Qed.

Example str_replace_empty_old :
  str_replace [] (txt "-") (txt "abc") = txt "-a-b-c-".
Proof. reflexivity. Qed.

Example readlines_keeps_ends :
  readlines (txt "ab" ++ [LF] ++ [LF] ++ txt "cd") =
  [txt "ab" ++ [LF]; [LF]; txt "cd"].
Proof. reflexivity. Qed.

Example sub_star_empty_matches :
  sub (Star (Chr "x")) (fun _ => txt "-") (txt "abxd") = txt "-a-b--d-".
Proof. vm_compute. reflexivity. Qed.

Example sub_backtracks :
  sub_template (cat [Group 1 (Plus (Cls is_word)); Chr "1"])
    [TLit (txt "<"); TRef 1; TLit (txt ">")] (txt "ab1 c11 d") =
  txt "<ab> <c1> d".
Proof. vm_compute. reflexivity. Qed.

(** ** Facts about the string primitives *)

Section StringFacts.

Lemma startswith_app (p rest : text) : startswith p (p ++ rest) = true.
Proof.
  induction p as [|a p IH]; simpl; [reflexivity|].
  rewrite Ascii.eqb_refl. exact IH.
Qed.

Lemma startswith_split (p s : text) :
  startswith p s = true -> s = p ++ drop (length p) s.
Proof.
  revert s. induction p as [|a p IH]; intros s H; simpl in *.
  - reflexivity.
  - destruct s as [|b s]; [discriminate|].
    apply andb_true_iff in H as [Hab Hp].
    apply Ascii.eqb_eq in Hab. subst b. simpl. f_equal. auto.
Qed.

Lemma startswith_length (p s : text) :
  startswith p s = true -> length p <= length s.
Proof.
  intros H. apply startswith_split in H. rewrite H, length_app. lia.
Qed.

Lemma startswith_longer (p s : text) :
  length s < length p -> startswith p s = false.
Proof.
  revert s. induction p as [|a p IH]; intros s H; simpl in *; [lia|].
  destruct s as [|b s]; [reflexivity|].
  simpl in H. rewrite IH by lia. apply andb_false_r.
Qed.

Lemma str_in_head (needle s : text) :
  startswith needle s = true -> str_in needle s = true.
Proof. destruct s; simpl; intros ->; reflexivity. Qed.

Lemma str_in_app (needle pre post : text) :
  str_in needle (pre ++ needle ++ post) = true.
Proof.
  induction pre as [|c pre IH].
  - cbn [app]. apply str_in_head, startswith_app.
  - simpl. rewrite IH. apply orb_true_r.
Qed.

Lemma str_in_split (needle s : text) :
  str_in needle s = true -> exists pre post, s = pre ++ needle ++ post.
Proof.
  induction s as [|c s IH]; simpl; intros H.
  - rewrite orb_false_r in H. exists [], []. simpl.
    destruct needle; [reflexivity|discriminate].
  - apply orb_true_iff in H as [H|H].
    + exists [], (drop (length needle) (c :: s)). simpl.
      exact (startswith_split needle (c :: s) H).
    + destruct (IH H) as (pre & post & ->). exists (c :: pre), post. reflexivity.
Qed.

Lemma str_in_false_head (needle s : text) :
  str_in needle s = false -> startswith needle s = false.
Proof.
  destruct s; simpl; intros H; apply orb_false_iff in H as [H _]; exact H.
Qed.

Lemma str_in_false_tail (needle : text) (c : ascii) (s : text) :
  str_in needle (c :: s) = false -> str_in needle s = false.
Proof. simpl. intros H. apply orb_false_iff in H as [_ H]. exact H. Qed.

Lemma str_in_cons (needle : text) (c : ascii) (s : text) :
  str_in needle s = true -> str_in needle (c :: s) = true.
Proof. simpl. intros ->. apply orb_true_r. Qed.

Lemma str_in_prepend (needle pre s : text) :
  str_in needle s = true -> str_in needle (pre ++ s) = true.
Proof. induction pre; simpl; intros H; [exact H|]. rewrite IHpre by exact H. apply orb_true_r. Qed.

(** Enough fuel: the scan of [replace] visits at most [length s] positions. *)
Lemma replace_scan_fuel (old new : text) (n m : nat) (s : text) :
  old <> [] -> length s <= n -> length s <= m ->
  replace_scan n old new s = replace_scan m old new s.
Proof.
  intros Hold. revert m s.
  induction n as [|n IH]; intros m s Hn Hm.
  - destruct s; [|simpl in Hn; lia]. destruct m; simpl; [reflexivity|].
    rewrite startswith_longer; [reflexivity|]. destruct old; simpl; [congruence|lia].
  - destruct m as [|m].
    + destruct s; [|simpl in Hm; lia]. simpl.
      rewrite startswith_longer; [reflexivity|]. destruct old; simpl; [congruence|lia].
    + simpl. destruct (startswith old s) eqn:E.
      * f_equal. apply IH.
        -- rewrite length_drop. apply startswith_length in E.
           destruct old; [congruence|]. simpl in *. lia.
        -- rewrite length_drop. apply startswith_length in E.
           destruct old; [congruence|]. simpl in *. lia.
      * destruct s as [|c s]; [reflexivity|]. f_equal.
        apply IH; simpl in *; lia.
Qed.

(** The equation of [replace] for a non-empty [old]. *)
Lemma str_replace_unfold (old new s : text) :
  old <> [] ->
  str_replace old new s =
  if startswith old s
  then new ++ str_replace old new (drop (length old) s)
  else match s with
       | [] => []
       | c :: s' => c :: str_replace old new s'
       end.
Proof.
  intros Hold. unfold str_replace. destruct old as [|a old]; [congruence|].
  destruct s as [|c s].
  - simpl. reflexivity.
  - change (replace_scan (length (c :: s)) (a :: old) new (c :: s))
      with (replace_scan (S (length s)) (a :: old) new (c :: s)).
    cbn [replace_scan]. destruct (startswith (a :: old) (c :: s)) eqn:E.
    + f_equal. apply replace_scan_fuel; [congruence| |lia].
      rewrite length_drop. simpl. lia.
    + reflexivity.
Qed.

Lemma str_replace_absent (old new s : text) :
  str_in old s = false -> str_replace old new s = s.
Proof.
  intros H. assert (Hold : old <> []).
  { intros ->. destruct s; discriminate. }
  induction s as [|c s IH].
  - rewrite str_replace_unfold by exact Hold. simpl. rewrite (str_in_false_head _ _ H).
    reflexivity.
  - rewrite str_replace_unfold by exact Hold.
    rewrite (str_in_false_head _ _ H). f_equal.
    apply IH. exact (str_in_false_tail _ _ _ H).
Qed.

Lemma concat_readlines (s : text) : concat (readlines s) = s.
Proof.
  induction s as [|c s IH]; simpl; [reflexivity|].
  destruct (Ascii.eqb c LF).
  - simpl. f_equal. exact IH.
  - destruct (readlines s) as [|l ls]; simpl in *.
    + subst s. reflexivity.
    + f_equal. exact IH.
Qed.

End StringFacts.

(** ** The bounds of the scans are enough

    [star] and [sub_scan] carry a bound on the number of steps; the bound
    they are started with is never reached before the text is used up, so
    both obey the equations of the unbounded loops. *)

Section Fuel.
Context {A : Type}.

Lemma star_ext (m : text -> groups -> cont -> option A) (n : nat) :
  respects m ->
  forall s g k k', (forall s' g', k s' g' = k' s' g') ->
                   star m n s g k = star m n s g k'.
Proof.
  intros Hm. induction n as [|n IH]; intros s g k k' H; simpl; [apply H|].
  rewrite (Hm s g _ (fun s' g' =>
             if length s' <? length s then star m n s' g' k' else None)).
  - rewrite H. reflexivity.
  - intros s' g'. destruct (length s' <? length s); [apply IH, H|reflexivity].
Qed.

Lemma rmatch_ext (r : regex) : respects (@rmatch A r).
Proof.
  induction r as [|c|p|p|r1 IH1 r2 IH2|r IH|r IH|r IH|i r IH];
    intros s g k k' H; cbn [rmatch].
  - apply H.
  - destruct s as [|c' s]; [reflexivity|]. destruct (Ascii.eqb c c'); [apply H|reflexivity].
  - destruct (startswith p s); [apply H|reflexivity].
  - destruct s as [|c' s]; [reflexivity|]. destruct (p c'); [apply H|reflexivity].
  - apply IH1. intros s' g'. apply IH2, H.
  - apply star_ext; [exact IH|exact H].
  - apply IH. intros s' g'. apply star_ext; [exact IH|exact H].
  - rewrite (IH s g k k' H), H. reflexivity.
  - apply IH. intros s' g'. apply H.
Qed.

Lemma star_fail (m : text -> groups -> cont -> option A) (n : nat) :
  respects m -> (forall s g, m s g (fun _ _ => None) = None) ->
  forall s g, star m n s g (fun _ _ => None) = None.
Proof.
  intros Hm Hfail. induction n as [|n IH]; intros s g; simpl; [reflexivity|].
  rewrite (Hm s g _ (fun _ _ => None)).
  - rewrite Hfail. reflexivity.
  - intros s' g'. destruct (length s' <? length s); [apply IH|reflexivity].
Qed.

Lemma rmatch_fail (r : regex) (s : text) (g : groups) :
  @rmatch A r s g (fun _ _ => None) = None.
Proof.
  revert s g.
  induction r as [|c|p|p|r1 IH1 r2 IH2|r IH|r IH|r IH|i r IH];
    intros s g; cbn [rmatch].
  - reflexivity.
  - destruct s as [|c' s]; [reflexivity|]. destruct (Ascii.eqb c c'); reflexivity.
  - destruct (startswith p s); reflexivity.
  - destruct s as [|c' s]; [reflexivity|]. destruct (p c'); reflexivity.
  - rewrite (rmatch_ext r1 s g _ (fun _ _ => None)); [apply IH1|].
    intros s' g'. apply IH2.
  - apply star_fail; [apply rmatch_ext|exact IH].
  - rewrite (rmatch_ext r s g _ (fun _ _ => None)); [apply IH|].
    intros s' g'. apply star_fail; [apply rmatch_ext|exact IH].
  - rewrite IH. reflexivity.
  - apply IH.
Qed.

Lemma star_fuel (r : regex) (n n' : nat) :
  forall s g k, length s <= n -> length s <= n' ->
                star (@rmatch A r) n s g k = star (rmatch r) n' s g k.
Proof.
  revert n'. induction n as [|n IH]; intros n' s g k Hn Hn'.
  - destruct s; [|simpl in Hn; lia]. destruct n' as [|n']; [reflexivity|].
    cbn [star]. rewrite (rmatch_ext r [] g _ (fun _ _ => None)).
    + rewrite rmatch_fail. reflexivity.
    + intros s' g'. reflexivity.
  - destruct n' as [|n'].
    + destruct s; [|simpl in Hn'; lia].
      cbn [star]. rewrite (rmatch_ext r [] g _ (fun _ _ => None)).
      * rewrite rmatch_fail. reflexivity.
      * intros s' g'. reflexivity.
    + cbn [star]. rewrite (rmatch_ext r s g _
                (fun s' g' => if length s' <? length s
                              then star (rmatch r) n' s' g' k else None)).
      * reflexivity.
      * intros s' g'. destruct (length s' <? length s) eqn:E; [|reflexivity].
        apply Nat.ltb_lt in E. apply IH; lia.
Qed.

(** The equation of the greedy star. *)
Lemma rmatch_star (r : regex) (s : text) (g : groups) (k : cont) :
  @rmatch A (Star r) s g k =
  match rmatch r s g (fun s' g' =>
                        if length s' <? length s then rmatch (Star r) s' g' k
                        else None) with
  | Some x => Some x
  | None => k s g
  end.
Proof.
  cbn [rmatch]. destruct s as [|c s].
  - cbn [star length]. rewrite (rmatch_ext r [] g _ (fun _ _ => None)).
    + rewrite rmatch_fail. reflexivity.
    + intros s' g'. reflexivity.
  - change (length (c :: s)) with (S (length s)). cbn [star].
    rewrite (rmatch_ext r (c :: s) g _
               (fun s' g' => if length s' <? S (length s)
                             then star (rmatch r) (length s') s' g' k else None)).
    + reflexivity.
    + intros s' g'. change (length (c :: s)) with (S (length s)).
      destruct (length s' <? S (length s)) eqn:E; [|reflexivity].
      apply Nat.ltb_lt in E. apply star_fuel; lia.
Qed.

End Fuel.

Lemma sub_scan_fuel (r : regex) (repl : groups -> text) (n m : nat) :
  forall s, length s < n -> length s < m ->
            sub_scan n r repl s = sub_scan m r repl s.
Proof.
  revert m. induction n as [|n IH]; intros m s Hn Hm; [lia|].
  destruct m as [|m]; [lia|]. cbn [sub_scan].
  destruct (match_at r s) as [[g rest]|].
  - destruct (length rest <? length s) eqn:E.
    + apply Nat.ltb_lt in E. f_equal. apply IH; lia.
    + destruct s as [|c s]; [reflexivity|]. f_equal. f_equal.
      apply IH; simpl in *; lia.
  - destruct s as [|c s]; [reflexivity|]. f_equal. apply IH; simpl in *; lia.
Qed.

(** The equation of [re.sub]. *)
Lemma sub_unfold (r : regex) (repl : groups -> text) (s : text) :
  sub r repl s =
  match match_at r s with
  | Some (g, rest) =>
      if length rest <? length s
      then repl g ++ sub r repl rest
      else repl g ++ match s with
                     | [] => []
                     | c :: s' => c :: sub r repl s'
                     end
  | None =>
      match s with
      | [] => []
      | c :: s' => c :: sub r repl s'
      end
  end.
Proof.
  unfold sub at 1. cbn [sub_scan].
  destruct (match_at r s) as [[g rest]|].
  - destruct (length rest <? length s) eqn:E.
    + apply Nat.ltb_lt in E. f_equal. unfold sub. apply sub_scan_fuel; lia.
    + destruct s as [|c s]; reflexivity.
  - destruct s as [|c s]; reflexivity.
Qed.

(** ** Literal replacement: which spans are rewritten *)

Lemma first_at_exists (old c : text) :
  str_in old c = true -> exists n, first_at old c n.
Proof.
  induction c as [|x c IH]; intros H.
  - exists 0. split; [|intros j Hj; lia].
    simpl in H. rewrite orb_false_r in H. exact H.
  - destruct (startswith old (x :: c)) eqn:E.
    + exists 0. split; [exact E|intros j Hj; lia].
    + simpl in H. simpl in E. rewrite E in H. simpl in H.
      destruct (IH H) as (n & Hn & Hlt). exists (S n). split; [exact Hn|].
      intros [|j] Hj; [exact E|]. apply Hlt. lia.
Qed.

Lemma str_replace_first (old new c : text) (n : nat) :
  old <> [] -> first_at old c n ->
  str_replace old new c =
  take n c ++ new ++ str_replace old new (drop (n + length old) c).
Proof.
  intros Hold. revert c. induction n as [|n IH]; intros c [Hn Hlt].
  - rewrite str_replace_unfold by exact Hold. rewrite drop_0 in Hn.
    rewrite Hn. reflexivity.
  - assert (H0 : startswith old c = false) by (apply (Hlt 0); lia).
    destruct c as [|x c].
    + simpl in Hn. rewrite H0 in Hn. discriminate.
    + rewrite str_replace_unfold by exact Hold. rewrite H0.
      cbn [take drop Nat.add app]. f_equal. apply IH. split; [exact Hn|].
      intros j Hj. apply (Hlt (S j)). lia.
Qed.

Lemma app_suffix_drop (x pre mid post : text) :
  x = pre ++ mid ++ post -> drop (length x - length post) x = post.
Proof.
  intros ->. rewrite app_assoc.
  replace (length ((pre ++ mid) ++ post) - length post) with (length (pre ++ mid))
    by (rewrite !length_app; lia).
  apply drop_app_length.
Qed.

(** C2, as the specification words it, fails: [replace] rewrites the second
    occurrence too, so the text after the first span is not the text of the
    content after that span. *)
Lemma C2_replace_not_first_only :
  let old := txt "o.config.DNS." in
  let new := txt "o.config.Network.DNS." in
  let c := txt "o.config.DNS.A o.config.DNS.B" in
  first_at old c 0 /\
  apply_rule (Replace old new) c = txt "o.config.Network.DNS.A o.config.Network.DNS.B" /\
  ~ exists mid,
      apply_rule (Replace old new) c = take 0 c ++ mid ++ drop (0 + length old) c.
Proof.
  cbv zeta. split; [|split].
  - split; [reflexivity|intros j Hj; lia].
  - reflexivity.
  - intros [mid H]. apply app_suffix_drop in H. vm_compute in H. discriminate.
Qed.

(** C2 (amended): [content.replace(old, new)] rewrites every occurrence of
    [old], scanning left to right: the text before the first occurrence is
    copied unchanged, the occurrence is replaced by [new], and the text after
    it is treated in the same way; content without an occurrence is returned
    unchanged. *)
Theorem C2_replace_every_occurrence (old new c : text) :
  old <> [] ->
  (str_in old c = false -> apply_rule (Replace old new) c = c) /\
  (str_in old c = true -> exists n, first_at old c n) /\
  (forall n, first_at old c n ->
     apply_rule (Replace old new) c =
     take n c ++ new ++ apply_rule (Replace old new) (drop (n + length old) c)).
Proof.
  intros Hold. split; [|split].
  - apply str_replace_absent.
  - apply first_at_exists.
  - intros n Hn. simpl. apply str_replace_first; assumption.
Qed.

Lemma C2_replace_every_occurrence_witness :
  let old := txt "pulumi.Map(nodeInfo)" in
  let new := txt "pulumi.ToMap(nodeInfo)" in
  let c := txt "a := pulumi.Map(nodeInfo); b := pulumi.Map(nodeInfo)" in
  apply_rule (Replace old new) c =
  take 5 c ++ new ++ apply_rule (Replace old new) (drop (5 + length old) c).
Proof.
  cbv zeta.
  refine (proj2 (proj2 (C2_replace_every_occurrence
            (txt "pulumi.Map(nodeInfo)") (txt "pulumi.ToMap(nodeInfo)")
            (txt "a := pulumi.Map(nodeInfo); b := pulumi.Map(nodeInfo)") _)) 5 _).
  - discriminate.
  - split; [reflexivity|].
    intros j Hj.
    do 5 (destruct j as [|j]; [reflexivity|]). lia.
Defined.

(** ** The line window of [fix_checker] *)

Section LineWindow.
Import FixCompilation.

Variable needle : text.
Variable lines : list text.

Lemma comment_first_seq (n a : nat) :
  (exists i l, a <= i < a + n /\ lines !! i = Some l /\ str_in needle l = true /\
               window_clear needle lines a i /\
               comment_first (seq a n) needle lines = <[i := txt "//" ++ l]> lines)
  \/ (window_clear needle lines a (a + n) /\ comment_first (seq a n) needle lines = lines).
Proof.
  revert a. induction n as [|n IH]; intros a.
  - right. split; [|reflexivity]. intros j l Hj. lia.
  - cbn [seq comment_first].
    destruct (lines !! a) as [l|] eqn:El.
    + destruct (str_in needle l) eqn:Ein.
      * left. exists a, l. repeat split; try lia; try assumption.
        intros j l' Hj. lia.
      * destruct (IH (S a)) as [(i & l' & Hi & Hl & Hin & Hclear & Heq)|[Hclear Heq]].
        -- left. exists i, l'. repeat split; try lia; try assumption.
           intros j l'' Hj Hl''. destruct (decide (j = a)) as [->|Hne].
           ++ congruence.
           ++ apply (Hclear j l''); [lia|exact Hl''].
        -- right. split; [|exact Heq].
           intros j l'' Hj Hl''. destruct (decide (j = a)) as [->|Hne].
           ++ congruence.
           ++ apply (Hclear j l''); [lia|exact Hl''].
    + destruct (IH (S a)) as [(i & l' & Hi & Hl & Hin & Hclear & Heq)|[Hclear Heq]].
      * left. exists i, l'. repeat split; try lia; try assumption.
        intros j l'' Hj Hl''. destruct (decide (j = a)) as [->|Hne].
        -- congruence.
        -- apply (Hclear j l''); [lia|exact Hl''].
      * right. split; [|exact Heq].
        intros j l'' Hj Hl''. destruct (decide (j = a)) as [->|Hne].
        -- congruence.
        -- apply (Hclear j l''); [lia|exact Hl''].
Qed.

Lemma comment_window_cases (start stop : nat) :
  (exists i l, start <= i < stop /\ lines !! i = Some l /\ str_in needle l = true /\
               window_clear needle lines start i /\
               comment_window start stop needle lines = <[i := txt "//" ++ l]> lines)
  \/ (window_clear needle lines start stop /\ comment_window start stop needle lines = lines).
Proof.
  unfold comment_window, py_range.
  destruct (comment_first_seq (stop - start) start)
    as [(i & l & Hi & Hl & Hin & Hclear & Heq)|[Hclear Heq]].
  - left. exists i, l. repeat split; try lia; assumption.
  - right. split; [|exact Heq]. intros j l Hj. apply Hclear. lia.
Qed.

End LineWindow.

(** C6: a line-window rule looks at the lines with 0-based index in
    [[start, stop)] only; it puts ["//"] in front of the first of them that
    contains [needle] and changes no other line, and when none of them
    contains [needle] the content comes back unchanged. *)
Theorem C6_line_window (start stop : nat) (needle c : text) :
  let lines := readlines c in
  let out := FixCompilation.comment_window start stop needle lines in
  apply_rule (CommentLine start stop needle) c = writelines out /\
  ((exists i l,
       start <= i < stop /\ lines !! i = Some l /\ str_in needle l = true /\
       window_clear needle lines start i /\
       out !! i = Some (txt "//" ++ l) /\
       length out = length lines /\
       forall j, j <> i -> out !! j = lines !! j)
   \/ (window_clear needle lines start stop /\ out = lines /\
       apply_rule (CommentLine start stop needle) c = c)).
Proof.
  cbv zeta. split; [reflexivity|].
  destruct (comment_window_cases needle (readlines c) start stop)
    as [(i & l & Hi & Hl & Hin & Hclear & Heq)|[Hclear Heq]].
  - left. exists i, l. rewrite Heq.
    repeat split; try lia; try assumption.
    + apply list_lookup_insert_eq. apply lookup_lt_Some in Hl. exact Hl.
    + apply length_insert.
    + intros j Hj. apply list_lookup_insert_ne. congruence.
  - right. repeat split; try assumption.
    simpl. rewrite Heq. apply concat_readlines.
Qed.

(** ** A locator without a match *)

Lemma search_false_here (r : regex) (s : text) :
  search r s = false -> match_at r s = None.
Proof.
  destruct s; simpl; destruct (match_at r _); intros H; (discriminate || reflexivity).
Qed.

Lemma search_false_tail (r : regex) (c : ascii) (s : text) :
  search r (c :: s) = false -> search r s = false.
Proof. simpl. destruct (match_at r (c :: s)); [discriminate|]. auto. Qed.

Lemma sub_scan_absent (r : regex) (repl : groups -> text) (fuel : nat) (s : text) :
  search r s = false -> sub_scan fuel r repl s = s.
Proof.
  revert s. induction fuel as [|fuel IH]; intros s H; [reflexivity|].
  cbn [sub_scan]. rewrite (search_false_here r s H).
  destruct s as [|c s]; [reflexivity|]. f_equal.
  apply IH. exact (search_false_tail r c s H).
Qed.

Lemma sub_absent (r : regex) (repl : groups -> text) (s : text) :
  search r s = false -> sub r repl s = s.
Proof. apply sub_scan_absent. Qed.

Lemma comment_window_absent (start stop : nat) (needle : text) (lines : list text) :
  existsb (fun i => match lines !! i with
                    | Some l => str_in needle l
                    | None => false
                    end) (py_range start stop) = false ->
  FixCompilation.comment_window start stop needle lines = lines.
Proof.
  intros H.
  destruct (comment_window_cases needle lines start stop)
    as [(i & l & Hi & Hl & Hin & _ & _)|[_ Heq]]; [|exact Heq].
  exfalso. apply Bool.not_true_iff_false in H. apply H.
  apply existsb_exists. exists i. split.
  - unfold py_range. apply in_seq. lia.
  - rewrite Hl. exact Hin.
Qed.

Lemma apply_rule_absent (r : Rule) (c : text) :
  matches r c = false -> apply_rule r c = c.
Proof.
  destruct r as [old new|p t|p f|start stop needle]; simpl; intros H.
  - apply str_replace_absent. exact H.
  - apply sub_absent. exact H.
  - apply sub_absent. exact H.
  - rewrite (comment_window_absent _ _ _ _ H). apply concat_readlines.
Qed.

(** ** Running the scripts *)

Section Running.

Lemma bind_ok {A B} (m : Py A) (k : A -> Py B) (w w' : World) (a : A) :
  m w = (Ok a, w') -> bind m k w = k a w'.
Proof. unfold bind. intros ->. reflexivity. Qed.

Lemma bind_raise {A B} (m : Py A) (k : A -> Py B) (w w' : World) (e : exn) :
  m w = (Raise e, w') -> bind m k w = (Raise e, w').
Proof. unfold bind. intros ->. reflexivity. Qed.

Lemma read_text_present (path : string) (w : World) (c : text) :
  files w !! path = Some c -> read_text path w = (Ok c, emit (OpenR path) w).
Proof. unfold read_text. intros ->. reflexivity. Qed.

Lemma read_text_missing (path : string) (w : World) :
  files w !! path = None -> read_text path w = (Raise (FileNotFoundError path), w).
Proof. unfold read_text. intros ->. reflexivity. Qed.

(** What [open(path, 'w')] followed by [f.write(data)] leaves behind. *)
Lemma write_text_run (path : string) (data : text) (w : World) :
  write_text path data w =
  match budget w with
  | None =>
      (Ok tt, mkWorld (<[path := data]> (files w)) None (log w ++ [OpenW path]))
  | Some b =>
      if length data <=? b
      then (Ok tt, mkWorld (<[path := data]> (files w)) (Some (b - length data))
                           (log w ++ [OpenW path]))
      else (Raise (OSError path),
            mkWorld (<[path := take b data]> (files w)) (Some 0)
                    (log w ++ [OpenW path]))
  end.
Proof.
  unfold write_text, bind, open_w, f_write, emit. cbn [files budget log].
  rewrite lookup_insert_eq.
  destruct (budget w) as [b|]; [destruct (length data <=? b)|];
    simpl; rewrite insert_insert_eq; reflexivity.
Qed.

End Running.

(** ** [fix_logargs] and its loop *)

Section Logargs.
Import FixLogargs.

Lemma fix_logargs_run (p : string) (w : World) (c : text) :
  files w !! p = Some c ->
  fix_logargs p w =
  if changes c
  then match write_text p (substitutions c) (emit (OpenR p) w) with
       | (Ok _, w1) => (Ok true, emit (Printed (fixed_message p)) w1)
       | (Raise e, w1) => (Raise e, w1)
       end
  else (Ok false, emit (OpenR p) w).
Proof.
  intros H. unfold fix_logargs.
  rewrite (bind_ok _ _ _ _ _ (read_text_present p w c H)).
  unfold changes. destruct (bool_decide (substitutions c <> c)); [|reflexivity].
  unfold bind at 1.
  destruct (write_text p (substitutions c) (emit (OpenR p) w)) as [[[]|e] w1];
    reflexivity.
Qed.

Lemma fix_logargs_unchanged (p : string) (w : World) (c : text) :
  files w !! p = Some c -> substitutions c = c ->
  fix_logargs p w = (Ok false, emit (OpenR p) w).
Proof.
  intros H Hc. rewrite (fix_logargs_run p w c H). unfold changes.
  rewrite bool_decide_eq_false_2; [reflexivity|]. intros Hne. exact (Hne Hc).
Qed.

Lemma fix_logargs_changed (p : string) (w : World) (c : text) :
  files w !! p = Some c -> budget w = None -> substitutions c <> c ->
  fix_logargs p w =
  (Ok true, mkWorld (<[p := substitutions c]> (files w)) None
                    (log w ++ [OpenR p] ++ [OpenW p] ++ [Printed (fixed_message p)])).
Proof.
  intros H Hb Hc. rewrite (fix_logargs_run p w c H). unfold changes.
  rewrite bool_decide_eq_true_2 by exact Hc.
  rewrite write_text_run. unfold emit. cbn [files budget log]. rewrite Hb.
  cbn [files budget log]. rewrite <- !app_assoc. reflexivity.
Qed.

Lemma full_path_inj (p q : string) : full_path p = full_path q -> p = q.
Proof.
  unfold full_path. intros H.
  repeat (cbn [String.append String.app] in H; injection H as H). exact H.
Qed.

Lemma counted_ext (w w' : World) (paths : list string) :
  (forall fp, In fp paths -> files w' !! full_path fp = files w !! full_path fp) ->
  List.filter (counted w') paths = List.filter (counted w) paths.
Proof.
  intros H. apply List.filter_ext_in. intros fp Hfp. unfold counted.
  rewrite (H fp Hfp). reflexivity.
Qed.

Lemma substitutions_fixed (c : text) : changes c = false -> substitutions c = c.
Proof.
  unfold changes. intros H. apply bool_decide_eq_false in H.
  destruct (decide (substitutions c = c)) as [E|E]; [exact E|]. destruct (H E).
Qed.

Lemma events_ext (w w' : World) (paths : list string) :
  (forall fp, In fp paths -> files w' !! full_path fp = files w !! full_path fp) ->
  flat_map (events_for w') paths = flat_map (events_for w) paths.
Proof.
  induction paths as [|fp rest IH]; intros H; [reflexivity|].
  cbn [flat_map]. rewrite IH by (intros q Hq; apply H; right; exact Hq).
  unfold events_for. cbn zeta. rewrite (H fp) by (left; reflexivity). reflexivity.
Qed.

Lemma loop_run (paths : list string) :
  NoDup paths ->
  forall (w : World) (k : nat),
    budget w = None ->
    exists w',
      loop paths k w = (Ok (k + length (List.filter (counted w) paths)), w') /\
      budget w' = None /\
      log w' = log w ++ flat_map (events_for w) paths /\
      (forall fp, In fp paths ->
         files w' !! full_path fp = substitutions <$> (files w !! full_path fp)) /\
      (forall q, (forall fp, In fp paths -> q <> full_path fp) ->
         files w' !! q = files w !! q).
Proof.
  induction paths as [|fp rest IH]; intros Hnd w k Hb.
  - exists w. split; [|split; [|split; [|split]]]; simpl; try assumption.
    + unfold ret. rewrite Nat.add_0_r. reflexivity.
    + rewrite app_nil_r. reflexivity.
    + intros fp [].
    + reflexivity.
  - apply NoDup_cons in Hnd as [Hnotin Hnd]. rewrite list_elem_of_In in Hnotin.
    assert (Hfresh : forall q, In q rest -> full_path q <> full_path fp).
    { intros q Hq E. apply full_path_inj in E. subst q. exact (Hnotin Hq). }
    cbn [loop List.filter flat_map]. unfold bind at 1, path_exists.
    unfold counted at 1. unfold events_for at 1. cbn zeta.
    destruct (files w !! full_path fp) as [c|] eqn:Ec.
    + rewrite bool_decide_eq_true_2 by eauto.
      destruct (changes c) eqn:Ech.
      * assert (Hne : substitutions c <> c).
        { unfold changes in Ech. apply bool_decide_eq_true in Ech. exact Ech. }
        rewrite (bind_ok _ _ _ _ _ (fix_logargs_changed _ _ _ Ec Hb Hne)).
        set (w1 := mkWorld _ _ _).
        destruct (IH Hnd w1 (k + 1)) as (w' & Hrun & Hb' & Hlog & Hin & Hout);
          [reflexivity|].
        assert (Hsame : forall q, In q rest ->
                  files w1 !! full_path q = files w !! full_path q).
        { intros q Hq. unfold w1. cbn [files].
          apply lookup_insert_ne. intros E. exact (Hfresh q Hq (eq_sym E)). }
        exists w'. split; [|split; [|split; [|split]]].
        -- rewrite Hrun. rewrite (counted_ext w w1 rest Hsame).
           cbn [length]. f_equal. f_equal. lia.
        -- exact Hb'.
        -- rewrite Hlog, (events_ext w w1 rest Hsame). unfold w1. cbn [log].
           rewrite <- !app_assoc. reflexivity.
        -- intros q [<-|Hq].
           ++ rewrite Hout.
              ** unfold w1. cbn [files]. rewrite lookup_insert_eq, Ec. reflexivity.
              ** intros q Hq E. exact (Hfresh q Hq (eq_sym E)).
           ++ rewrite (Hin q Hq), (Hsame q Hq). reflexivity.
        -- intros q Hq. rewrite Hout.
           ++ unfold w1. cbn [files]. apply lookup_insert_ne.
              intros E. apply (Hq fp); [left; reflexivity|]. auto.
           ++ intros q' Hq'. apply Hq. right. exact Hq'.
      * pose proof (substitutions_fixed c Ech) as Hfix.
        rewrite (bind_ok _ _ _ _ _ (fix_logargs_unchanged _ _ _ Ec Hfix)).
        set (w1 := emit _ w).
        destruct (IH Hnd w1 k) as (w' & Hrun & Hb' & Hlog & Hin & Hout);
          [exact Hb|].
        assert (Hsame : forall q, In q rest ->
                  files w1 !! full_path q = files w !! full_path q).
        { intros q Hq. reflexivity. }
        exists w'. split; [|split; [|split; [|split]]].
        -- rewrite Hrun. reflexivity.
        -- exact Hb'.
        -- rewrite Hlog, (events_ext w w1 rest Hsame). unfold w1. cbn [emit log].
           rewrite <- !app_assoc. reflexivity.
        -- intros q [<-|Hq].
           ++ rewrite Hout.
              ** unfold w1. cbn [emit files]. rewrite Ec.
                 change (Some c = Some (substitutions c)). rewrite Hfix. reflexivity.
              ** intros q Hq E. exact (Hfresh q Hq (eq_sym E)).
           ++ rewrite (Hin q Hq). reflexivity.
        -- intros q Hq. rewrite Hout; [reflexivity|].
           intros q' Hq'. apply Hq. right. exact Hq'.
    + rewrite bool_decide_eq_false_2 by (intros [x Hx]; discriminate).
      destruct (IH Hnd w k Hb) as (w' & Hrun & Hb' & Hlog & Hin & Hout).
      exists w'. split; [|split; [|split; [|split]]].
      * exact Hrun.
      * exact Hb'.
      * exact Hlog.
      * intros q [<-|Hq].
        -- rewrite Hout, Ec; [reflexivity|].
           intros q Hq E. exact (Hfresh q Hq (eq_sym E)).
        -- exact (Hin q Hq).
      * intros q Hq. apply Hout. intros q' Hq'. apply Hq. right. exact Hq'.
Qed.

Lemma go_files_NoDup : NoDup go_files.
Proof. apply (bool_decide_unpack _). vm_compute. exact I. Qed.

End Logargs.

(** ** C7: no match, no change *)

(** C7: when the locator of a rule finds nothing in [c], applying the rule
    returns [c] itself; [fix_logargs], the one function that reports whether
    it applied, then returns [False] without raising and without opening the
    file for writing, so the run goes on. *)
Theorem C7_no_match_is_noop :
  (forall (r : Rule) (c : text), matches r c = false -> apply_rule r c = c) /\
  (forall (w : World) (p : string) (c : text),
      files w !! p = Some c ->
      Forall (fun r => matches r c = false) PatchSets.logargs ->
      FixLogargs.fix_logargs p w = (Ok false, emit (OpenR p) w)).
Proof.
  split.
  - exact apply_rule_absent.
  - intros w p c Hp Hall.
    apply fix_logargs_unchanged with (c := c); [exact Hp|].
    unfold PatchSets.logargs in Hall.
    apply Forall_cons in Hall as [H1 Hall].
    apply Forall_cons in Hall as [H2 _].
    change (search FixLogargs.pattern1 c = false) in H1.
    change (search FixLogargs.pattern2 c = false) in H2.
    unfold FixLogargs.substitutions, sub_template.
    rewrite (sub_absent _ _ _ H1). exact (sub_absent _ _ _ H2).
Qed.

Lemma C7_no_match_is_noop_witness :
  apply_rule (Replace (txt "pulumi.Map(dnsInfo)") (txt "pulumi.ToMap(dnsInfo)")) plain_go
  = plain_go /\
  FixLogargs.fix_logargs "checker.go" (mkWorld {[ "checker.go"%string := plain_go ]} None [])
  = (Ok false, emit (OpenR "checker.go")
                    (mkWorld {[ "checker.go"%string := plain_go ]} None [])).
Proof.
  split.
  - apply (proj1 C7_no_match_is_noop). vm_compute. reflexivity.
  - apply (proj2 C7_no_match_is_noop) with (c := plain_go).
    + vm_compute. reflexivity.
    + repeat constructor.
Defined.

(** ** The read, patch, write blocks *)

Section Blocks.

Lemma block_run {B} (path : string) (edit : text -> text) (k : Py B)
      (w : World) (c : text) :
  files w !! path = Some c ->
  bind (read_text path) (fun content => bind (write_text path (edit content)) (fun _ => k)) w =
  match budget w with
  | None => k (patched path (edit c) w)
  | Some b =>
      if length (edit c) <=? b
      then k (mkWorld (<[path := edit c]> (files w)) (Some (b - length (edit c)))
                      (log w ++ [OpenR path] ++ [OpenW path]))
      else (Raise (OSError path), torn path (edit c) b w)
  end.
Proof.
  intros H. rewrite (bind_ok _ _ _ _ _ (read_text_present path w c H)).
  unfold bind. rewrite write_text_run. unfold emit, patched, torn.
  cbn [files budget log].
  destruct (budget w) as [b|]; [destruct (length (edit c) <=? b)|];
    rewrite <- app_assoc; reflexivity.
Qed.

Lemma block_missing {B} (path : string) (k : text -> Py B) (w : World) :
  files w !! path = None ->
  bind (read_text path) k w = (Raise (FileNotFoundError path), w).
Proof. intros H. apply bind_raise, read_text_missing, H. Qed.

Lemma fix_checker_run (w : World) (c : text) :
  files w !! FixCompilation.checker_path = Some c ->
  FixCompilation.fix_checker w =
  bind (read_text FixCompilation.checker_path)
       (fun content =>
          bind (write_text FixCompilation.checker_path
                           (apply_rule PatchSets.checker_rule content))
               (fun _ => print (txt "Fixed checker.go"))) w.
Proof.
  intros H.
  unfold FixCompilation.fix_checker, read_lines, write_lines, write_text,
    PatchSets.checker_rule, bind, ret.
  rewrite (read_text_present _ w c H). reflexivity.
Qed.

Lemma orch_comp_paths : FixFinalErrors.orch_path <> FixFinalErrors.comp_path.
Proof. intros E. apply (bool_decide_pack _) in E. vm_compute in E. exact E. Qed.

End Blocks.

(** ** C8: a patch set is a left-to-right fold *)

(** C8: the rules of a patch set are applied left to right, each to the
    output of the ones before it: the edits of every script are the fold of
    its rules over the content read, and that fold is what the script writes
    back. *)
Theorem C8_patch_set_is_fold :
  (forall (rules : list Rule) (r : Rule) (c : text),
      apply_rules (rules ++ [r]) c = apply_rule r (apply_rules rules c)) /\
  (forall c, FixOrchestrator.edits c = apply_rules PatchSets.orchestrator c) /\
  (forall c, FixFinalErrors.orch_edits c = apply_rules PatchSets.final_orchestrator c) /\
  (forall c, FixFinalErrors.comp_edits c = apply_rules PatchSets.final_component c) /\
  (forall c, FixLogargs.substitutions c = apply_rules PatchSets.logargs c) /\
  (forall (w : World) (c : text),
      files w !! FixOrchestrator.path = Some c -> budget w = None ->
      FixOrchestrator.main w =
      (Ok tt, emit (Printed (txt "Fixed orchestrator.go"))
                   (patched FixOrchestrator.path
                            (apply_rules PatchSets.orchestrator c) w))) /\
  (forall (w : World) (c1 c2 : text),
      files w !! FixFinalErrors.orch_path = Some c1 ->
      files w !! FixFinalErrors.comp_path = Some c2 ->
      budget w = None ->
      exists w',
        FixFinalErrors.main w = (Ok tt, w') /\
        files w' =
        <[FixFinalErrors.comp_path := apply_rules PatchSets.final_component c2]>
          (<[FixFinalErrors.orch_path := apply_rules PatchSets.final_orchestrator c1]>
             (files w))).
Proof.
  split; [|split; [|split; [|split; [|split; [|split]]]]]; try reflexivity.
  - intros rules r c. unfold apply_rules. rewrite fold_left_app. reflexivity.
  - intros w c Hc Hb. unfold FixOrchestrator.main.
    rewrite (block_run _ FixOrchestrator.edits _ w c Hc), Hb. reflexivity.
  - intros w c1 c2 H1 H2 Hb. unfold FixFinalErrors.main.
    rewrite (block_run _ FixFinalErrors.orch_edits _ w c1 H1), Hb.
    unfold bind at 1, print at 1.
    set (w1 := emit _ _).
    assert (H2' : files w1 !! FixFinalErrors.comp_path = Some c2).
    { unfold w1, emit, patched. cbn [files].
      rewrite lookup_insert_ne by exact orch_comp_paths. exact H2. }
    rewrite (block_run _ FixFinalErrors.comp_edits _ w1 c2 H2').
    eexists. split; [reflexivity|]. reflexivity.
Qed.

Lemma C8_patch_set_is_fold_witness :
  fst (FixOrchestrator.main orchestrator_only) = Ok tt /\
  files (snd (FixOrchestrator.main orchestrator_only)) !! FixOrchestrator.path =
  Some (txt "x := o.config.Network.DNS.Zone").
Proof.
  pose proof (proj1 (proj2 (proj2 (proj2 (proj2 (proj2 C8_patch_set_is_fold)))))
                orchestrator_only (txt "x := o.config.DNS.Zone") eq_refl eq_refl) as H.
  rewrite H. split; [reflexivity|]. vm_compute. reflexivity.
Defined.

(** ** C3: when the target is written back *)

(** C3, as the specification words it, fails for [fix_checker]: the window
    rule leaves this content as it is, and the file is opened for writing all
    the same; on a full device that write empties it. *)
Lemma C3_fix_checker_writes_unchanged :
  let c := txt "x := 1" ++ [LF] in
  let w := mkWorld {[ FixCompilation.checker_path := c ]} (Some 0) [] in
  apply_rule PatchSets.checker_rule c = c /\
  In (OpenW FixCompilation.checker_path) (log (snd (FixCompilation.fix_checker w))) /\
  files (snd (FixCompilation.fix_checker w)) !! FixCompilation.checker_path = Some [].
Proof. cbv zeta. split; [|split]; vm_compute; auto. Qed.

(** C3 (amended): [fix_logargs] opens its file for writing only when its
    substitutions change the content read, and otherwise leaves the world as
    it was but for the read; [fix_checker] and the module-level scripts open
    the target for writing whenever they could read it, whether or not a rule
    changed the content. *)
Theorem C3_write_back_policy :
  (forall (w : World) (p : string) (c : text),
      files w !! p = Some c -> FixLogargs.substitutions c = c ->
      FixLogargs.fix_logargs p w = (Ok false, emit (OpenR p) w)) /\
  (forall (w : World) (p : string) (c : text),
      files w !! p = Some c -> FixLogargs.substitutions c <> c ->
      exists r w' evs,
        FixLogargs.fix_logargs p w = (r, w') /\
        log w' = log w ++ [OpenR p] ++ [OpenW p] ++ evs) /\
  (forall (w : World) (c : text),
      files w !! FixCompilation.checker_path = Some c ->
      exists r w' evs,
        FixCompilation.fix_checker w = (r, w') /\
        log w' = log w ++ [OpenR FixCompilation.checker_path]
                       ++ [OpenW FixCompilation.checker_path] ++ evs) /\
  (forall (w : World) (c : text),
      files w !! FixOrchestrator.path = Some c ->
      exists r w' evs,
        FixOrchestrator.main w = (r, w') /\
        log w' = log w ++ [OpenR FixOrchestrator.path]
                       ++ [OpenW FixOrchestrator.path] ++ evs).
Proof.
  split; [|split; [|split]].
  - intros w p c. apply fix_logargs_unchanged.
  - intros w p c Hp Hne. rewrite (fix_logargs_run p w c Hp). unfold changes.
    rewrite bool_decide_eq_true_2 by exact Hne.
    rewrite write_text_run. unfold emit. cbn [files budget log].
    destruct (budget w) as [b|];
      [destruct (length (FixLogargs.substitutions c) <=? b)|];
      eexists _, _, _; (split; [reflexivity|]); cbn [log];
      rewrite <- ?app_assoc; cbn [app]; reflexivity.
  - intros w c Hc. rewrite (fix_checker_run w c Hc).
    rewrite (block_run _ (apply_rule PatchSets.checker_rule) _ w c Hc).
    unfold print, emit, patched, torn.
    destruct (budget w) as [b|];
      [destruct (length (apply_rule PatchSets.checker_rule c) <=? b)|];
      eexists _, _, _; (split; [reflexivity|]); cbn [log];
      rewrite <- ?app_assoc; cbn [app]; reflexivity.
  - intros w c Hc. unfold FixOrchestrator.main.
    rewrite (block_run _ FixOrchestrator.edits _ w c Hc).
    unfold print, emit, patched, torn.
    destruct (budget w) as [b|];
      [destruct (length (FixOrchestrator.edits c) <=? b)|];
      eexists _, _, _; (split; [reflexivity|]); cbn [log];
      rewrite <- ?app_assoc; cbn [app]; reflexivity.
Qed.

Lemma C3_write_back_policy_witness :
  FixLogargs.fix_logargs "checker.go"
    (mkWorld {[ "checker.go"%string := plain_go ]} (Some 0) []) =
  (Ok false, emit (OpenR "checker.go")
                  (mkWorld {[ "checker.go"%string := plain_go ]} (Some 0) [])) /\
  exists r w' evs,
    FixCompilation.fix_checker
      (mkWorld {[ FixCompilation.checker_path := plain_go ]} None []) = (r, w') /\
    log w' = [] ++ [OpenR FixCompilation.checker_path]
                ++ [OpenW FixCompilation.checker_path] ++ evs.
Proof.
  split.
  - apply (proj1 C3_write_back_policy) with (c := plain_go).
    + vm_compute. reflexivity.
    + vm_compute. reflexivity.
  - apply (proj1 (proj2 (proj2 C3_write_back_policy))
             (mkWorld {[ FixCompilation.checker_path := plain_go ]} None []) plain_go).
    vm_compute. reflexivity.
Defined.

(** ** C4: a write that fails *)

(** C4, as the specification words it, fails: the device has room for four
    characters, the write of the patched content fails, and the target is
    left with those four characters, not with its original content. *)
Lemma C4_failed_write_loses_original :
  let c := txt "zone := o.config.DNS.Zone" in
  let w := mkWorld {[ FixOrchestrator.path := c ]} (Some 4) [] in
  fst (FixOrchestrator.main w) = Raise (OSError FixOrchestrator.path) /\
  files (snd (FixOrchestrator.main w)) !! FixOrchestrator.path = Some (txt "zone") /\
  files (snd (FixOrchestrator.main w)) !! FixOrchestrator.path <> Some c.
Proof. cbv zeta. split; [|split]; vm_compute; [reflexivity|reflexivity|discriminate]. Qed.

(** C4 (amended): the scripts write in place: the target itself is opened for
    writing, which truncates it, and the patched content is written to it; no
    other path is touched.  When [f.write] fails after that open has
    truncated the target (the device is full), the target holds the part of
    the patched content that was written before the failure, not its
    original content; when the write succeeds it holds the patched content.
    A target that cannot be opened for writing is not part of this
    statement. *)
Theorem C4_write_in_place :
  (forall (w : World) (c : text),
      files w !! FixOrchestrator.path = Some c ->
      let data := FixOrchestrator.edits c in
      exists r w',
        FixOrchestrator.main w = (r, w') /\
        (forall q, q <> FixOrchestrator.path -> files w' !! q = files w !! q) /\
        match budget w with
        | None => r = Ok tt /\ files w' !! FixOrchestrator.path = Some data
        | Some b =>
            if length data <=? b
            then r = Ok tt /\ files w' !! FixOrchestrator.path = Some data
            else r = Raise (OSError FixOrchestrator.path) /\
                 files w' !! FixOrchestrator.path = Some (take b data) /\
                 log w' = log w ++ [OpenR FixOrchestrator.path]
                                ++ [OpenW FixOrchestrator.path]
        end) /\
  (forall (w : World) (c : text) (b : nat),
      files w !! FixFinalErrors.orch_path = Some c ->
      budget w = Some b -> b < length (FixFinalErrors.orch_edits c) ->
      FixFinalErrors.main w =
      (Raise (OSError FixFinalErrors.orch_path),
       torn FixFinalErrors.orch_path (FixFinalErrors.orch_edits c) b w)).
Proof.
  split.
  - intros w c Hc data. unfold FixOrchestrator.main.
    rewrite (block_run _ FixOrchestrator.edits _ w c Hc). fold data.
    unfold print, emit, patched, torn.
    destruct (budget w) as [b|]; [destruct (length data <=? b)|];
      eexists _, _; (split; [reflexivity|]); cbn [files log];
      (split; [intros q Hq; apply lookup_insert_ne; congruence|]);
      repeat split; apply lookup_insert_eq.
  - intros w c b Hc Hb Hlt. unfold FixFinalErrors.main.
    rewrite (block_run _ FixFinalErrors.orch_edits _ w c Hc), Hb.
    destruct (Nat.leb_spec (length (FixFinalErrors.orch_edits c)) b) as [Hle|_];
      [lia|reflexivity].
Qed.

Lemma C4_write_in_place_witness :
  (exists r w',
      FixOrchestrator.main orchestrator_only = (r, w') /\
      (forall q, q <> FixOrchestrator.path ->
         files w' !! q = files orchestrator_only !! q) /\
      r = Ok tt /\
      files w' !! FixOrchestrator.path =
      Some (FixOrchestrator.edits (txt "x := o.config.DNS.Zone"))) /\
  FixFinalErrors.main (mkWorld {[ FixFinalErrors.orch_path := txt "lbs := o.config.LoadBalancers" ]}
                               (Some 2) []) =
  (Raise (OSError FixFinalErrors.orch_path),
   torn FixFinalErrors.orch_path
        (FixFinalErrors.orch_edits (txt "lbs := o.config.LoadBalancers")) 2
        (mkWorld {[ FixFinalErrors.orch_path := txt "lbs := o.config.LoadBalancers" ]}
                 (Some 2) [])).
Proof.
  split.
  - exact (proj1 C4_write_in_place orchestrator_only (txt "x := o.config.DNS.Zone") eq_refl).
  - apply (proj2 C4_write_in_place).
    + vm_compute. reflexivity.
    + reflexivity.
    + vm_compute. lia.
Defined.

(** ** C5: a file that cannot be read *)

(** C5, as the specification words it, fails: [checker.go] is missing, the
    run of [fix_compilation.py] stops there with the exception, nothing is
    logged, and [rke.go], the next file, is not patched. *)
Lemma C5_missing_file_stops_run :
  let c := txt "m := pulumi.Map(nodeInfo)" in
  let w := mkWorld {[ FixCompilation.rke_path := c ]} None [] in
  FixCompilation.main w = (Raise (FileNotFoundError FixCompilation.checker_path), w) /\
  FixCompilation.rke_edits c <> c.
Proof. cbv zeta. split; vm_compute; [reflexivity|discriminate]. Qed.

(** C5 (amended): nothing in the scripts handles a failed read.  In
    [fix_compilation.py] and [fix_orchestrator.py] a target that is missing
    raises [FileNotFoundError] and ends the run there: the world stays as the
    earlier steps left it and the files that come later are not patched.  The
    loop of [fix_logargs.py] tests [os.path.exists] first, so a listed path
    that is missing is passed over, without a record, and the loop goes on
    with the paths that remain. *)
Theorem C5_read_failure :
  (forall w : World,
      files w !! FixCompilation.checker_path = None ->
      FixCompilation.main w =
      (Raise (FileNotFoundError FixCompilation.checker_path), w)) /\
  (forall (w : World) (c : text),
      files w !! FixCompilation.checker_path = Some c ->
      files w !! FixCompilation.rke_path = None ->
      budget w = None ->
      FixCompilation.main w =
      (Raise (FileNotFoundError FixCompilation.rke_path),
       emit (Printed (txt "Fixed checker.go"))
            (patched FixCompilation.checker_path
                     (apply_rule PatchSets.checker_rule c) w))) /\
  (forall w : World,
      files w !! FixOrchestrator.path = None ->
      FixOrchestrator.main w = (Raise (FileNotFoundError FixOrchestrator.path), w)) /\
  (forall (w : World) (fp : string) (rest : list string) (k : nat),
      files w !! FixLogargs.full_path fp = None ->
      FixLogargs.loop (fp :: rest) k w = FixLogargs.loop rest k w).
Proof.
  split; [|split; [|split]].
  - intros w H. unfold FixCompilation.main.
    apply bind_raise. unfold FixCompilation.fix_checker, read_lines.
    apply bind_raise, bind_raise, read_text_missing, H.
  - intros w c Hc Hrke Hb. unfold FixCompilation.main.
    assert (Hchk : FixCompilation.fix_checker w =
                   (Ok tt, emit (Printed (txt "Fixed checker.go"))
                                (patched FixCompilation.checker_path
                                         (apply_rule PatchSets.checker_rule c) w))).
    { rewrite (fix_checker_run w c Hc).
      rewrite (block_run _ (apply_rule PatchSets.checker_rule) _ w c Hc), Hb.
      reflexivity. }
    rewrite (bind_ok _ _ _ _ _ Hchk).
    apply bind_raise. unfold FixCompilation.fix_pulumi_map_conversions.
    apply block_missing. unfold emit, patched. cbn [files].
    rewrite lookup_insert_ne; [exact Hrke|].
    intros E. apply (bool_decide_pack _) in E. vm_compute in E. exact E.
  - intros w H. unfold FixOrchestrator.main. apply block_missing, H.
  - intros w fp rest k H. cbn [FixLogargs.loop]. unfold bind at 1, path_exists.
    rewrite H. rewrite bool_decide_eq_false_2 by (intros [x Hx]; discriminate).
    reflexivity.
Qed.

Lemma C5_read_failure_witness :
  FixOrchestrator.main (mkWorld ∅ None []) =
  (Raise (FileNotFoundError FixOrchestrator.path), mkWorld ∅ None []) /\
  FixLogargs.loop ["pkg/network/manager.go"%string; "pkg/health/checker.go"%string] 0
                  two_files =
  FixLogargs.loop ["pkg/health/checker.go"%string] 0 two_files.
Proof.
  split.
  - apply (proj1 (proj2 (proj2 C5_read_failure))). vm_compute. reflexivity.
  - apply (proj2 (proj2 (proj2 C5_read_failure))). vm_compute. reflexivity.
Defined.

(** ** C10: a closing parenthesis inside the [Sprintf] arguments *)

Example logargs_plain_call_rewritten :
  FixLogargs.substitutions (logargs_call (txt "p") plain_args) =
  txt "p.Log.Info(" ++ [DQ] ++ txt "x" ++ [DQ] ++ txt ", nil)".
Proof. vm_compute. reflexivity. Qed.

Example logargs_ctx_nested_call_rewritten :
  FixLogargs.substitutions (logargs_call (txt "ctx") nested_args) =
  txt "ctx.Log.Info(" ++ [DQ] ++ txt "x" ++ [DQ] ++ txt ", nil)".
Proof. vm_compute. reflexivity. Qed.

(** C10: there is content with a [&pulumi.LogArgs{Message: pulumi.Sprintf(...)}]
    whose [Sprintf] arguments hold a closing parenthesis (a nested call) that
    the LogArgs rewrites of [fix_logargs.py], [fix_orchestrator.py] and
    [fix_final_errors.py] all leave exactly as it is. *)
Theorem C10_nested_call_untouched :
  exists args c : text,
    str_in (txt ")") args = true /\
    str_in (txt "&pulumi.LogArgs{Message: pulumi.Sprintf(" ++ args ++ txt ")}") c = true /\
    FixLogargs.substitutions c = c /\
    sub_template FixOrchestrator.logargs_pattern [TLit (txt "nil")] c = c /\
    sub_template FixFinalErrors.logargs_pattern [TLit (txt "nil")] c = c.
Proof.
  exists nested_args, (logargs_call (txt "p") nested_args).
  repeat split; vm_compute; reflexivity.
Qed.

(** ** C1: applying a rule again *)

Section Reapply.
Import FixCompilation.

Lemma eqb_LF_false (c : ascii) : c <> LF -> Ascii.eqb c LF = false.
Proof. intros H. apply Ascii.eqb_neq. exact H. Qed.

Lemma readlines_wf (s : text) : wf_lines (readlines s).
Proof.
  induction s as [|c s IH]; simpl; [constructor|].
  destruct (Ascii.eqb c LF) eqn:E.
  - apply Ascii.eqb_eq in E. subst c. apply (wf_cons [] _); [intros []|exact IH].
  - apply Ascii.eqb_neq in E.
    destruct (readlines s) as [|l ls]; [apply wf_last; [discriminate|]|].
    + intros [H|[]]. congruence.
    + inversion IH as [|body Hne Hnl|body rest Hnl Hrest]; subst.
      * apply wf_last; [discriminate|]. intros [H|H]; [congruence|exact (Hnl H)].
      * apply (wf_cons (c :: body)); [|exact Hrest].
        intros [H|H]; [congruence|exact (Hnl H)].
Qed.

Lemma readlines_one_line (body : text) :
  body <> [] -> ~ In LF body -> readlines body = [body].
Proof.
  induction body as [|c body IH]; intros Hne Hnl; [congruence|].
  simpl. rewrite eqb_LF_false by (intros ->; apply Hnl; left; reflexivity).
  destruct body as [|d body]; [reflexivity|].
  rewrite IH; [reflexivity|discriminate|].
  intros H. apply Hnl. right. exact H.
Qed.

Lemma readlines_line_app (body s : text) :
  ~ In LF body -> readlines ((body ++ [LF]) ++ s) = (body ++ [LF]) :: readlines s.
Proof.
  induction body as [|c body IH]; intros Hnl.
  - simpl. reflexivity.
  - cbn [app readlines].
    rewrite eqb_LF_false by (intros ->; apply Hnl; left; reflexivity).
    rewrite IH by (intros H; apply Hnl; right; exact H). reflexivity.
Qed.

Lemma readlines_concat (ls : list text) :
  wf_lines ls -> readlines (concat ls) = ls.
Proof.
  induction 1 as [|body Hne Hnl|body rest Hnl Hrest IH].
  - reflexivity.
  - simpl. rewrite app_nil_r. apply readlines_one_line; assumption.
  - cbn [concat]. rewrite readlines_line_app by exact Hnl. rewrite IH. reflexivity.
Qed.

Lemma wf_lines_prefix (p : text) (ls : list text) (i : nat) (l : text) :
  ~ In LF p -> wf_lines ls -> ls !! i = Some l -> wf_lines (<[i := p ++ l]> ls).
Proof.
  intros Hp Hwf. revert i.
  induction Hwf as [|body Hne Hnl|body rest Hnl Hrest IH]; intros i Hl.
  - discriminate.
  - destruct i as [|i]; [|discriminate]. injection Hl as <-. simpl.
    apply wf_last.
    + destruct p; [exact Hne|discriminate].
    + intros H. apply in_app_or in H as [H|H]; [exact (Hp H)|exact (Hnl H)].
  - destruct i as [|i].
    + injection Hl as <-. simpl. rewrite app_assoc. apply wf_cons; [|exact Hrest].
      intros H. apply in_app_or in H as [H|H]; [exact (Hp H)|exact (Hnl H)].
    + simpl. apply wf_cons; [exact Hnl|]. apply IH. exact Hl.
Qed.

(** The index the loop of [fix_checker] stops at is the first one in the
    window whose line contains the needle. *)
Lemma comment_window_at (start stop : nat) (needle : text) (lines : list text)
      (i : nat) (l : text) :
  start <= i < stop -> lines !! i = Some l -> str_in needle l = true ->
  window_clear needle lines start i ->
  comment_window start stop needle lines = <[i := txt "//" ++ l]> lines.
Proof.
  intros Hi Hl Hin Hclear.
  destruct (comment_window_cases needle lines start stop)
    as [(i' & l' & Hi' & Hl' & Hin' & Hclear' & Heq)|[Hall _]].
  - destruct (lt_eq_lt_dec i i') as [[Hlt|Heq']|Hgt].
    + rewrite (Hclear' i l) in Hin; [discriminate|lia|exact Hl].
    + subst i'. rewrite Hl in Hl'. injection Hl' as <-. exact Heq.
    + rewrite (Hclear i' l') in Hin'; [discriminate|lia|exact Hl'].
  - rewrite (Hall i l) in Hin; [discriminate|lia|exact Hl].
Qed.

Lemma matches_window (start stop : nat) (needle c : text) :
  matches (CommentLine start stop needle) c = true ->
  exists i l, start <= i < stop /\ readlines c !! i = Some l /\
              str_in needle l = true /\ window_clear needle (readlines c) start i.
Proof.
  intros H.
  destruct (comment_window_cases needle (readlines c) start stop)
    as [(i & l & Hi & Hl & Hin & Hclear & _)|[Hall _]].
  - exists i, l. auto.
  - exfalso. simpl in H. apply existsb_exists in H as (i & Hi & Hm).
    unfold py_range in Hi. apply in_seq in Hi.
    destruct (readlines c !! i) as [l|] eqn:El; [|discriminate].
    rewrite (Hall i l) in Hm; [discriminate|lia|exact El].
Qed.

Lemma comment_twice (start stop : nat) (needle c : text) (i : nat) (l : text) :
  start <= i < stop -> readlines c !! i = Some l -> str_in needle l = true ->
  window_clear needle (readlines c) start i ->
  apply_rule (CommentLine start stop needle) c =
    writelines (<[i := txt "//" ++ l]> (readlines c)) /\
  apply_rule (CommentLine start stop needle)
             (apply_rule (CommentLine start stop needle) c) =
    writelines (<[i := txt "//" ++ txt "//" ++ l]> (readlines c)).
Proof.
  intros Hi Hl Hin Hclear.
  assert (H1 : apply_rule (CommentLine start stop needle) c =
               writelines (<[i := txt "//" ++ l]> (readlines c))).
  { cbn [apply_rule]. rewrite (comment_window_at _ _ _ _ i l); auto. }
  split; [exact H1|]. rewrite H1. cbn [apply_rule]. unfold writelines at 2.
  rewrite readlines_concat.
  - rewrite (comment_window_at _ _ _ _ i (txt "//" ++ l)).
    + rewrite list_insert_insert_eq. reflexivity.
    + exact Hi.
    + apply list_lookup_insert_eq. apply lookup_lt_Some in Hl. exact Hl.
    + apply str_in_prepend. exact Hin.
    + intros j l' Hj Hl'. rewrite list_lookup_insert_ne in Hl' by lia.
      exact (Hclear j l' Hj Hl').
  - apply wf_lines_prefix; [|apply readlines_wf|exact Hl].
    vm_compute. intros [H|[H|[]]]; discriminate.
Qed.

End Reapply.

(** C1, as the specification words it, fails: the window rule of
    [fix_checker] comments the line it has already commented, and the first
    replacement of Fix 2 of [fix_orchestrator.py] finds its search text inside
    its own replacement. *)
Lemma C1_rules_not_idempotent :
  apply_rule PatchSets.checker_rule checker_go =
    List.repeat LF 370 ++ txt "//totalCount := 0" ++ [LF] /\
  apply_rule PatchSets.checker_rule (apply_rule PatchSets.checker_rule checker_go) =
    List.repeat LF 370 ++ txt "////totalCount := 0" ++ [LF] /\
  apply_rule PatchSets.checker_rule (apply_rule PatchSets.checker_rule checker_go) <>
    apply_rule PatchSets.checker_rule checker_go /\
  let fix2 := Replace FixOrchestrator.firewall_if FixOrchestrator.firewall_if_commented in
  apply_rule fix2 (apply_rule fix2 FixOrchestrator.firewall_if) <>
    apply_rule fix2 FixOrchestrator.firewall_if.
Proof.
  split; [|split; [|split]]; vm_compute; try reflexivity; discriminate.
Qed.

(** * Further properties of the scripts *)

(** ** Replacing again: when a literal replacement is idempotent *)

Section Overlap.

Lemma startswith_app_long (p a Y : text) :
  startswith p (a ++ Y) = true -> length a <= length p ->
  startswith (drop (length a) p) Y = true /\ startswith a p = true.
Proof.
  revert p. induction a as [|c a IH]; intros p H Hlen.
  - simpl in *. rewrite drop_0. split; [exact H|reflexivity].
  - destruct p as [|d p]; [simpl in Hlen; lia|].
    simpl in H. apply andb_true_iff in H as [Hc H].
    apply Ascii.eqb_eq in Hc. subst d.
    destruct (IH p H) as [H1 H2]; [simpl in Hlen; lia|].
    split; [exact H1|]. simpl. rewrite Ascii.eqb_refl. exact H2.
Qed.

Lemma startswith_app_short (p a Y : text) :
  startswith p (a ++ Y) = true -> length p <= length a -> startswith p a = true.
Proof.
  revert a. induction p as [|d p IH]; intros a H Hlen; [reflexivity|].
  destruct a as [|c a]; [simpl in Hlen; lia|].
  simpl in *. apply andb_true_iff in H as [Hc H]. rewrite Hc. simpl.
  apply IH; [exact H|lia].
Qed.

Lemma startswith_weaken (p a Z : text) :
  startswith p a = true -> startswith p (a ++ Z) = true.
Proof.
  revert a. induction p as [|d p IH]; intros a H; [reflexivity|].
  destruct a as [|c a]; [discriminate|].
  simpl in *. apply andb_true_iff in H as [Hc H]. rewrite Hc. simpl. auto.
Qed.

Lemma startswith_compat (a b X : text) :
  startswith a (b ++ X) = true -> compat a b = true.
Proof.
  intros H. unfold compat. destruct (le_lt_dec (length b) (length a)) as [Hle|Hlt].
  - destruct (startswith_app_long a b X H Hle) as [_ H2]. rewrite H2. apply orb_true_r.
  - rewrite (startswith_app_short a b X H) by lia. reflexivity.
Qed.

Lemma str_in_false_at (x s : text) (j : nat) :
  str_in x s = false -> startswith x (drop j s) = false.
Proof.
  revert j. induction s as [|c s IH]; intros j H.
  - rewrite drop_nil. exact (str_in_false_head x [] H).
  - destruct j as [|j]; [exact (str_in_false_head x _ H)|].
    simpl. apply IH. exact (str_in_false_tail x c s H).
Qed.

Lemma str_in_false_all (x s : text) :
  (forall j, startswith x (drop j s) = false) -> str_in x s = false.
Proof.
  induction s as [|c s IH]; intros H.
  - pose proof (H 0) as H0. rewrite drop_0 in H0. simpl. rewrite H0. reflexivity.
  - pose proof (H 0) as H0. rewrite drop_0 in H0.
    cbn [str_in]. rewrite H0. simpl.
    apply IH. intros j. exact (H (S j)).
Qed.

Lemma str_in_false_drop (x s : text) (n : nat) :
  str_in x s = false -> str_in x (drop n s) = false.
Proof.
  intros H. apply str_in_false_all. intros j. rewrite drop_drop.
  apply str_in_false_at. exact H.
Qed.

Variables x new : text.
Hypothesis Hfree : cross_free x new = true.

Lemma cross_free_parts :
  str_in x new = false /\
  (forall k, 1 <= k < length x -> compat (drop k x) new = false) /\
  (forall j, j < length new -> startswith (drop j new) x = false).
Proof.
  unfold cross_free in Hfree.
  apply andb_true_iff in Hfree as [H12 H3]. apply andb_true_iff in H12 as [H1 H2].
  split; [apply negb_true_iff; exact H1|]. split.
  - intros k Hk. rewrite forallb_forall in H2.
    apply negb_true_iff, H2, in_seq. lia.
  - intros j Hj. rewrite forallb_forall in H3.
    apply negb_true_iff, H3, in_seq. lia.
Qed.

Lemma cross_free_nonempty : x <> [].
Proof.
  destruct cross_free_parts as [H1 _]. intros ->. destruct new; discriminate.
Qed.

(** No occurrence of [x] starts inside a copy of [new]. *)
Lemma no_start_in_new (Z : text) (j : nat) :
  j < length new -> startswith x (drop j new ++ Z) = false.
Proof.
  intros Hj. destruct cross_free_parts as (H1 & _ & H3).
  destruct (startswith x (drop j new ++ Z)) eqn:E; [|reflexivity].
  destruct (le_lt_dec (length (drop j new)) (length x)) as [Hle|Hlt].
  - destruct (startswith_app_long _ _ _ E Hle) as [_ H]. rewrite (H3 j Hj) in H. discriminate.
  - apply startswith_app_short in E; [|lia].
    rewrite (str_in_false_at x new j H1) in E. discriminate.
Qed.

(** No occurrence of [x] that starts less than [length x] characters before a
    copy of [new] runs into it. *)
Lemma no_straddle (a Z : text) :
  1 <= length a < length x -> startswith x (a ++ new ++ Z) = false.
Proof.
  intros Ha. destruct cross_free_parts as (_ & H2 & _).
  destruct (startswith x (a ++ new ++ Z)) eqn:E; [|reflexivity].
  destruct (startswith_app_long _ _ _ E) as [H _]; [lia|].
  apply startswith_compat in H. rewrite (H2 (length a) Ha) in H. discriminate.
Qed.

Lemma replace_keeps_clear (old : text) (n : nat) :
  old <> [] ->
  forall s u,
    length s <= n ->
    x = old \/ str_in x s = false ->
    clear_before x u s ->
    clear_before x u (str_replace old new s) /\
    str_in x (str_replace old new s) = false.
Proof.
  intros Hold. induction n as [|n IH]; intros s u Hn Hx Hclear.
  - destruct s; [|simpl in Hn; lia].
    rewrite str_replace_unfold by exact Hold.
    assert (Hs : startswith old [] = false) by (destruct old; [congruence|reflexivity]).
    rewrite Hs. split; [exact Hclear|].
    destruct Hx as [->|Hx]; [simpl; rewrite Hs; reflexivity|exact Hx].
  - rewrite str_replace_unfold by exact Hold.
    destruct (startswith old s) eqn:E.
    + assert (Hlen : length (drop (length old) s) <= n).
      { rewrite length_drop. apply startswith_length in E.
        destruct old; [congruence|]. simpl in *. lia. }
      destruct (IH (drop (length old) s) new Hlen) as [Hc2 Hin2].
      { destruct Hx as [Hx|Hx]; [left; exact Hx|right; apply str_in_false_drop, Hx]. }
      { intros j Hj. rewrite drop_app_le by lia. apply no_start_in_new. exact Hj. }
      split.
      * intros j Hj. rewrite drop_app_le by lia.
        destruct (le_lt_dec (length x) (length (drop j u))) as [Hle|Hlt].
        -- destruct (startswith x (drop j u ++ new ++ _)) eqn:E2; [|reflexivity].
           apply startswith_app_short in E2; [|exact Hle].
           pose proof (Hclear j Hj) as Hc. rewrite drop_app_le in Hc by lia.
           rewrite (startswith_weaken _ _ s E2) in Hc. discriminate.
        -- apply no_straddle. rewrite length_drop in *. lia.
      * apply str_in_false_all. intros j.
        destruct (le_lt_dec (length new) j) as [Hle|Hlt].
        -- rewrite drop_app_ge by exact Hle. apply str_in_false_at. exact Hin2.
        -- apply Hc2. exact Hlt.
    + destruct s as [|c s].
      * split; [exact Hclear|].
        destruct Hx as [->|Hx]; [simpl; rewrite E; reflexivity|exact Hx].
      * assert (Hhead : startswith x (c :: s) = false).
        { destruct Hx as [->|Hx]; [exact E|exact (str_in_false_head _ _ Hx)]. }
        destruct (IH s (u ++ [c])) as [Hc2 Hin2].
        { simpl in Hn. lia. }
        { destruct Hx as [Hx|Hx]; [left; exact Hx|right; exact (str_in_false_tail _ _ _ Hx)]. }
        { intros j Hj. rewrite <- app_assoc. cbn [app].
          rewrite length_app in Hj. simpl in Hj.
          destruct (decide (j = length u)) as [->|Hne].
          - rewrite drop_app_length. exact Hhead.
          - apply Hclear. lia. }
        split.
        -- intros j Hj. specialize (Hc2 j). rewrite <- app_assoc in Hc2. cbn [app] in Hc2.
           apply Hc2. rewrite length_app. simpl. lia.
        -- simpl. rewrite Hin2, orb_false_r.
           specialize (Hc2 (length u)). rewrite <- app_assoc in Hc2. cbn [app] in Hc2.
           rewrite drop_app_length in Hc2. apply Hc2. rewrite length_app. simpl. lia.
Qed.

End Overlap.

Lemma replace_absent_after (old new s : text) :
  cross_free old new = true -> str_in old (str_replace old new s) = false.
Proof.
  intros H.
  apply (replace_keeps_clear old new H old (length s) (cross_free_nonempty old new H) s []).
  - lia.
  - left. reflexivity.
  - intros j Hj. simpl in Hj. lia.
Qed.

Lemma replace_idempotent (old new c : text) :
  cross_free old new = true ->
  str_replace old new (str_replace old new c) = str_replace old new c.
Proof.
  intros H. apply str_replace_absent. apply replace_absent_after. exact H.
Qed.

Lemma replace_preserves_absence (x old new c : text) :
  cross_free x new = true -> old <> [] ->
  str_in x c = false -> str_in x (str_replace old new c) = false.
Proof.
  intros H Hold Hc.
  apply (replace_keeps_clear x new H old (length c) Hold c []).
  - lia.
  - right. exact Hc.
  - intros j Hj. simpl in Hj. lia.
Qed.

(** X1: a literal replacement whose search text cannot touch a copy of its
    replacement ([cross_free]) leaves no occurrence of the search text
    behind, whatever the content, so that replacing again changes nothing. *)
Theorem X1_replace_idempotent (old new : text) :
  cross_free old new = true ->
  forall c,
    str_in old (apply_rule (Replace old new) c) = false /\
    apply_rule (Replace old new) (apply_rule (Replace old new) c) =
    apply_rule (Replace old new) c.
Proof.
  intros H c. cbn [apply_rule]. split.
  - apply replace_absent_after. exact H.
  - apply replace_idempotent. exact H.
Qed.

Lemma X1_replace_idempotent_witness :
  let dns := Replace (txt "o.config.DNS.") (txt "o.config.Network.DNS.") in
  let c := txt "a := o.config.DNS.Zone; b := o.config.DNS.TTL" in
  str_in (txt "o.config.DNS.") (apply_rule dns c) = false /\
  apply_rule dns (apply_rule dns c) = apply_rule dns c.
Proof.
  cbv zeta. apply X1_replace_idempotent. vm_compute. reflexivity.
Defined.

(** X2: a literal replacement does not bring in a text [x] that the
    content did not hold, provided [x] cannot touch a copy of the
    replacement text. *)
Theorem X2_replace_preserves_absence (x old new c : text) :
  cross_free x new = true -> old <> [] ->
  str_in x c = false ->
  str_in x (apply_rule (Replace old new) c) = false.
Proof. cbn [apply_rule]. apply replace_preserves_absence. Qed.

Lemma X2_replace_preserves_absence_witness :
  str_in (txt "pulumi.Map(dnsInfo)")
    (apply_rule (Replace (txt "initialIP == nil")
                         (txt "initialIP == " ++ FixCompilation.empty_string_output))
                (txt "if initialIP == nil {")) = false.
Proof.
  apply X2_replace_preserves_absence.
  - vm_compute. reflexivity.
  - discriminate.
  - vm_compute. reflexivity.
Defined.

(** Two literal replacements in a row: idempotent when each search text is
    free of its own replacement and the first is free of the second
    replacement. *)
Lemma two_replacements_idempotent (old1 new1 old2 new2 : text) :
  cross_free old1 new1 = true -> cross_free old2 new2 = true ->
  cross_free old1 new2 = true ->
  forall c,
    let edit := fun c => str_replace old2 new2 (str_replace old1 new1 c) in
    edit (edit c) = edit c.
Proof.
  intros H1 H2 H12 c edit. unfold edit.
  assert (Hold2 : old2 <> []) by exact (cross_free_nonempty old2 new2 H2).
  rewrite (str_replace_absent old1 new1 (str_replace old2 new2 _)).
  - apply replace_idempotent. exact H2.
  - apply (replace_preserves_absence old1 old2 new2 _ H12 Hold2).
    apply replace_absent_after. exact H1.
Qed.

Lemma edits_idempotent (c : text) :
  FixCompilation.rke_edits (FixCompilation.rke_edits c) = FixCompilation.rke_edits c /\
  FixCompilation.dns_edits (FixCompilation.dns_edits c) = FixCompilation.dns_edits c /\
  FixCompilation.wg_edits (FixCompilation.wg_edits c) = FixCompilation.wg_edits c /\
  FixCompilation.ssh_edits (FixCompilation.ssh_edits c) = FixCompilation.ssh_edits c /\
  FixFinalErrors.comp_edits (FixFinalErrors.comp_edits c) = FixFinalErrors.comp_edits c.
Proof.
  split; [|split; [|split; [|split]]].
  - apply replace_idempotent. vm_compute. reflexivity.
  - apply two_replacements_idempotent; vm_compute; reflexivity.
  - apply replace_idempotent. vm_compute. reflexivity.
  - apply two_replacements_idempotent; vm_compute; reflexivity.
  - apply two_replacements_idempotent; vm_compute; reflexivity.
Qed.

(** X3: the edits [fix_pulumi_map_conversions] makes to its four files, and
    those [fix_final_errors.py] makes to [orchestrator_component.go], are
    idempotent: on content that has been through them they change nothing. *)
Theorem X3_literal_edits_idempotent (c : text) :
  FixCompilation.rke_edits (FixCompilation.rke_edits c) = FixCompilation.rke_edits c /\
  FixCompilation.dns_edits (FixCompilation.dns_edits c) = FixCompilation.dns_edits c /\
  FixCompilation.wg_edits (FixCompilation.wg_edits c) = FixCompilation.wg_edits c /\
  FixCompilation.ssh_edits (FixCompilation.ssh_edits c) = FixCompilation.ssh_edits c /\
  FixFinalErrors.comp_edits (FixFinalErrors.comp_edits c) = FixFinalErrors.comp_edits c.
Proof. exact (edits_idempotent c). Qed.

(** ** A pattern of literal characters *)

Lemma sub_literal_bounded (old new : text) (n : nat) :
  old <> [] ->
  forall s, length s <= n ->
            sub_template (Str old) [TLit new] s = str_replace old new s.
Proof.
  intros Hold. induction n as [|n IH]; intros s Hn.
  - destruct s; [|simpl in Hn; lia].
    unfold sub_template. rewrite sub_unfold, str_replace_unfold by exact Hold.
    unfold match_at. cbn [rmatch].
    destruct (startswith old []) eqn:E; [|reflexivity].
    destruct old; [congruence|discriminate].
  - unfold sub_template in *. rewrite sub_unfold, str_replace_unfold by exact Hold.
    unfold match_at. cbn [rmatch].
    destruct (startswith old s) eqn:E.
    + assert (Hlt : length (drop (length old) s) < length s).
      { rewrite length_drop. apply startswith_length in E.
        destruct old; [congruence|]. simpl in *. lia. }
      apply Nat.ltb_lt in Hlt as Hb. rewrite Hb.
      unfold expand at 1. cbn [flat_map]. rewrite app_nil_r. f_equal.
      apply IH. lia.
    + destruct s as [|c s]; [reflexivity|]. f_equal. apply IH. simpl in Hn. lia.
Qed.

(** X4: [re.sub] with a pattern that is one run of literal characters and a
    replacement without back-references does what [str.replace] does with
    the same two texts: Fix 3 of [fix_orchestrator.py] is a literal
    replacement.  *)
Theorem X4_literal_pattern_is_replace (old new c : text) :
  old <> [] ->
  apply_rule (ReSub (Str old) [TLit new]) c = apply_rule (Replace old new) c.
Proof.
  intros Hold. cbn [apply_rule]. apply (sub_literal_bounded old new (length c) Hold). lia.
Qed.

Lemma X4_literal_pattern_is_replace_witness :
  apply_rule (ReSub (Str FixOrchestrator.node_loop) [TLit FixOrchestrator.node_loop_fixed])
             (txt "for _, nodeConfig := range o.config.Nodes {") =
  apply_rule (Replace FixOrchestrator.node_loop FixOrchestrator.node_loop_fixed)
             (txt "for _, nodeConfig := range o.config.Nodes {").
Proof. apply X4_literal_pattern_is_replace. discriminate. Defined.

Lemma literal_pattern_idempotent (old new c : text) :
  cross_free old new = true ->
  sub_template (Str old) [TLit new] (sub_template (Str old) [TLit new] c) =
  sub_template (Str old) [TLit new] c.
Proof.
  intros H. pose proof (cross_free_nonempty old new H) as Hold.
  rewrite !(sub_literal_bounded old new _ Hold _ (Nat.le_refl _)).
  apply replace_idempotent. exact H.
Qed.

(** X5: every edit of [orchestrator.go] with a literal search text, in
    [fix_orchestrator.py] and in [fix_final_errors.py], is idempotent on
    every content, but for the first replacement of Fix 2, whose replacement
    holds its search text. *)
Theorem X5_orchestrator_literal_rules_idempotent :
  Forall (fun r => forall c, apply_rule r (apply_rule r c) = apply_rule r c)
    [ Replace FixOrchestrator.firewall_return FixOrchestrator.firewall_return_commented;
      ReSub (Str FixOrchestrator.node_loop) [TLit FixOrchestrator.node_loop_fixed];
      ReSub (Str FixOrchestrator.pool_loop) [TLit FixOrchestrator.pool_loop_fixed];
      Replace (txt "o.config.DNS.") (txt "o.config.Network.DNS.");
      Replace (txt "if o.dnsManager != nil && ingressIP != nil {")
              (txt "if o.dnsManager != nil {");
      Replace (txt "if o.config.Storage != nil && len(o.config.Storage.Classes) > 0")
              (txt "if len(o.config.Storage.Classes) > 0");
      Replace (txt "o.config.LoadBalancers")
              (txt "[]*config.LoadBalancerConfig{&o.config.LoadBalancer}") ].
Proof.
  repeat (apply List.Forall_cons; [intros c; cbn [apply_rule]|]);
    [ apply replace_idempotent | apply literal_pattern_idempotent
    | apply literal_pattern_idempotent | apply replace_idempotent
    | apply replace_idempotent | apply replace_idempotent
    | apply replace_idempotent | apply List.Forall_nil ];
    vm_compute; reflexivity.
Qed.

(** ** Pattern replacement: what is outside the match *)

Section MatchSpan.
Context {A : Type}.

Lemma star_hands_suffix (m : text -> groups -> cont -> option A) (n : nat) :
  hands_suffix m -> hands_suffix (star m n).
Proof.
  intros Hm. induction n as [|n IH]; intros s g k x H; cbn [star] in H.
  - exists [], s, g. split; [reflexivity|exact H].
  - destruct (m s g _) as [y|] eqn:E.
    + injection H as ->.
      destruct (Hm _ _ _ _ E) as (pre1 & s1 & g1 & -> & H1).
      destruct (length s1 <? length (pre1 ++ s1)); [|discriminate].
      destruct (IH _ _ _ _ H1) as (pre2 & s2 & g2 & -> & H2).
      exists (pre1 ++ pre2), s2, g2. rewrite <- app_assoc. split; [reflexivity|exact H2].
    + exists [], s, g. split; [reflexivity|exact H].
Qed.

Lemma rmatch_hands_suffix (r : regex) : hands_suffix (@rmatch A r).
Proof.
  induction r as [|c|p|p|r1 IH1 r2 IH2|r IH|r IH|r IH|i r IH];
    intros s g k x H; cbn [rmatch] in H.
  - exists [], s, g. split; [reflexivity|exact H].
  - destruct s as [|c' s]; [discriminate|].
    destruct (Ascii.eqb c c'); [|discriminate].
    exists [c'], s, g. split; [reflexivity|exact H].
  - destruct (startswith p s) eqn:E; [|discriminate].
    exists p, (drop (length p) s), g. split; [apply startswith_split, E|exact H].
  - destruct s as [|c' s]; [discriminate|].
    destruct (p c'); [|discriminate].
    exists [c'], s, g. split; [reflexivity|exact H].
  - destruct (IH1 _ _ _ _ H) as (pre1 & s1 & g1 & -> & H1).
    destruct (IH2 _ _ _ _ H1) as (pre2 & s2 & g2 & -> & H2).
    exists (pre1 ++ pre2), s2, g2. rewrite <- app_assoc. split; [reflexivity|exact H2].
  - exact (star_hands_suffix _ _ IH _ _ _ _ H).
  - destruct (IH _ _ _ _ H) as (pre1 & s1 & g1 & -> & H1).
    destruct (star_hands_suffix _ _ IH _ _ _ _ H1) as (pre2 & s2 & g2 & -> & H2).
    exists (pre1 ++ pre2), s2, g2. rewrite <- app_assoc. split; [reflexivity|exact H2].
  - destruct (rmatch r s g k) as [y|] eqn:E.
    + injection H as ->. exact (IH _ _ _ _ E).
    + exists [], s, g. split; [reflexivity|exact H].
  - destruct (IH _ _ _ _ H) as (pre1 & s1 & g1 & -> & H1).
    exists pre1, s1, (<[i := take (length (pre1 ++ s1) - length s1) (pre1 ++ s1)]> g1).
    split; [reflexivity|exact H1].
Qed.

End MatchSpan.

(** A match splits the text into the matched part, which is group 0, and
    the rest. *)
Lemma match_at_split (r : regex) (s rest : text) (g : groups) :
  match_at r s = Some (g, rest) ->
  exists m, g !! 0 = Some m /\ s = m ++ rest.
Proof.
  unfold match_at. intros H.
  destruct (rmatch_hands_suffix r _ _ _ _ H) as (pre & s' & g' & -> & H').
  injection H' as <- <-. exists pre. split; [|reflexivity].
  rewrite lookup_insert_eq. f_equal.
  rewrite length_app, Nat.add_sub. apply take_app_length.
Qed.

(** X6: [re.sub] changes the matched spans only.  With the leftmost match of
    the pattern at offset [n] of the content, the content is the text before
    the match, the matched text (group 0) and the rest; the result is the
    text before the match unchanged, then the replacement, then the result
    for the rest (after an empty match: the next character, then the result
    for what follows it). *)
Theorem X6_sub_outside_match_unchanged (r : regex) (repl : groups -> text)
        (c rest : text) (n : nat) (g : groups) :
  match_at r (drop n c) = Some (g, rest) ->
  (forall j, j < n -> match_at r (drop j c) = None) ->
  exists m,
    g !! 0 = Some m /\
    c = take n c ++ m ++ rest /\
    sub r repl c =
    take n c ++ repl g ++
    (if decide (m = []) then match rest with
                             | [] => []
                             | x :: rest' => x :: sub r repl rest'
                             end
     else sub r repl rest).
Proof.
  revert c. induction n as [|n IH]; intros c Hm Hnone.
  - rewrite drop_0 in Hm.
    destruct (match_at_split r c rest g Hm) as (m & Hg & Hc).
    exists m. split; [exact Hg|]. split; [exact Hc|].
    rewrite sub_unfold, Hm. cbn [take app].
    destruct (decide (m = [])) as [->|Hne].
    + simpl in Hc. subst c. rewrite Nat.ltb_irrefl. reflexivity.
    + replace (length rest <? length c) with true; [reflexivity|].
      symmetry. apply Nat.ltb_lt. rewrite Hc, length_app.
      destruct m; [congruence|]. simpl. lia.
  - destruct c as [|x c].
    + specialize (Hnone 0 (Nat.lt_0_succ n)). simpl in Hm, Hnone. congruence.
    + pose proof (Hnone 0 (Nat.lt_0_succ n)) as H0. rewrite drop_0 in H0.
      destruct (IH c Hm) as (m & Hg & Hc & Hsub).
      { intros j Hj. apply (Hnone (S j)). lia. }
      exists m. split; [exact Hg|]. split.
      * cbn [take app]. f_equal. exact Hc.
      * rewrite sub_unfold, H0. cbn [take app]. f_equal. exact Hsub.
Qed.

Lemma X6_sub_outside_match_unchanged_witness :
  exists m,
    m = txt "pulumi.Map(nodeOutputs)" /\
    sub_template FixFinalErrors.map_pattern
      [TLit (txt "pulumi.ToMap("); TRef 1; TLit (txt ")")]
      (txt "x = pulumi.Map(nodeOutputs);") =
    txt "x = " ++ txt "pulumi.ToMap(nodeOutputs)" ++ txt ";".
Proof.
  destruct (X6_sub_outside_match_unchanged FixFinalErrors.map_pattern
              (expand [TLit (txt "pulumi.ToMap("); TRef 1; TLit (txt ")")])
              (txt "x = pulumi.Map(nodeOutputs);") (txt ";") 4
              (<[0 := txt "pulumi.Map(nodeOutputs)"]>
                 (<[1 := txt "nodeOutputs"]> ∅)))
    as (m & Hg & _ & Hsub).
  - vm_compute. reflexivity.
  - intros j Hj. do 4 (destruct j as [|j]; [vm_compute; reflexivity|]). lia.
  - exists m. split.
    + rewrite lookup_insert_eq in Hg. injection Hg as <-. reflexivity.
    + unfold sub_template. rewrite Hsub.
      rewrite lookup_insert_eq in Hg. injection Hg as <-.
      vm_compute. reflexivity.
Defined.

(** ** [fix_checker]: what the file looks like afterwards *)

Lemma concat_insert_split (ls : list text) (i : nat) (l l' : text) :
  ls !! i = Some l ->
  concat ls = concat (take i ls) ++ l ++ concat (drop (S i) ls) /\
  concat (<[i := l']> ls) = concat (take i ls) ++ l' ++ concat (drop (S i) ls).
Proof.
  revert i. induction ls as [|a ls IH]; intros i H; [discriminate|].
  destruct i as [|i].
  - injection H as ->. simpl. rewrite drop_0. split; reflexivity.
  - simpl in H. destruct (IH i H) as [H1 H2]. cbn [take drop concat].
    change (<[S i := l']> (a :: ls)) with (a :: <[i := l']> ls). cbn [concat].
    rewrite <- !app_assoc. split; f_equal; assumption.
Qed.

Lemma wf_lines_before (ls : list text) (i : nat) (l : text) :
  wf_lines ls -> ls !! i = Some l ->
  concat (take i ls) = [] \/ exists p, concat (take i ls) = p ++ [LF].
Proof.
  intros Hwf. revert i. induction Hwf as [|body Hne Hnl|body rest Hnl Hrest IH]; intros i H.
  - discriminate.
  - destruct i as [|i]; [left; reflexivity|discriminate].
  - destruct i as [|i]; [left; reflexivity|]. right. cbn [take concat].
    destruct (IH i H) as [->|[p ->]].
    + exists body. rewrite app_nil_r. reflexivity.
    + exists ((body ++ [LF]) ++ p). rewrite app_assoc. reflexivity.
Qed.

(** X7: the window rule of [fix_checker] either returns the content as it
    is, or inserts the two characters ["//"] and nothing else: they go at
    the start of a line that contains the needle, and the text before and
    after the insertion point is the text of the content. *)
Theorem X7_comment_inserts_two_slashes (start stop : nat) (needle c : text) :
  apply_rule (CommentLine start stop needle) c = c \/
  exists pre l post,
    c = pre ++ l ++ post /\
    apply_rule (CommentLine start stop needle) c = pre ++ txt "//" ++ l ++ post /\
    (pre = [] \/ exists p, pre = p ++ [LF]) /\
    In l (readlines c) /\ str_in needle l = true.
Proof.
  destruct (comment_window_cases needle (readlines c) start stop)
    as [(i & l & Hi & Hl & Hin & Hclear & Heq)|[_ Heq]].
  - right.
    destruct (concat_insert_split (readlines c) i l (txt "//" ++ l) Hl) as [H1 H2].
    exists (concat (take i (readlines c))), l, (concat (drop (S i) (readlines c))).
    split; [rewrite <- H1; symmetry; apply concat_readlines|]. split.
    + cbn [apply_rule]. rewrite Heq. unfold writelines. rewrite H2, <- app_assoc.
      reflexivity.
    + split; [exact (wf_lines_before _ i l (readlines_wf c) Hl)|].
      split; [|exact Hin]. apply list_elem_of_In. eapply list_elem_of_lookup_2. exact Hl.
  - left. cbn [apply_rule]. rewrite Heq. apply concat_readlines.
Qed.

(** X8: a file that ends before the window starts comes back unchanged: the
    loop of [fix_checker] tests [i < len(lines)] before it looks at a line. *)
Theorem X8_short_file_unchanged (start stop : nat) (needle c : text) :
  length (readlines c) <= start ->
  apply_rule (CommentLine start stop needle) c = c.
Proof.
  intros Hlen. cbn [apply_rule].
  destruct (comment_window_cases needle (readlines c) start stop)
    as [(i & l & Hi & Hl & _)|[_ Heq]].
  - apply lookup_lt_Some in Hl. lia.
  - rewrite Heq. apply concat_readlines.
Qed.

Lemma X8_short_file_unchanged_witness :
  apply_rule PatchSets.checker_rule (txt "var totalCount int") = txt "var totalCount int".
Proof.
  apply X8_short_file_unchanged. vm_compute. lia.
Defined.

(** ** What a script can touch *)

Section Confined.

Lemma confined_ret {A} (P : string -> Prop) (a : A) : confined P (ret a).
Proof.
  intros w. split; [reflexivity|]. exists []. rewrite app_nil_r. split; [reflexivity|constructor].
Qed.

Lemma confined_bind {A B} (P : string -> Prop) (m : Py A) (k : A -> Py B) :
  confined P m -> (forall a, confined P (k a)) -> confined P (bind m k).
Proof.
  intros Hm Hk w. destruct (Hm w) as [Hf (evs & Hl & He)].
  unfold bind. destruct (m w) as [[a|e] w1]; cbn [snd] in *.
  - destruct (Hk a w1) as [Hf2 (evs2 & Hl2 & He2)]. split.
    + intros q Hq. rewrite (Hf2 q Hq). exact (Hf q Hq).
    + exists (evs ++ evs2). rewrite Hl2, Hl, app_assoc. split; [reflexivity|].
      apply Forall_app. split; assumption.
  - split; [exact Hf|]. exists evs. split; assumption.
Qed.

Lemma confined_weaken {A} (P Q : string -> Prop) (m : Py A) :
  (forall q, P q -> Q q) -> confined P m -> confined Q m.
Proof.
  intros HPQ Hm w. destruct (Hm w) as [Hf (evs & Hl & He)]. split.
  - intros q Hq. apply Hf. intros HP. exact (Hq (HPQ q HP)).
  - exists evs. split; [exact Hl|].
    eapply Forall_impl; [exact He|]. intros [p|p|l]; simpl; auto.
Qed.

Lemma confined_print (P : string -> Prop) (line : text) : confined P (print line).
Proof.
  intros w. split; [reflexivity|]. exists [Printed line].
  split; [reflexivity|]. repeat constructor.
Qed.

Lemma confined_path_exists (P : string -> Prop) (path : string) :
  confined P (path_exists path).
Proof.
  intros w. split; [reflexivity|]. exists []. rewrite app_nil_r.
  split; [reflexivity|constructor].
Qed.

Lemma confined_read_text (P : string -> Prop) (path : string) :
  P path -> confined P (read_text path).
Proof.
  intros HP w. unfold read_text. destruct (files w !! path); cbn [snd].
  - split; [reflexivity|]. exists [OpenR path]. split; [reflexivity|].
    repeat constructor. exact HP.
  - split; [reflexivity|]. exists []. rewrite app_nil_r. split; [reflexivity|constructor].
Qed.

Lemma confined_write_text (P : string -> Prop) (path : string) (data : text) :
  P path -> confined P (write_text path data).
Proof.
  intros HP w. rewrite write_text_run.
  destruct (budget w) as [b|]; [destruct (length data <=? b)|]; cbn [snd files log];
    (split; [intros q Hq; apply lookup_insert_ne; intros ->; exact (Hq HP)|]);
    exists [OpenW path]; (split; [reflexivity|]); repeat constructor; exact HP.
Qed.

Lemma confined_write_lines (P : string -> Prop) (path : string) (lines : list text) :
  P path -> confined P (write_lines path lines).
Proof. intros HP. exact (confined_write_text P path (writelines lines) HP). Qed.

Lemma confined_read_lines (P : string -> Prop) (path : string) :
  P path -> confined P (read_lines path).
Proof.
  intros HP. unfold read_lines.
  apply confined_bind; [apply confined_read_text, HP|]. intros c. apply confined_ret.
Qed.

Lemma fix_logargs_confined (P : string -> Prop) (path : string) :
  P path -> confined P (FixLogargs.fix_logargs path).
Proof.
  intros HP. unfold FixLogargs.fix_logargs.
  apply confined_bind; [apply confined_read_text, HP|]. intros content.
  destruct (bool_decide _); [|apply confined_ret].
  apply confined_bind; [apply confined_write_text, HP|]. intros _.
  apply confined_bind; [apply confined_print|]. intros _. apply confined_ret.
Qed.

Lemma loop_confined (paths : list string) (k : nat) :
  confined (listed paths) (FixLogargs.loop paths k).
Proof.
  revert k. induction paths as [|fp rest IH]; intros k; cbn [FixLogargs.loop].
  - apply confined_ret.
  - assert (Hrest : forall n, confined (listed (fp :: rest)) (FixLogargs.loop rest n)).
    { intros n. apply (confined_weaken (listed rest)); [|apply IH].
      intros q (fp' & Hin & ->). exists fp'. split; [right; exact Hin|reflexivity]. }
    apply confined_bind; [apply confined_path_exists|]. intros present.
    destruct present; [|apply Hrest].
    apply confined_bind.
    + apply fix_logargs_confined. exists fp. split; [left; reflexivity|reflexivity].
    + intros fixed. destruct fixed; apply Hrest.
Qed.

End Confined.

Ltac confine :=
  repeat first
    [ progress cbv zeta
    | apply confined_ret
    | apply confined_print
    | apply confined_read_text; simpl; tauto
    | apply confined_write_text; simpl; tauto
    | apply confined_read_lines; simpl; tauto
    | apply confined_write_lines; simpl; tauto
    | apply confined_bind; [|intros ?] ].

(** X9: whatever the state of the files and of the device, and whether it
    ends normally or with an exception, [fix_compilation.py] leaves every
    file other than its five targets as it was, opens no other path, and
    only adds to what has been logged. *)
Theorem X9_fix_compilation_confined :
  confined (fun q => In q [FixCompilation.checker_path; FixCompilation.rke_path;
                           FixCompilation.dns_path; FixCompilation.wg_path;
                           FixCompilation.ssh_path])
           FixCompilation.main.
Proof.
  unfold FixCompilation.main, FixCompilation.fix_checker,
    FixCompilation.fix_pulumi_map_conversions.
  confine.
Qed.

(** X10: [fix_orchestrator.py] touches and opens [orchestrator.go] only,
    whatever the world and however the run ends. *)
Theorem X10_fix_orchestrator_confined :
  confined (fun q => q = FixOrchestrator.path) FixOrchestrator.main.
Proof. unfold FixOrchestrator.main. confine. Qed.

(** X11: [fix_final_errors.py] touches and opens its two targets only,
    whatever the world and however the run ends. *)
Theorem X11_fix_final_errors_confined :
  confined (fun q => In q [FixFinalErrors.orch_path; FixFinalErrors.comp_path])
           FixFinalErrors.main.
Proof. unfold FixFinalErrors.main. confine. Qed.

(** X12: [fix_logargs(filepath)] touches and opens [filepath] only, and
    [fix_logargs.py] only the seven listed paths, whatever the world and
    however the run ends. *)
Theorem X12_fix_logargs_confined :
  (forall filepath, confined (fun q => q = filepath) (FixLogargs.fix_logargs filepath)) /\
  confined (listed FixLogargs.go_files) FixLogargs.main.
Proof.
  split.
  - intros filepath. apply fix_logargs_confined. reflexivity.
  - unfold FixLogargs.main.
    apply confined_bind; [apply loop_confined|]. intros n.
    apply confined_bind; [apply confined_print|]. intros _. apply confined_ret.
Qed.

(** ** [fix_compilation.py] from end to end *)

Lemma print_run (line : text) (w : World) :
  print line w = (Ok tt, emit (Printed line) w).
Proof. reflexivity. Qed.

Ltac paths_differ :=
  let E := fresh in
  intros E; apply (bool_decide_pack _) in E; vm_compute in E; exact E.

(** X13: with its five targets in place and a device that takes every
    write, [fix_compilation.py] ends normally; it handles the files in the
    order checker, rke, dns, wireguard, sshkeys, each of them read, written
    back with its edits and reported before the next is opened, and prints
    its closing line last. *)
Theorem X13_fix_compilation_run (w : World) (c1 c2 c3 c4 c5 : text) :
  files w !! FixCompilation.checker_path = Some c1 ->
  files w !! FixCompilation.rke_path = Some c2 ->
  files w !! FixCompilation.dns_path = Some c3 ->
  files w !! FixCompilation.wg_path = Some c4 ->
  files w !! FixCompilation.ssh_path = Some c5 ->
  budget w = None ->
  let w1 := emit (Printed (txt "Fixed checker.go"))
              (patched FixCompilation.checker_path
                       (apply_rule PatchSets.checker_rule c1) w) in
  let w2 := emit (Printed (txt "Fixed rke.go"))
              (patched FixCompilation.rke_path (FixCompilation.rke_edits c2) w1) in
  let w3 := emit (Printed (txt "Fixed dns/manager.go"))
              (patched FixCompilation.dns_path (FixCompilation.dns_edits c3) w2) in
  let w4 := emit (Printed (txt "Fixed wireguard.go"))
              (patched FixCompilation.wg_path (FixCompilation.wg_edits c4) w3) in
  let w5 := emit (Printed (txt "Fixed sshkeys.go"))
              (patched FixCompilation.ssh_path (FixCompilation.ssh_edits c5) w4) in
  FixCompilation.main w =
  (Ok tt, emit (Printed (txt "All compilation fixes applied")) w5).
Proof.
  intros H1 H2 H3 H4 H5 Hb w1 w2 w3 w4 w5.
  assert (Hchk : FixCompilation.fix_checker w = (Ok tt, w1)).
  { rewrite (fix_checker_run w c1 H1).
    rewrite (block_run _ (apply_rule PatchSets.checker_rule) _ w c1 H1), Hb.
    reflexivity. }
  assert (H2' : files w1 !! FixCompilation.rke_path = Some c2).
  { unfold w1, emit, patched. cbn [files].
    rewrite lookup_insert_ne by paths_differ. exact H2. }
  assert (H3' : files w2 !! FixCompilation.dns_path = Some c3).
  { unfold w2, w1, emit, patched. cbn [files].
    rewrite !lookup_insert_ne by paths_differ. exact H3. }
  assert (H4' : files w3 !! FixCompilation.wg_path = Some c4).
  { unfold w3, w2, w1, emit, patched. cbn [files].
    rewrite !lookup_insert_ne by paths_differ. exact H4. }
  assert (H5' : files w4 !! FixCompilation.ssh_path = Some c5).
  { unfold w4, w3, w2, w1, emit, patched. cbn [files].
    rewrite !lookup_insert_ne by paths_differ. exact H5. }
  assert (Hconv : FixCompilation.fix_pulumi_map_conversions w1 = (Ok tt, w5)).
  { unfold FixCompilation.fix_pulumi_map_conversions.
    rewrite (block_run _ FixCompilation.rke_edits _ w1 c2 H2').
    change (budget w1) with (@None nat).
    rewrite (bind_ok _ _ _ _ _ (print_run _ _)). fold w2.
    rewrite (block_run _ FixCompilation.dns_edits _ w2 c3 H3').
    change (budget w2) with (@None nat).
    rewrite (bind_ok _ _ _ _ _ (print_run _ _)). fold w3.
    rewrite (block_run _ FixCompilation.wg_edits _ w3 c4 H4').
    change (budget w3) with (@None nat).
    rewrite (bind_ok _ _ _ _ _ (print_run _ _)). fold w4.
    rewrite (block_run _ FixCompilation.ssh_edits _ w4 c5 H5').
    change (budget w4) with (@None nat).
    reflexivity. }
  unfold FixCompilation.main.
  rewrite (bind_ok _ _ _ _ _ Hchk), (bind_ok _ _ _ _ _ Hconv). reflexivity.
Qed.

Lemma X13_fix_compilation_run_witness :
  fst (FixCompilation.main five_files) = Ok tt /\
  files (snd (FixCompilation.main five_files)) !! FixCompilation.rke_path =
  Some (txt "m := pulumi.ToMap(nodeInfo)").
Proof.
  rewrite (X13_fix_compilation_run five_files plain_go
             (txt "m := pulumi.Map(nodeInfo)") (txt "if initialIP == nil {")
             (txt "m := pulumi.Map(nodeIPs)") (txt "if s.publicKey == nil {"));
    try (vm_compute; reflexivity).
  split; [reflexivity|vm_compute; reflexivity].
Defined.

(** ** [fix_logargs.py] on any device *)

Lemma loop_step (p0 : string) (rest : list string) (k : nat) (w : World) :
  FixLogargs.loop (p0 :: rest) k w =
  match files w !! FixLogargs.full_path p0 with
  | None => FixLogargs.loop rest k w
  | Some _ =>
      match FixLogargs.fix_logargs (FixLogargs.full_path p0) w with
      | (Ok true, w1) => FixLogargs.loop rest (k + 1) w1
      | (Ok false, w1) => FixLogargs.loop rest k w1
      | (Raise e, w1) => (Raise e, w1)
      end
  end.
Proof.
  cbn [FixLogargs.loop]. unfold bind at 1, path_exists.
  destruct (files w !! FixLogargs.full_path p0) as [c0|].
  - rewrite bool_decide_eq_true_2 by eauto. unfold bind.
    destruct (FixLogargs.fix_logargs _ w) as [[[|]|e] w1]; reflexivity.
  - rewrite bool_decide_eq_false_2 by (intros [y Hy]; discriminate). reflexivity.
Qed.

Lemma loop_keeps_unchanged (paths : list string) :
  NoDup paths ->
  forall (k : nat) (w : World) (fp : string) (c : text),
    In fp paths ->
    files w !! FixLogargs.full_path fp = Some c ->
    FixLogargs.substitutions c = c ->
    files (snd (FixLogargs.loop paths k w)) !! FixLogargs.full_path fp = Some c /\
    exists evs,
      log (snd (FixLogargs.loop paths k w)) = log w ++ evs /\
      ~ In (OpenW (FixLogargs.full_path fp)) evs.
Proof.
  induction paths as [|p0 rest IH]; intros Hnd k w fp c Hin Hc Hfix; [destruct Hin|].
  apply NoDup_cons in Hnd as [Hnotin Hnd]. rewrite list_elem_of_In in Hnotin.
  rewrite loop_step.
  destruct Hin as [->|Hin].
  - rewrite Hc, (fix_logargs_unchanged _ _ _ Hc Hfix).
    destruct (loop_confined rest k (emit (OpenR (FixLogargs.full_path fp)) w))
      as [Hf (evs & Hl & He)].
    assert (Hout : ~ listed rest (FixLogargs.full_path fp)).
    { intros (fp' & Hin' & E). apply full_path_inj in E. subst fp'. exact (Hnotin Hin'). }
    split.
    + rewrite (Hf _ Hout). exact Hc.
    + exists (OpenR (FixLogargs.full_path fp) :: evs). split.
      * rewrite Hl. cbn [emit log]. rewrite <- app_assoc. reflexivity.
      * intros [E|Hin']; [discriminate|]. apply Hout.
        exact (proj1 (List.Forall_forall _ _) He _ Hin').
  - assert (Hne : FixLogargs.full_path fp <> FixLogargs.full_path p0).
    { intros E. apply full_path_inj in E. subst p0. exact (Hnotin Hin). }
    destruct (files w !! FixLogargs.full_path p0) as [c0|] eqn:E0;
      [|apply IH; assumption].
    destruct (fix_logargs_confined (fun q => q = FixLogargs.full_path p0)
                (FixLogargs.full_path p0) eq_refl w) as [Hf (evs1 & Hl1 & He1)].
    assert (Hn1 : ~ In (OpenW (FixLogargs.full_path fp)) evs1).
    { intros H. apply (proj1 (List.Forall_forall _ _) He1) in H. exact (Hne H). }
    destruct (FixLogargs.fix_logargs (FixLogargs.full_path p0) w) as [[b|e] w1];
      cbn [snd] in *.
    + assert (Hc1 : files w1 !! FixLogargs.full_path fp = Some c).
      { rewrite (Hf _ Hne). exact Hc. }
      destruct b;
        [destruct (IH Hnd (k + 1) w1 fp c Hin Hc1 Hfix) as [Hfile (evs2 & Hl2 & Hn2)]
        |destruct (IH Hnd k w1 fp c Hin Hc1 Hfix) as [Hfile (evs2 & Hl2 & Hn2)]];
        (split; [exact Hfile|]); exists (evs1 ++ evs2);
        (split; [rewrite Hl2, Hl1, app_assoc; reflexivity|]);
        intros H; apply in_app_or in H as [H|H]; auto.
    + split; [rewrite (Hf _ Hne); exact Hc|]. exists evs1. split; [exact Hl1|exact Hn1].
Qed.

(** X14: whatever the device, and whether the run of [fix_logargs.py] ends
    normally or not, a listed file whose content the substitutions do not
    change is not opened for writing and still has its content when the run
    is over. *)
Theorem X14_unchanged_file_never_written (w : World) (fp : string) (c : text) :
  In fp FixLogargs.go_files ->
  files w !! FixLogargs.full_path fp = Some c ->
  FixLogargs.substitutions c = c ->
  files (snd (FixLogargs.main w)) !! FixLogargs.full_path fp = Some c /\
  exists evs,
    log (snd (FixLogargs.main w)) = log w ++ evs /\
    ~ In (OpenW (FixLogargs.full_path fp)) evs.
Proof.
  intros Hin Hc Hfix.
  destruct (loop_keeps_unchanged FixLogargs.go_files go_files_NoDup 0 w fp c Hin Hc Hfix)
    as [Hfile (evs & Hl & Hn)].
  unfold FixLogargs.main, bind.
  destruct (FixLogargs.loop FixLogargs.go_files 0 w) as [[n|e] w1]; cbn [snd] in *.
  - unfold print, ret. cbn [snd emit files log]. split; [exact Hfile|].
    eexists (evs ++ [_]). split; [rewrite Hl, <- app_assoc; reflexivity|].
    intros H. apply in_app_or in H as [H|[H|[]]]; [exact (Hn H)|discriminate].
  - split; [exact Hfile|]. exists evs. split; [exact Hl|exact Hn].
Qed.

Lemma X14_unchanged_file_never_written_witness :
  files (snd (FixLogargs.main (mkWorld (files two_files) (Some 3) [])))
    !! FixLogargs.full_path "pkg/health/checker.go" = Some plain_go.
Proof.
  apply (X14_unchanged_file_never_written (mkWorld (files two_files) (Some 3) [])
           "pkg/health/checker.go" plain_go).
  - vm_compute. tauto.
  - vm_compute. reflexivity.
  - vm_compute. reflexivity.
Defined.

(** ** The two scripts that patch [orchestrator.go] *)

(** X15: [fix_orchestrator.py] and [fix_final_errors.py] have the same
    [orchestrator.go] as target; run one after the other on a device that
    takes every write, the second patches what the first wrote, and
    [orchestrator_component.go] is patched from its original content. *)
Theorem X15_orchestrator_then_final (w : World) (c1 c2 : text) :
  files w !! FixOrchestrator.path = Some c1 ->
  files w !! FixFinalErrors.comp_path = Some c2 ->
  budget w = None ->
  exists w',
    bind FixOrchestrator.main (fun _ => FixFinalErrors.main) w = (Ok tt, w') /\
    files w' !! FixFinalErrors.orch_path =
      Some (FixFinalErrors.orch_edits (FixOrchestrator.edits c1)) /\
    files w' !! FixFinalErrors.comp_path = Some (FixFinalErrors.comp_edits c2) /\
    forall q, q <> FixFinalErrors.orch_path -> q <> FixFinalErrors.comp_path ->
              files w' !! q = files w !! q.
Proof.
  intros H1 H2 Hb.
  assert (Hrun1 : FixOrchestrator.main w =
                  (Ok tt, emit (Printed (txt "Fixed orchestrator.go"))
                               (patched FixOrchestrator.path (FixOrchestrator.edits c1) w))).
  { unfold FixOrchestrator.main.
    rewrite (block_run _ FixOrchestrator.edits _ w c1 H1), Hb. reflexivity. }
  rewrite (bind_ok _ _ _ _ _ Hrun1).
  set (w1 := emit _ _).
  assert (H1' : files w1 !! FixFinalErrors.orch_path = Some (FixOrchestrator.edits c1)).
  { unfold w1, emit, patched. cbn [files]. apply lookup_insert_eq. }
  assert (H2' : files w1 !! FixFinalErrors.comp_path = Some c2).
  { unfold w1, emit, patched. cbn [files].
    rewrite lookup_insert_ne by exact orch_comp_paths. exact H2. }
  unfold FixFinalErrors.main.
  rewrite (block_run _ FixFinalErrors.orch_edits _ w1 _ H1').
  change (budget w1) with (@None nat).
  rewrite (bind_ok _ _ _ _ _ (print_run _ _)).
  set (w2 := emit _ _).
  assert (H2'' : files w2 !! FixFinalErrors.comp_path = Some c2).
  { unfold w2, emit, patched. cbn [files].
    rewrite lookup_insert_ne by exact orch_comp_paths. exact H2'. }
  rewrite (block_run _ FixFinalErrors.comp_edits _ w2 c2 H2'').
  change (budget w2) with (@None nat).
  eexists. split; [reflexivity|].
  unfold print, bind, emit, patched, w2, w1, emit, patched. cbn [snd fst files].
  split; [|split].
  - rewrite lookup_insert_ne by (intros E; exact (orch_comp_paths (eq_sym E))).
    apply lookup_insert_eq.
  - apply lookup_insert_eq.
  - intros q Hq1 Hq2. change FixOrchestrator.path with FixFinalErrors.orch_path.
    rewrite !lookup_insert_ne by congruence. reflexivity.
Qed.

Lemma X15_orchestrator_then_final_witness :
  exists w',
    bind FixOrchestrator.main (fun _ => FixFinalErrors.main)
         (mkWorld {[ FixOrchestrator.path := txt "lbs := o.config.LoadBalancers; z := o.config.DNS.Zone";
                     FixFinalErrors.comp_path := plain_go ]} None []) = (Ok tt, w') /\
    files w' !! FixFinalErrors.orch_path =
      Some (txt "lbs := []*config.LoadBalancerConfig{&o.config.LoadBalancer}; z := o.config.Network.DNS.Zone").
Proof.
  destruct (X15_orchestrator_then_final
              (mkWorld {[ FixOrchestrator.path := txt "lbs := o.config.LoadBalancers; z := o.config.DNS.Zone";
                          FixFinalErrors.comp_path := plain_go ]} None [])
              (txt "lbs := o.config.LoadBalancers; z := o.config.DNS.Zone") plain_go)
    as (w' & Hrun & Horch & _); try (vm_compute; reflexivity).
  exists w'. split; [exact Hrun|]. rewrite Horch. vm_compute. reflexivity.
Defined.

(** ** Running [fix_pulumi_map_conversions] again *)

Lemma conversions_run (w : World) (c2 c3 c4 c5 : text) :
  files w !! FixCompilation.rke_path = Some c2 ->
  files w !! FixCompilation.dns_path = Some c3 ->
  files w !! FixCompilation.wg_path = Some c4 ->
  files w !! FixCompilation.ssh_path = Some c5 ->
  budget w = None ->
  FixCompilation.fix_pulumi_map_conversions w = (Ok tt, converted c2 c3 c4 c5 w).
Proof.
  intros H2 H3 H4 H5 Hb. unfold converted.
  set (w2 := emit (Printed (txt "Fixed rke.go")) _).
  set (w3 := emit (Printed (txt "Fixed dns/manager.go")) _).
  set (w4 := emit (Printed (txt "Fixed wireguard.go")) _).
  assert (H3' : files w2 !! FixCompilation.dns_path = Some c3).
  { unfold w2, emit, patched. cbn [files].
    rewrite !lookup_insert_ne by paths_differ. exact H3. }
  assert (H4' : files w3 !! FixCompilation.wg_path = Some c4).
  { unfold w3, w2, emit, patched. cbn [files].
    rewrite !lookup_insert_ne by paths_differ. exact H4. }
  assert (H5' : files w4 !! FixCompilation.ssh_path = Some c5).
  { unfold w4, w3, w2, emit, patched. cbn [files].
    rewrite !lookup_insert_ne by paths_differ. exact H5. }
  unfold FixCompilation.fix_pulumi_map_conversions.
  rewrite (block_run _ FixCompilation.rke_edits _ w c2 H2), Hb.
  rewrite (bind_ok _ _ _ _ _ (print_run _ _)). fold w2.
  rewrite (block_run _ FixCompilation.dns_edits _ w2 c3 H3').
  change (budget w2) with (@None nat).
  rewrite (bind_ok _ _ _ _ _ (print_run _ _)). fold w3.
  rewrite (block_run _ FixCompilation.wg_edits _ w3 c4 H4').
  change (budget w3) with (@None nat).
  rewrite (bind_ok _ _ _ _ _ (print_run _ _)). fold w4.
  rewrite (block_run _ FixCompilation.ssh_edits _ w4 c5 H5').
  change (budget w4) with (@None nat).
  reflexivity.
Qed.

Lemma converted_files (w : World) (c2 c3 c4 c5 : text) :
  files (converted c2 c3 c4 c5 w) !! FixCompilation.rke_path
    = Some (FixCompilation.rke_edits c2) /\
  files (converted c2 c3 c4 c5 w) !! FixCompilation.dns_path
    = Some (FixCompilation.dns_edits c3) /\
  files (converted c2 c3 c4 c5 w) !! FixCompilation.wg_path
    = Some (FixCompilation.wg_edits c4) /\
  files (converted c2 c3 c4 c5 w) !! FixCompilation.ssh_path
    = Some (FixCompilation.ssh_edits c5).
Proof.
  unfold converted, emit, patched. cbn [files].
  repeat split;
    rewrite ?lookup_insert_ne by paths_differ; apply lookup_insert_eq.
Qed.

(** X16: on a device that takes every write, running
    [fix_pulumi_map_conversions] on the files it has already converted ends
    normally again and leaves every file exactly as the first run left it. *)
Theorem X16_conversions_rerun (w : World) (c2 c3 c4 c5 : text) :
  files w !! FixCompilation.rke_path = Some c2 ->
  files w !! FixCompilation.dns_path = Some c3 ->
  files w !! FixCompilation.wg_path = Some c4 ->
  files w !! FixCompilation.ssh_path = Some c5 ->
  budget w = None ->
  let run := FixCompilation.fix_pulumi_map_conversions in
  fst (run w) = Ok tt /\
  fst (run (snd (run w))) = Ok tt /\
  files (snd (run (snd (run w)))) = files (snd (run w)).
Proof.
  intros H2 H3 H4 H5 Hb run. unfold run.
  rewrite (conversions_run w c2 c3 c4 c5 H2 H3 H4 H5 Hb). cbn [fst snd].
  destruct (converted_files w c2 c3 c4 c5) as (F2 & F3 & F4 & F5).
  rewrite (conversions_run _ _ _ _ _ F2 F3 F4 F5 eq_refl). cbn [fst snd].
  split; [reflexivity|]. split; [reflexivity|].
  set (w1 := converted c2 c3 c4 c5 w) in *.
  unfold converted at 1, emit, patched. cbn [files].
  destruct (edits_idempotent c2) as (-> & _).
  destruct (edits_idempotent c3) as (_ & -> & _).
  destruct (edits_idempotent c4) as (_ & _ & -> & _).
  destruct (edits_idempotent c5) as (_ & _ & _ & -> & _).
  rewrite (insert_id (files w1) _ _ F2), (insert_id (files w1) _ _ F3),
    (insert_id (files w1) _ _ F4).
  apply (insert_id (files w1) _ _ F5).
Qed.

Lemma X16_conversions_rerun_witness :
  files (snd (FixCompilation.fix_pulumi_map_conversions
                (snd (FixCompilation.fix_pulumi_map_conversions five_files)))) =
  files (snd (FixCompilation.fix_pulumi_map_conversions five_files)).
Proof.
  apply (X16_conversions_rerun five_files
           (txt "m := pulumi.Map(nodeInfo)") (txt "if initialIP == nil {")
           (txt "m := pulumi.Map(nodeIPs)") (txt "if s.publicKey == nil {"));
    vm_compute; reflexivity.
Defined.

(** * Pattern replacements applied again *)

(** ** The matcher and the texts of a pattern *)

Section LangMatcher.
Context {A : Type}.

Lemma star_sound (a : regex) (n : nat) :
  @sound_for A a (rmatch a) -> @sound_for A (Star a) (star (rmatch a) n).
Proof.
  intros Ha. induction n as [|n IH]; intros s g k x H; cbn [star] in H.
  - exists [], s, g. split; [reflexivity|]. split; [constructor|exact H].
  - destruct (rmatch a s g _) as [y|] eqn:E.
    + injection H as ->.
      destruct (Ha _ _ _ _ E) as (pre1 & s1 & g1 & -> & Hl1 & H1).
      destruct (length s1 <? length (pre1 ++ s1)) eqn:Elt; [|discriminate].
      apply Nat.ltb_lt in Elt. rewrite length_app in Elt.
      destruct (IH _ _ _ _ H1) as (pre2 & s2 & g2 & -> & Hl2 & H2).
      exists (pre1 ++ pre2), s2, g2. rewrite <- app_assoc.
      split; [reflexivity|]. split; [|exact H2].
      apply lang_star_cons; [|exact Hl1|exact Hl2].
      intros ->. simpl in Elt. lia.
    + exists [], s, g. split; [reflexivity|]. split; [constructor|exact H].
Qed.

Lemma rmatch_sound (r : regex) : @sound_for A r (rmatch r).
Proof.
  induction r as [|c|p|p|r1 IH1 r2 IH2|r IH|r IH|r IH|i r IH];
    intros s g k x H; cbn [rmatch] in H.
  - exists [], s, g. split; [reflexivity|]. split; [constructor|exact H].
  - destruct s as [|c' s]; [discriminate|].
    destruct (Ascii.eqb c c') eqn:E; [|discriminate]. apply Ascii.eqb_eq in E. subst c'.
    exists [c], s, g. split; [reflexivity|]. split; [constructor|exact H].
  - destruct (startswith p s) eqn:E; [|discriminate].
    exists p, (drop (length p) s), g.
    split; [apply startswith_split, E|]. split; [constructor|exact H].
  - destruct s as [|c' s]; [discriminate|].
    destruct (p c') eqn:E; [|discriminate].
    exists [c'], s, g. split; [reflexivity|]. split; [constructor; exact E|exact H].
  - destruct (IH1 _ _ _ _ H) as (pre1 & s1 & g1 & -> & Hl1 & H1).
    destruct (IH2 _ _ _ _ H1) as (pre2 & s2 & g2 & -> & Hl2 & H2).
    exists (pre1 ++ pre2), s2, g2. rewrite <- app_assoc.
    split; [reflexivity|]. split; [constructor; assumption|exact H2].
  - exact (star_sound _ _ IH _ _ _ _ H).
  - destruct (IH _ _ _ _ H) as (pre1 & s1 & g1 & -> & Hl1 & H1).
    destruct (star_sound _ _ IH _ _ _ _ H1) as (pre2 & s2 & g2 & -> & Hl2 & H2).
    exists (pre1 ++ pre2), s2, g2. rewrite <- app_assoc.
    split; [reflexivity|]. split; [constructor; assumption|exact H2].
  - destruct (rmatch r s g k) as [y|] eqn:E.
    + injection H as ->.
      destruct (IH _ _ _ _ E) as (pre & s' & g' & -> & Hl & H').
      exists pre, s', g'. split; [reflexivity|]. split; [apply lang_opt, Hl|exact H'].
    + exists [], s, g. split; [reflexivity|]. split; [constructor|exact H].
  - destruct (IH _ _ _ _ H) as (pre1 & s1 & g1 & -> & Hl1 & H1).
    exists pre1, s1, (<[i := take (length (pre1 ++ s1) - length s1) (pre1 ++ s1)]> g1).
    split; [reflexivity|]. split; [constructor; exact Hl1|exact H1].
Qed.

Lemma rmatch_complete (r : regex) (m : text) :
  lang r m ->
  forall rest g (k : @cont A),
    (forall g', k rest g' <> None) -> rmatch r (m ++ rest) g k <> None.
Proof.
  induction 1 as [|c|p|f c Hf|a b m1 m2 H1 IH1 H2 IH2|a|a m1 m2 Hne H1 IH1 H2 IH2
                  |a m1 m2 H1 IH1 H2 IH2|a|a m H1 IH1|i a m H1 IH1];
    intros rest g k Hk.
  - apply Hk.
  - cbn. rewrite Ascii.eqb_refl. apply Hk.
  - cbn [rmatch]. rewrite startswith_app, drop_app_length. apply Hk.
  - cbn. rewrite Hf. apply Hk.
  - rewrite <- app_assoc. cbn [rmatch]. apply IH1. intros g'. apply IH2, Hk.
  - rewrite rmatch_star. cbn [app].
    destruct (rmatch a rest g _); [discriminate|apply Hk].
  - rewrite rmatch_star, <- app_assoc.
    assert (Hgo : rmatch a (m1 ++ m2 ++ rest) g
              (fun s' g' => if length s' <? length (m1 ++ m2 ++ rest)
                            then rmatch (Star a) s' g' k else None) <> None).
    { apply IH1. intros g'.
      replace (length (m2 ++ rest) <? length (m1 ++ m2 ++ rest)) with true.
      - apply IH2, Hk.
      - symmetry. apply Nat.ltb_lt. rewrite (length_app m1).
        destruct m1; [congruence|]. simpl. lia. }
    destruct (rmatch a (m1 ++ m2 ++ rest) g _); [discriminate|congruence].
  - rewrite <- app_assoc. cbn [rmatch].
    apply (IH1 (m2 ++ rest) g (fun s' g' => rmatch (Star a) s' g' k)).
    intros g'. apply IH2, Hk.
  - cbn [rmatch app]. destruct (rmatch a rest g k); [discriminate|apply Hk].
  - cbn [rmatch]. specialize (IH1 rest g k Hk).
    destruct (rmatch a (m ++ rest) g k); [discriminate|congruence].
  - cbn [rmatch]. apply IH1. intros g'. apply Hk.
Qed.

End LangMatcher.

Lemma match_at_lang (r : regex) (s rest : text) (g : groups) :
  match_at r s = Some (g, rest) ->
  exists m, s = m ++ rest /\ lang r m /\ g !! 0 = Some m.
Proof.
  unfold match_at. intros H.
  destruct (rmatch_sound r _ _ _ _ H) as (pre & s' & g' & -> & Hl & H').
  injection H' as <- <-. exists pre. split; [reflexivity|]. split; [exact Hl|].
  rewrite lookup_insert_eq. f_equal.
  rewrite length_app, Nat.add_sub. apply take_app_length.
Qed.

Lemma match_at_pm (r : regex) (s : text) : match_at r s <> None <-> pm r s.
Proof.
  split.
  - destruct (match_at r s) as [[g rest]|] eqn:E; [|congruence]. intros _.
    destruct (match_at_lang r s rest g E) as (m & -> & Hl & _). exists m, rest. auto.
  - intros (m & rest & -> & Hl). unfold match_at.
    apply (rmatch_complete r m Hl). intros g'. discriminate.
Qed.

Lemma match_at_none (r : regex) (s : text) : ~ pm r s -> match_at r s = None.
Proof.
  intros H. destruct (match_at r s) eqn:E; [|reflexivity].
  exfalso. apply H, match_at_pm. congruence.
Qed.

Lemma pm_weaken (r : regex) (a Z : text) : pm r a -> pm r (a ++ Z).
Proof.
  intros (m & rest & -> & Hl). exists m, (rest ++ Z). rewrite app_assoc. auto.
Qed.

Lemma search_false_at (r : regex) (s : text) (j : nat) :
  search r s = false -> match_at r (drop j s) = None.
Proof.
  revert j. induction s as [|c s IH]; intros j H.
  - rewrite drop_nil. exact (search_false_here r [] H).
  - destruct j as [|j]; [exact (search_false_here r _ H)|].
    simpl. apply IH. exact (search_false_tail r c s H).
Qed.

Lemma search_false_all (r : regex) (s : text) :
  (forall j, match_at r (drop j s) = None) -> search r s = false.
Proof.
  induction s as [|c s IH]; intros H.
  - pose proof (H 0) as H0. rewrite drop_0 in H0. simpl. rewrite H0. reflexivity.
  - pose proof (H 0) as H0. rewrite drop_0 in H0.
    cbn [search]. rewrite H0. apply IH. intros j. exact (H (S j)).
Qed.

(** ** The scan of [re.sub] leaves no match behind *)

Section Settles.
Variable r : regex.
Variable repl : groups -> text.
Hypothesis Hs : settles r repl.

Lemma sub_keeps_clear (n : nat) :
  forall s u,
    length s <= n ->
    clear_re r u s ->
    clear_re r u (sub r repl s) /\ search r (sub r repl s) = false.
Proof.
  induction n as [|n IH]; intros s u Hn Hclear.
  - destruct s; [|simpl in Hn; lia].
    rewrite sub_unfold.
    destruct (match_at r []) as [[g rest]|] eqn:E.
    + destruct (match_at_lang r [] rest g E) as (m & Hm & Hl & _).
      symmetry in Hm. apply app_eq_nil in Hm as [-> _].
      destruct (settles_nonempty r repl Hs Hl).
    + split; [exact Hclear|]. simpl. rewrite E. reflexivity.
  - rewrite sub_unfold.
    destruct (match_at r s) as [[g rest]|] eqn:E.
    + destruct (match_at_lang r s rest g E) as (m & Hm & Hl & _).
      assert (Hne : m <> []).
      { intros ->. exact (settles_nonempty r repl Hs Hl). }
      assert (Hlt : length rest < length s).
      { rewrite Hm, length_app. destruct m; [congruence|]. simpl. lia. }
      apply Nat.ltb_lt in Hlt as Hb. rewrite Hb.
      destruct (IH rest (repl g)) as [Hc2 Hin2]; [lia| |].
      { intros j Hj. rewrite drop_app_le by lia. apply match_at_none.
        exact (settles_inside r repl Hs s g rest E j rest Hj). }
      split.
      * intros j Hj. rewrite drop_app_le by lia. apply match_at_none. intros Hpm.
        apply (settles_before r repl Hs s g rest E) in Hpm.
        apply match_at_pm in Hpm. apply Hpm.
        pose proof (Hclear j Hj) as Hc. rewrite drop_app_le in Hc by lia. exact Hc.
      * apply search_false_all. intros j.
        destruct (le_lt_dec (length (repl g)) j) as [Hle|Hlt'].
        -- rewrite drop_app_ge by exact Hle. apply search_false_at. exact Hin2.
        -- apply Hc2. exact Hlt'.
    + destruct s as [|c s].
      * split; [exact Hclear|]. simpl. rewrite E. reflexivity.
      * destruct (IH s (u ++ [c])) as [Hc2 Hin2].
        { simpl in Hn. lia. }
        { intros j Hj. rewrite <- app_assoc. cbn [app].
          rewrite length_app in Hj. simpl in Hj.
          destruct (decide (j = length u)) as [->|Hne].
          - rewrite drop_app_length. exact E.
          - apply Hclear. lia. }
        split.
        -- intros j Hj. specialize (Hc2 j). rewrite <- app_assoc in Hc2. cbn [app] in Hc2.
           apply Hc2. rewrite length_app. simpl. lia.
        -- apply search_false_all. intros [|j].
           ++ rewrite drop_0.
              specialize (Hc2 (length u)). rewrite <- app_assoc in Hc2. cbn [app] in Hc2.
              rewrite drop_app_length in Hc2. apply Hc2. rewrite length_app. simpl. lia.
           ++ simpl. apply search_false_at. exact Hin2.
Qed.

Lemma sub_settled (s : text) :
  search r (sub r repl s) = false /\
  sub r repl (sub r repl s) = sub r repl s.
Proof.
  destruct (sub_keeps_clear (length s) s []) as [_ H]; [lia| |].
  - intros j Hj. simpl in Hj. lia.
  - split; [exact H|]. apply sub_absent. exact H.
Qed.

End Settles.

(** ** Reading a pattern piece by piece *)

Lemma lang_seq_inv (a b : regex) (m : text) :
  lang (Seq a b) m -> exists m1 m2, m = m1 ++ m2 /\ lang a m1 /\ lang b m2.
Proof. intros H. inversion H; subst. eauto. Qed.

Lemma lang_str_inv (p m : text) : lang (Str p) m -> m = p.
Proof. intros H. inversion H; subst. reflexivity. Qed.

Lemma lang_chr_inv (c : ascii) (m : text) : lang (Chr c) m -> m = [c].
Proof. intros H. inversion H; subst. reflexivity. Qed.

Lemma lang_eps_inv (m : text) : lang Eps m -> m = [].
Proof. intros H. inversion H; subst. reflexivity. Qed.

Lemma lang_cls_inv (f : ascii -> bool) (m : text) :
  lang (Cls f) m -> exists c, m = [c] /\ f c = true.
Proof. intros H. inversion H; subst. eauto. Qed.

Lemma lang_group_inv (i : nat) (a : regex) (m : text) : lang (Group i a) m -> lang a m.
Proof. intros H. inversion H; subst. assumption. Qed.

Lemma lang_opt_chr_inv (c : ascii) (m : text) :
  lang (Opt (Chr c)) m -> m = [] \/ m = [c].
Proof.
  intros H. inversion H; subst; [left; reflexivity|right].
  apply lang_chr_inv. assumption.
Qed.

Lemma lang_star_cls_inv (f : ascii -> bool) (m : text) :
  lang (Star (Cls f)) m -> Forall (fun c => f c = true) m.
Proof.
  intros H. remember (Star (Cls f)) as r eqn:E.
  induction H as [|c|p|f' c Hf|a b m1 m2 H1 IH1 H2 IH2|a|a m1 m2 Hne H1 IH1 H2 IH2
                  |a m1 m2 H1 IH1 H2 IH2|a|a m H1 IH1|i a m H1 IH1];
    try discriminate; [constructor|].
  assert (Ea : a = Cls f) by congruence. subst a.
  destruct (lang_cls_inv f m1 H1) as (c & -> & Hc).
  constructor; [exact Hc|]. apply IH2. reflexivity.
Qed.

Lemma lang_star_cls_intro (f : ascii -> bool) (m : text) :
  Forall (fun c => f c = true) m -> lang (Star (Cls f)) m.
Proof.
  induction 1 as [|c m Hc _ IH]; [constructor|].
  apply (lang_star_cons (Cls f) [c] m); [discriminate|constructor; exact Hc|exact IH].
Qed.

Lemma lang_plus_cls_inv (f : ascii -> bool) (m : text) :
  lang (Plus (Cls f)) m -> m <> [] /\ Forall (fun c => f c = true) m.
Proof.
  intros H.
  assert (Hinv : exists m1 m2, m = m1 ++ m2 /\ lang (Cls f) m1 /\ lang (Star (Cls f)) m2).
  { inversion H; subst. eauto. }
  destruct Hinv as (m1 & m2 & -> & H1 & H2).
  destruct (lang_cls_inv f m1 H1) as (c & -> & Hc). split; [discriminate|].
  constructor; [exact Hc|]. apply lang_star_cls_inv. exact H2.
Qed.

Lemma lang_plus_cls_intro (f : ascii -> bool) (m : text) :
  m <> [] -> Forall (fun c => f c = true) m -> lang (Plus (Cls f)) m.
Proof.
  intros Hne H. destruct m as [|c m]; [congruence|].
  apply Forall_cons in H as [Hc H].
  apply (lang_plus (Cls f) [c] m); [constructor; exact Hc|].
  apply lang_star_cls_intro. exact H.
Qed.

Lemma lang_cat_app (xs tail : list regex) (m : text) :
  lang (cat (xs ++ tail)) m <->
  exists m1 m2, m = m1 ++ m2 /\ lang (cat xs) m1 /\ lang (cat tail) m2.
Proof.
  revert m. induction xs as [|x xs IH]; intros m; cbn [app cat foldr].
  - split.
    + intros H. exists [], m. split; [reflexivity|]. split; [constructor|exact H].
    + intros (m1 & m2 & -> & H1 & H2). apply lang_eps_inv in H1. subst m1. exact H2.
  - split.
    + intros H. apply lang_seq_inv in H as (p1 & p2 & -> & Hx & Hrest).
      apply IH in Hrest as (q1 & q2 & -> & Hq1 & Hq2).
      exists (p1 ++ q1), q2. rewrite app_assoc. split; [reflexivity|].
      split; [constructor; assumption|exact Hq2].
    + intros (m1 & m2 & -> & H1 & H2).
      apply lang_seq_inv in H1 as (p1 & p2 & -> & Hx & Hrest).
      rewrite <- app_assoc. constructor; [exact Hx|].
      apply IH. exists p2, m2. auto.
Qed.

Lemma concat_split_at {X : Type} (segs : list (list X)) (a y : list X) (c : X) :
  concat segs = a ++ c :: y ->
  exists i pre post,
    segs !! i = Some (pre ++ c :: post) /\
    a = concat (take i segs) ++ pre /\
    y = post ++ concat (drop (S i) segs).
Proof.
  revert a. induction segs as [|seg segs IH]; intros a H.
  - destruct a; discriminate.
  - cbn [concat] in H. apply app_eq_app in H as [l [[-> H]|[-> H]]].
    + destruct l as [|c' l].
      * rewrite app_nil_r. simpl in H. symmetry in H.
        destruct (IH [] H) as (i & pre & post & Hi & Ha & Hy).
        exists (S i), pre, post. split; [exact Hi|]. split; [|exact Hy].
        cbn [take concat]. rewrite <- app_assoc, <- Ha, app_nil_r. reflexivity.
      * injection H as <- ->. exists 0, a, l.
        split; [reflexivity|]. split; reflexivity.
    + destruct (IH l H) as (i & pre & post & Hi & Ha & Hy).
      exists (S i), pre, post. split; [exact Hi|]. split; [|exact Hy].
      cbn [take concat]. rewrite <- app_assoc, <- Ha. reflexivity.
Qed.

Lemma prefix_cases (a y M Y : text) :
  a ++ y = M ++ Y ->
  (exists a', a = M ++ a') \/ (exists c l, M = a ++ c :: l /\ y = c :: l ++ Y).
Proof.
  intros H. apply app_eq_app in H as [l [[-> H]|[-> H]]].
  - left. exists l. reflexivity.
  - destruct l as [|c l].
    + left. exists []. rewrite !app_nil_r. reflexivity.
    + right. exists c, l. split; [reflexivity|exact H].
Qed.

Lemma pm_of_prefix (r : regex) (M a' Z : text) : lang r M -> pm r ((M ++ a') ++ Z).
Proof. intros H. exists M, (a' ++ Z). rewrite app_assoc. auto. Qed.

(** The cases of an index into an explicit list of pieces. *)
Ltac case_index i Hi :=
  cbn [lookup list_lookup] in Hi;
  first [ discriminate Hi
        | destruct i as [|i];
          [ cbn [lookup list_lookup] in Hi; injection Hi as Hi | case_index i Hi ] ].

(** A literal text split around one of its characters: the cases. *)
Ltac split_literal H :=
  repeat match type of H with
         | [] = _ ++ _ :: _ => destruct (app_cons_not_nil _ _ _ H)
         | _ :: _ = ?pre ++ _ :: _ =>
             destruct pre as [|? pre]; cbn [app] in H;
             [ first [ discriminate H | injection H as H; subst ]
             | first [ discriminate H | injection H as ? H; subst ] ]
         end.

(** ** The LogArgs patterns replaced by [nil] *)

Lemma Forall_forallb (f : ascii -> bool) (l : text) :
  forallb f l = true -> Forall (fun c => f c = true) l.
Proof.
  induction l as [|c l IH]; simpl; intros H; [constructor|].
  apply andb_true_iff in H as [Hc H]. constructor; auto.
Qed.

Lemma Forall_middle (P : ascii -> Prop) (pre post : text) (c : ascii) :
  Forall P (pre ++ c :: post) -> P c.
Proof. intros H. apply Forall_app in H as [_ H]. apply Forall_cons in H as [H _]. exact H. Qed.

Lemma space_not_paren (c : ascii) : is_space c = true -> is_not ")" c = true.
Proof.
  intros H. unfold is_not. destruct (Ascii.eqb c ")") eqn:E; [|reflexivity].
  apply Ascii.eqb_eq in E. subst c. discriminate.
Qed.

Section LogArgsNil.
Variable tail : list regex.
Hypothesis tail_no_n : forall t, lang (cat tail) t -> ~ In "n"%char t.

Let P : regex := cat (logargs_head ++ tail).
Let repl : groups -> text := expand [TLit (txt "nil")].

Lemma logargs_shape (m : text) :
  lang P m <->
  exists w1 w2 A t,
    m = concat [txt "&pulumi.LogArgs{"; w1; txt "Message:"; w2;
                txt "pulumi.Sprintf("; A; t] /\
    Forall (fun c => is_space c = true) w1 /\
    Forall (fun c => is_space c = true) w2 /\
    A <> [] /\ Forall (fun c => is_not ")" c = true) A /\
    lang (cat tail) t.
Proof.
  unfold P. rewrite lang_cat_app. split.
  - intros (m1 & t & -> & H1 & Ht).
    cbn [logargs_head cat foldr] in H1.
    apply lang_seq_inv in H1 as (p1 & m1' & -> & Hp1 & H1). apply lang_str_inv in Hp1.
    apply lang_seq_inv in H1 as (w1 & m2' & -> & Hw1 & H1). apply lang_star_cls_inv in Hw1.
    apply lang_seq_inv in H1 as (p2 & m3' & -> & Hp2 & H1). apply lang_str_inv in Hp2.
    apply lang_seq_inv in H1 as (w2 & m4' & -> & Hw2 & H1). apply lang_star_cls_inv in Hw2.
    apply lang_seq_inv in H1 as (p3 & m5' & -> & Hp3 & H1). apply lang_str_inv in Hp3.
    apply lang_seq_inv in H1 as (A & m6' & -> & HA & H1). apply lang_plus_cls_inv in HA as [HA1 HA2].
    apply lang_eps_inv in H1. subst.
    exists w1, w2, A, t. cbn [concat]. rewrite !app_nil_r, <- !app_assoc. auto 10.
  - intros (w1 & w2 & A & t & -> & Hw1 & Hw2 & HA1 & HA2 & Ht).
    exists (concat [txt "&pulumi.LogArgs{"; w1; txt "Message:"; w2;
                    txt "pulumi.Sprintf("; A]), t.
    split; [cbn [concat]; rewrite !app_nil_r, <- !app_assoc; reflexivity|].
    split; [|exact Ht].
    cbn [logargs_head cat foldr concat]. 
    repeat (apply lang_seq; [first [ apply lang_str | apply lang_star_cls_intro; assumption
                                   | apply lang_plus_cls_intro; assumption ]|]).
    constructor.
Qed.

Lemma logargs_nonempty : ~ lang P [].
Proof.
  intros H. apply logargs_shape in H as (w1 & w2 & A & t & H & _).
  cbn [concat] in H. discriminate.
Qed.

Lemma logargs_inside (s : text) (g : groups) (rest : text) :
  match_at P s = Some (g, rest) ->
  forall j Z, j < length (repl g) -> ~ pm P (drop j (repl g) ++ Z).
Proof.
  intros _ j Z Hj (M & Y & HM & HlM).
  apply logargs_shape in HlM as (w1 & w2 & A & t & -> & _).
  unfold repl in *. cbn in Hj.
  do 3 (destruct j as [|j]; [cbn in HM; discriminate|]). lia.
Qed.

Lemma logargs_before (s : text) (g : groups) (rest : text) :
  match_at P s = Some (g, rest) ->
  forall a Z, pm P (a ++ repl g ++ Z) -> pm P (a ++ s).
Proof.
  intros E a Z (M & Y & HM & HlM).
  destruct (match_at_lang P s rest g E) as (m0 & -> & Hl0 & _).
  apply prefix_cases in HM as [[a' ->]|(c & l & -> & Hy)].
  { apply pm_of_prefix. exact HlM. }
  unfold repl in Hy. cbn in Hy. injection Hy as <- Hy.
  apply logargs_shape in HlM as (w1 & w2 & A & t & HM & Hw1 & Hw2 & HA1 & HA2 & Ht).
  symmetry in HM. apply concat_split_at in HM as (i & pre & post & Hi & Ha & Hl).
  case_index i Hi.
  - split_literal Hi.
  - rewrite Hi in Hw1. apply Forall_middle in Hw1. discriminate.
  - split_literal Hi.
  - rewrite Hi in Hw2. apply Forall_middle in Hw2. discriminate.
  - split_literal Hi; try subst l; cbn in Hy; discriminate.
  - subst A a. clear Hl Hy l.
    apply logargs_shape in Hl0 as (v1 & v2 & B & t0 & -> & Hv1 & Hv2 & HB1 & HB2 & Ht0).
    exists (concat [txt "&pulumi.LogArgs{"; w1; txt "Message:"; w2;
                    txt "pulumi.Sprintf(";
                    pre ++ concat [txt "&pulumi.LogArgs{"; v1; txt "Message:"; v2;
                                   txt "pulumi.Sprintf("; B];
                    t0]), rest.
    split.
    + cbn [concat take]. rewrite !app_nil_r, <- !app_assoc. reflexivity.
    + apply logargs_shape. eexists w1, w2, _, t0.
      split; [reflexivity|]. split; [exact Hw1|]. split; [exact Hw2|].
      split; [|split; [|exact Ht0]].
      * destruct pre; discriminate.
      * apply Forall_app in HA2 as [Hpre _].
        cbn [concat]. rewrite app_nil_r.
        repeat (apply Forall_app; split);
          first [ assumption
                | apply Forall_forallb; vm_compute; reflexivity
                | eapply Forall_impl; [eassumption|exact space_not_paren] ].
  - rewrite Hi in Ht. destruct (tail_no_n _ Ht). apply in_elt.
Qed.

Lemma logargs_settles : settles P repl.
Proof.
  constructor.
  - exact logargs_nonempty.
  - exact logargs_inside.
  - exact logargs_before.
Qed.

End LogArgsNil.

Lemma orchestrator_tail_no_n (t : text) :
  lang (cat [Chr ")"; Star (Cls is_space); Chr "}"]) t -> ~ In "n"%char t.
Proof.
  cbn [cat foldr]. intros H.
  apply lang_seq_inv in H as (p1 & m1 & -> & Hp1 & H). apply lang_chr_inv in Hp1.
  apply lang_seq_inv in H as (w & m2 & -> & Hw & H). apply lang_star_cls_inv in Hw.
  apply lang_seq_inv in H as (p2 & m3 & -> & Hp2 & H). apply lang_chr_inv in Hp2.
  apply lang_eps_inv in H. subst. intros Hin.
  repeat (apply in_app_or in Hin as [Hin|Hin]).
  - destruct Hin as [Hin|[]]. discriminate.
  - rewrite Forall_forall in Hw. apply list_elem_of_In in Hin.
    specialize (Hw _ Hin). discriminate.
  - destruct Hin as [Hin|[]]. discriminate.
  - destruct Hin.
Qed.

Lemma final_tail_no_n (t : text) :
  lang (cat [Chr ")"; Opt (Chr ","); Star (Cls is_space); Chr "}"]) t -> ~ In "n"%char t.
Proof.
  cbn [cat foldr]. intros H.
  apply lang_seq_inv in H as (p1 & m1 & -> & Hp1 & H). apply lang_chr_inv in Hp1.
  apply lang_seq_inv in H as (o & m2 & -> & Ho & H). apply lang_opt_chr_inv in Ho.
  apply lang_seq_inv in H as (w & m3 & -> & Hw & H). apply lang_star_cls_inv in Hw.
  apply lang_seq_inv in H as (p2 & m4 & -> & Hp2 & H). apply lang_chr_inv in Hp2.
  apply lang_eps_inv in H. subst. intros Hin.
  repeat (apply in_app_or in Hin as [Hin|Hin]).
  - destruct Hin as [Hin|[]]. discriminate.
  - destruct Ho as [->| ->]; [destruct Hin|]. destruct Hin as [Hin|[]]. discriminate.
  - rewrite Forall_forall in Hw. apply list_elem_of_In in Hin.
    specialize (Hw _ Hin). discriminate.
  - destruct Hin as [Hin|[]]. discriminate.
  - destruct Hin.
Qed.

Lemma orchestrator_logargs_idempotent (c : text) :
  let fix1 := ReSub FixOrchestrator.logargs_pattern [TLit (txt "nil")] in
  apply_rule fix1 (apply_rule fix1 c) = apply_rule fix1 c.
Proof.
  cbv zeta. cbn [apply_rule]. unfold sub_template.
  exact (proj2 (sub_settled _ _ (logargs_settles _ orchestrator_tail_no_n) c)).
Qed.

Lemma final_logargs_idempotent (c : text) :
  let fix4 := ReSub FixFinalErrors.logargs_pattern [TLit (txt "nil")] in
  apply_rule fix4 (apply_rule fix4 c) = apply_rule fix4 c.
Proof.
  cbv zeta. cbn [apply_rule]. unfold sub_template.
  exact (proj2 (sub_settled _ _ (logargs_settles _ final_tail_no_n) c)).
Qed.

(** ** The groups of a match *)

(** A pattern that does not set group [i] hands it on as it got it. *)
Section Keeps.
Context {A : Type}.
Variable i : nat.

Lemma star_keeps (a : regex) (n : nat) :
  (forall s g (k : @cont A) x, rmatch a s g k = Some x ->
     exists pre s' g', s = pre ++ s' /\ lang a pre /\ g' !! i = g !! i /\
                       k s' g' = Some x) ->
  forall s g (k : @cont A) x, star (rmatch a) n s g k = Some x ->
    exists pre s' g', s = pre ++ s' /\ lang (Star a) pre /\ g' !! i = g !! i /\
                      k s' g' = Some x.
Proof.
  intros Ha. induction n as [|n IH]; intros s g k x H; cbn [star] in H.
  - exists [], s, g. split; [reflexivity|]. split; [constructor|]. split; [reflexivity|exact H].
  - destruct (rmatch a s g _) as [y|] eqn:E.
    + injection H as ->.
      destruct (Ha _ _ _ _ E) as (pre1 & s1 & g1 & -> & Hl1 & Hg1 & H1).
      destruct (length s1 <? length (pre1 ++ s1)) eqn:Elt; [|discriminate].
      apply Nat.ltb_lt in Elt. rewrite length_app in Elt.
      destruct (IH _ _ _ _ H1) as (pre2 & s2 & g2 & -> & Hl2 & Hg2 & H2).
      exists (pre1 ++ pre2), s2, g2. rewrite <- app_assoc.
      split; [reflexivity|]. split; [|split; [congruence|exact H2]].
      apply lang_star_cons; [|exact Hl1|exact Hl2].
      intros ->. simpl in Elt. lia.
    + exists [], s, g. split; [reflexivity|]. split; [constructor|]. split; [reflexivity|exact H].
Qed.

Lemma rmatch_keeps (r : regex) :
  keeps i r = true ->
  forall s g (k : @cont A) x, rmatch r s g k = Some x ->
    exists pre s' g', s = pre ++ s' /\ lang r pre /\ g' !! i = g !! i /\
                      k s' g' = Some x.
Proof.
  induction r as [|c|p|p|r1 IH1 r2 IH2|r IH|r IH|r IH|j r IH];
    intros Hk s g k x H; cbn [rmatch] in H; cbn [keeps] in Hk.
  - exists [], s, g. split; [reflexivity|]. split; [constructor|]. split; [reflexivity|exact H].
  - destruct s as [|c' s]; [discriminate|].
    destruct (Ascii.eqb c c') eqn:E; [|discriminate]. apply Ascii.eqb_eq in E. subst c'.
    exists [c], s, g. split; [reflexivity|]. split; [constructor|]. split; [reflexivity|exact H].
  - destruct (startswith p s) eqn:E; [|discriminate].
    exists p, (drop (length p) s), g.
    split; [apply startswith_split, E|]. split; [constructor|]. split; [reflexivity|exact H].
  - destruct s as [|c' s]; [discriminate|].
    destruct (p c') eqn:E; [|discriminate].
    exists [c'], s, g. split; [reflexivity|]. split; [constructor; exact E|].
    split; [reflexivity|exact H].
  - apply andb_true_iff in Hk as [Hk1 Hk2].
    destruct (IH1 Hk1 _ _ _ _ H) as (pre1 & s1 & g1 & -> & Hl1 & Hg1 & H1).
    destruct (IH2 Hk2 _ _ _ _ H1) as (pre2 & s2 & g2 & -> & Hl2 & Hg2 & H2).
    exists (pre1 ++ pre2), s2, g2. rewrite <- app_assoc.
    split; [reflexivity|]. split; [constructor; assumption|]. split; [congruence|exact H2].
  - exact (star_keeps _ _ (IH Hk) _ _ _ _ H).
  - destruct (IH Hk _ _ _ _ H) as (pre1 & s1 & g1 & -> & Hl1 & Hg1 & H1).
    destruct (star_keeps _ _ (IH Hk) _ _ _ _ H1) as (pre2 & s2 & g2 & -> & Hl2 & Hg2 & H2).
    exists (pre1 ++ pre2), s2, g2. rewrite <- app_assoc.
    split; [reflexivity|]. split; [constructor; assumption|]. split; [congruence|exact H2].
  - destruct (rmatch r s g k) as [y|] eqn:E.
    + injection H as ->.
      destruct (IH Hk _ _ _ _ E) as (pre & s' & g' & -> & Hl & Hg & H').
      exists pre, s', g'. split; [reflexivity|]. split; [apply lang_opt, Hl|]. split; assumption.
    + exists [], s, g. split; [reflexivity|]. split; [constructor|]. split; [reflexivity|exact H].
  - apply andb_true_iff in Hk as [Hij Hk]. apply negb_true_iff, Nat.eqb_neq in Hij.
    destruct (IH Hk _ _ _ _ H) as (pre1 & s1 & g1 & -> & Hl1 & Hg1 & H1).
    exists pre1, s1, (<[j := take (length (pre1 ++ s1) - length s1) (pre1 ++ s1)]> g1).
    split; [reflexivity|]. split; [constructor; exact Hl1|]. split; [|exact H1].
    rewrite lookup_insert_ne by congruence. exact Hg1.
Qed.

End Keeps.

Lemma take_matched (m rest : text) :
  take (length (m ++ rest) - length rest) (m ++ rest) = m.
Proof. rewrite length_app, Nat.add_sub. apply take_app_length. Qed.

(** The text of group [i] after a match: what the group's pattern matched,
    when nothing after the group sets [i] again. *)
Lemma match_at_group_first (i : nat) (r1 post : regex) (s rest : text) (g : groups) :
  i <> 0 -> keeps i post = true ->
  match_at (Seq (Group i r1) post) s = Some (g, rest) ->
  exists m1 m2, s = m1 ++ m2 ++ rest /\ lang r1 m1 /\ lang post m2 /\ group g i = m1.
Proof.
  intros Hi Hk H. unfold match_at in H. cbn [rmatch] in H.
  destruct (rmatch_sound r1 _ _ _ _ H) as (m1 & s1 & g1 & Hs & Hl1 & H1).
  cbv beta in H1.
  destruct (rmatch_keeps i post Hk _ _ _ _ H1) as (m2 & s2 & g2 & -> & Hl2 & Hg & H2).
  injection H2 as <- <-. exists m1, m2. split; [exact Hs|]. split; [exact Hl1|].
  split; [exact Hl2|]. unfold group.
  rewrite lookup_insert_ne by congruence. rewrite Hg, lookup_insert_eq. cbn [default].
  rewrite Hs. apply take_matched.
Qed.

Lemma match_at_group_second (i : nat) (r0 r1 post : regex) (s rest : text)
      (g : groups) :
  i <> 0 -> keeps i post = true ->
  match_at (Seq r0 (Seq (Group i r1) post)) s = Some (g, rest) ->
  exists m0 m1 m2,
    s = m0 ++ m1 ++ m2 ++ rest /\ lang r0 m0 /\ lang r1 m1 /\ lang post m2 /\
    group g i = m1.
Proof.
  intros Hi Hk H. unfold match_at in H. cbn [rmatch] in H.
  destruct (rmatch_sound r0 _ _ _ _ H) as (m0 & s0 & g0 & Hs0 & Hl0 & H0).
  cbv beta in H0.
  destruct (rmatch_sound r1 _ _ _ _ H0) as (m1 & s1 & g1 & Hs & Hl1 & H1).
  cbv beta in H1.
  destruct (rmatch_keeps i post Hk _ _ _ _ H1) as (m2 & s2 & g2 & -> & Hl2 & Hg & H2).
  injection H2 as <- <-. exists m0, m1, m2. split; [rewrite Hs0, Hs; reflexivity|].
  split; [exact Hl0|]. split; [exact Hl1|].
  split; [exact Hl2|]. unfold group.
  rewrite lookup_insert_ne by congruence. rewrite Hg, lookup_insert_eq. cbn [default].
  rewrite Hs. apply take_matched.
Qed.

(** Two readings of a text as a run of [f] characters, a character that is
    not one, and a rest are the same reading. *)
Lemma first_stop_unique (f : ascii -> bool) (l1 l2 : text) (c1 c2 : ascii)
      (r1 r2 : text) :
  Forall (fun c => f c = true) l1 -> Forall (fun c => f c = true) l2 ->
  f c1 = false -> f c2 = false ->
  l1 ++ c1 :: r1 = l2 ++ c2 :: r2 ->
  l1 = l2 /\ c1 = c2 /\ r1 = r2.
Proof.
  intros H1 H2 Hc1 Hc2. revert l2 H2.
  induction H1 as [|a l1 Ha H1 IH]; intros l2 H2 E.
  - destruct H2 as [|b l2 Hb H2]; cbn [app] in E.
    + injection E as -> ->. auto.
    + injection E as -> _. congruence.
  - destruct H2 as [|b l2 Hb H2]; cbn [app] in E.
    + injection E as -> _. congruence.
    + injection E as -> E. destruct (IH l2 H2 E) as (-> & -> & ->). auto.
Qed.

(** ** The [pulumi.Map] conversion of [fix_final_errors.py] *)

(** The replacement [pulumi.ToMap(...)] holds no [pulumi.Map(]: what is in the
    parentheses is made of word characters, and a match cannot run over
    the full stop of [pulumi.ToMap]. *)
Section MapSettles.

Let P : regex := FixFinalErrors.map_pattern.
Let repl : groups -> text :=
  expand [TLit (txt "pulumi.ToMap("); TRef 1; TLit (txt ")")].

Lemma outputs_shape (m : text) :
  lang (cat [Plus (Cls is_word); Str (txt "Outputs")]) m ->
  exists W, m = W ++ txt "Outputs" /\ Forall (fun c => is_word c = true) W.
Proof.
  cbn [cat foldr]. intros H.
  apply lang_seq_inv in H as (W & m1 & -> & HW & H). apply lang_plus_cls_inv in HW as [_ HW].
  apply lang_seq_inv in H as (p & m2 & -> & Hp & H). apply lang_str_inv in Hp.
  apply lang_eps_inv in H. subst. exists W. rewrite app_nil_r. auto.
Qed.

Lemma map_shape (m : text) :
  lang P m ->
  exists W, m = txt "pulumi.Map(" ++ W ++ txt "Outputs" ++ txt ")" /\
            Forall (fun c => is_word c = true) W.
Proof.
  unfold P, FixFinalErrors.map_pattern. cbn [cat foldr]. intros H.
  apply lang_seq_inv in H as (p & m1 & -> & Hp & H). apply lang_str_inv in Hp.
  apply lang_seq_inv in H as (G & m2 & -> & HG & H). apply lang_group_inv in HG.
  apply outputs_shape in HG as (W & -> & HW).
  apply lang_seq_inv in H as (q & m3 & -> & Hq & H). apply lang_chr_inv in Hq.
  apply lang_eps_inv in H. subst. exists W. rewrite <- !app_assoc. auto.
Qed.

Lemma map_repl (s : text) (g : groups) (rest : text) :
  match_at P s = Some (g, rest) ->
  exists W, repl g = txt "pulumi.ToMap(" ++ (W ++ txt "Outputs") ++ txt ")" /\
            Forall (fun c => is_word c = true) (W ++ txt "Outputs").
Proof.
  unfold P, FixFinalErrors.map_pattern. cbn [cat foldr]. intros E.
  apply match_at_group_second in E as (m0 & m1 & m2 & _ & _ & H1 & _ & Hg);
    [|discriminate|reflexivity].
  apply outputs_shape in H1 as (W & -> & HW).
  exists W. split.
  - unfold repl. cbn [expand flat_map]. rewrite Hg, app_nil_r. reflexivity.
  - apply Forall_app. split; [exact HW|]. apply Forall_forallb. reflexivity.
Qed.

Lemma map_nonempty : ~ lang P [].
Proof. intros H. apply map_shape in H as (W & H & _). discriminate. Qed.

Lemma map_inside (s : text) (g : groups) (rest : text) :
  match_at P s = Some (g, rest) ->
  forall j Z, j < length (repl g) -> ~ pm P (drop j (repl g) ++ Z).
Proof.
  intros E j Z Hj (M & Y & HM & HlM).
  apply map_repl in E as (G & HG & HW). rewrite HG in HM, Hj. clear HG.
  apply map_shape in HlM as (W' & -> & _).
  do 13 (destruct j as [|j]; [cbn in HM; discriminate|]).
  cbn [txt list_ascii_of_string app drop] in HM.
  rewrite length_app in Hj. cbn [txt list_ascii_of_string length] in Hj.
  rewrite length_app in Hj. cbn [length] in Hj.
  rewrite drop_app_le in HM by lia. rewrite <- !app_assoc in HM.
  assert (H1 : Forall (fun c => is_word c = true) (drop j (G ++ txt "Outputs")))
    by (apply Forall_drop; exact HW).
  assert (H2 : Forall (fun c => is_word c = true) (txt "pulumi"))
    by (apply Forall_forallb; reflexivity).
  destruct (first_stop_unique is_word _ _ ")" "." Z _ H1 H2 eq_refl eq_refl HM)
    as (_ & Hc & _).
  discriminate.
Qed.

Lemma map_before (s : text) (g : groups) (rest : text) :
  match_at P s = Some (g, rest) ->
  forall a Z, pm P (a ++ repl g ++ Z) -> pm P (a ++ s).
Proof.
  intros E a Z (M & Y & HM & HlM).
  destruct (match_at_lang P s rest g E) as (m0 & -> & Hl0 & _).
  apply prefix_cases in HM as [[a' ->]|(c & l & -> & Hy)].
  { apply pm_of_prefix. exact HlM. }
  exfalso.
  apply map_repl in E as (G & HG & HW). rewrite HG in Hy. clear HG.
  cbn [txt list_ascii_of_string app] in Hy. injection Hy as <- Hy.
  apply map_shape in HlM as (W' & HM & HW').
  assert (HM' : concat [txt "pulumi.Map("; W'; txt "Outputs"; txt ")"] =
                a ++ "p"%char :: l)
    by (cbn [concat]; rewrite app_nil_r; symmetry; exact HM).
  clear HM. rename HM' into HM.
  apply concat_split_at in HM as (i & pre & post & Hi & Ha & Hl).
  case_index i Hi.
  - split_literal Hi; try subst l; cbn in Hy; discriminate.
  - subst l. cbn [drop concat] in Hy. rewrite app_nil_r, <- !app_assoc in Hy.
    rewrite (app_assoc post) in Hy.
    rewrite Hi in HW'. apply Forall_app in HW' as [_ HW'].
    apply Forall_cons in HW' as [_ Hpost].
    assert (H1 : Forall (fun c => is_word c = true) (txt "ulumi"))
      by (apply Forall_forallb; reflexivity).
    assert (H2 : Forall (fun c => is_word c = true) (post ++ txt "Outputs")).
    { apply Forall_app. split; [exact Hpost|]. apply Forall_forallb. reflexivity. }
    destruct (first_stop_unique is_word _ _ "." ")" _ Y H1 H2 eq_refl eq_refl Hy)
      as (_ & Hc & _).
    discriminate.
  - split_literal Hi; try subst l; cbn in Hy; discriminate.
  - split_literal Hi.
Qed.

Lemma map_settles : settles P repl.
Proof.
  constructor.
  - exact map_nonempty.
  - exact map_inside.
  - exact map_before.
Qed.

End MapSettles.

Lemma map_conversion_idempotent (c : text) :
  let fix3 := ReSub FixFinalErrors.map_pattern
                    [TLit (txt "pulumi.ToMap("); TRef 1; TLit (txt ")")] in
  apply_rule fix3 (apply_rule fix3 c) = apply_rule fix3 c.
Proof.
  cbv zeta. cbn [apply_rule]. unfold sub_template.
  exact (proj2 (sub_settled _ _ map_settles c)).
Qed.

(** ** The first substitution of [fix_logargs.py] *)

Lemma cls_is_not (f : ascii -> bool) (x c : ascii) :
  f x = false -> f c = true -> is_not x c = true.
Proof.
  intros Hx Hc. unfold is_not. destruct (Ascii.eqb c x) eqn:E; [|reflexivity].
  apply Ascii.eqb_eq in E. subst c. congruence.
Qed.

Lemma Forall_is_not (f : ascii -> bool) (x : ascii) (l : text) :
  f x = false -> Forall (fun c => f c = true) l ->
  Forall (fun c => is_not x c = true) l.
Proof.
  intros Hx H. eapply Forall_impl; [exact H|].
  intros c. apply cls_is_not. exact Hx.
Qed.

(** The replacement is the call up to its comma and white space, followed by
    [nil].  A match that starts in it would need [&pulumi.LogArgs{] after
    that comma; a match that starts before it and runs over [nil] has it
    among its [Sprintf] arguments, and then the text before the replacement
    matched with the original [Sprintf] arguments in their place. *)
Section Pattern1Settles.

Let P : regex := FixLogargs.pattern1.
Let repl : groups -> text := expand [TRef 1; TLit (txt "nil")].
Let call_head : regex :=
  cat [Str (txt "Log."); Plus (Cls is_word); Chr "(";
       Plus (Cls (is_not ",")); Chr ","; Star (Cls is_space)].
Let logargs_body : regex :=
  cat [Str (txt "&pulumi.LogArgs{"); Star (Cls is_space);
       Str (txt "Message:"); Star (Cls is_space);
       Group 2 (cat [Str (txt "pulumi.Sprintf("); Plus (Cls (is_not ")")); Chr ")"]);
       Star (Cls is_space); Chr "}"].

Lemma call_head_shape (h : text) :
  lang call_head h ->
  exists W A S,
    h = concat [txt "Log."; W; txt "("; A; txt ","; S] /\
    Forall (fun c => is_word c = true) W /\
    Forall (fun c => is_not "," c = true) A /\
    Forall (fun c => is_space c = true) S.
Proof.
  unfold call_head. cbn [cat foldr]. intros H.
  apply lang_seq_inv in H as (p1 & m1 & -> & Hp1 & H). apply lang_str_inv in Hp1.
  apply lang_seq_inv in H as (W & m2 & -> & HW & H). apply lang_plus_cls_inv in HW as [_ HW].
  apply lang_seq_inv in H as (p2 & m3 & -> & Hp2 & H). apply lang_chr_inv in Hp2.
  apply lang_seq_inv in H as (A & m4 & -> & HA & H). apply lang_plus_cls_inv in HA as [_ HA].
  apply lang_seq_inv in H as (p3 & m5 & -> & Hp3 & H). apply lang_chr_inv in Hp3.
  apply lang_seq_inv in H as (S & m6 & -> & HS & H). apply lang_star_cls_inv in HS.
  apply lang_eps_inv in H. subst.
  exists W, A, S. cbn [concat]. auto.
Qed.

Lemma logargs_body_shape (b : text) :
  lang logargs_body b ->
  exists S1 S2 B S3,
    b = concat [txt "&pulumi.LogArgs{"; S1; txt "Message:"; S2;
                txt "pulumi.Sprintf("; B; txt ")"; S3; txt "}"] /\
    Forall (fun c => is_space c = true) S1 /\
    Forall (fun c => is_space c = true) S2 /\
    B <> [] /\ Forall (fun c => is_not ")" c = true) B /\
    Forall (fun c => is_space c = true) S3.
Proof.
  unfold logargs_body. cbn [cat foldr]. intros H.
  apply lang_seq_inv in H as (p1 & m1 & -> & Hp1 & H). apply lang_str_inv in Hp1.
  apply lang_seq_inv in H as (S1 & m2 & -> & HS1 & H). apply lang_star_cls_inv in HS1.
  apply lang_seq_inv in H as (p2 & m3 & -> & Hp2 & H). apply lang_str_inv in Hp2.
  apply lang_seq_inv in H as (S2 & m4 & -> & HS2 & H). apply lang_star_cls_inv in HS2.
  apply lang_seq_inv in H as (G & m5 & -> & HG & H). apply lang_group_inv in HG.
  apply lang_seq_inv in HG as (p3 & n1 & -> & Hp3 & HG). apply lang_str_inv in Hp3.
  apply lang_seq_inv in HG as (B & n2 & -> & HB & HG). apply lang_plus_cls_inv in HB as [HB1 HB2].
  apply lang_seq_inv in HG as (p4 & n3 & -> & Hp4 & HG). apply lang_chr_inv in Hp4.
  apply lang_eps_inv in HG.
  apply lang_seq_inv in H as (S3 & m6 & -> & HS3 & H). apply lang_star_cls_inv in HS3.
  apply lang_seq_inv in H as (p5 & m7 & -> & Hp5 & H). apply lang_chr_inv in Hp5.
  apply lang_eps_inv in H. subst.
  exists S1, S2, B, S3. cbn [concat]. rewrite !app_nil_r, <- !app_assoc. auto 10.
Qed.

Lemma pattern1_split (m : text) :
  lang P m -> exists h b, m = h ++ b /\ lang call_head h /\ lang logargs_body b.
Proof.
  unfold P, FixLogargs.pattern1. cbn [cat foldr]. intros H.
  apply lang_seq_inv in H as (h & b & -> & Hh & Hb). apply lang_group_inv in Hh.
  exists h, b. auto.
Qed.

(** The other way round: a call head and the pieces of a body make a match. *)
Lemma pattern1_join (h S1 S2 B S3 : text) :
  lang call_head h ->
  Forall (fun c => is_space c = true) S1 ->
  Forall (fun c => is_space c = true) S2 ->
  B <> [] -> Forall (fun c => is_not ")" c = true) B ->
  Forall (fun c => is_space c = true) S3 ->
  lang P (h ++ concat [txt "&pulumi.LogArgs{"; S1; txt "Message:"; S2;
                       txt "pulumi.Sprintf("; B; txt ")"; S3; txt "}"]).
Proof.
  intros Hh H1 H2 HB1 HB2 H3.
  unfold P, FixLogargs.pattern1. cbn [cat foldr].
  apply lang_seq; [apply lang_group; exact Hh|].
  replace (concat [txt "&pulumi.LogArgs{"; S1; txt "Message:"; S2;
                   txt "pulumi.Sprintf("; B; txt ")"; S3; txt "}"])
    with (txt "&pulumi.LogArgs{" ++ S1 ++ txt "Message:" ++ S2 ++
          (txt "pulumi.Sprintf(" ++ B ++ [")"%char] ++ []) ++ S3 ++ ["}"%char] ++ [])
    by (cbn [concat]; rewrite !app_nil_r, <- !app_assoc; reflexivity).
  repeat (apply lang_seq;
          [first [ apply lang_str | apply lang_chr
                 | apply lang_star_cls_intro; assumption
                 | apply lang_group ]|]); [|constructor].
  repeat (apply lang_seq;
          [first [ apply lang_str | apply lang_chr
                 | apply lang_plus_cls_intro; assumption ]|]).
  constructor.
Qed.

Lemma pattern1_repl (s : text) (g : groups) (rest : text) :
  match_at P s = Some (g, rest) ->
  exists h b, s = h ++ b ++ rest /\ lang call_head h /\ lang logargs_body b /\
              repl g = h ++ txt "nil".
Proof.
  unfold P, FixLogargs.pattern1. cbn [cat foldr]. intros E.
  apply match_at_group_first in E as (h & b & -> & Hh & Hb & Hg);
    [|discriminate|reflexivity].
  exists h, b. split; [reflexivity|]. split; [exact Hh|]. split; [exact Hb|].
  unfold repl. cbn [expand flat_map]. rewrite Hg, app_nil_r. reflexivity.
Qed.

Lemma call_head_has_comma (h : text) :
  lang call_head h -> ~ Forall (fun c => is_not "," c = true) h.
Proof.
  intros H F. apply call_head_shape in H as (W & A & S & -> & _).
  cbn [concat] in F. rewrite !app_assoc in F.
  apply Forall_app in F as [F _]. apply Forall_app in F as [F _].
  apply Forall_app in F as [_ F]. apply Forall_cons in F as [F _]. discriminate.
Qed.

Lemma pattern1_nonempty : ~ lang P [].
Proof.
  intros H. apply pattern1_split in H as (h & b & E & Hh & _).
  symmetry in E. apply app_eq_nil in E as [-> _].
  apply call_head_shape in Hh as (W & A & S & E & _). discriminate.
Qed.

Lemma pattern1_inside (s : text) (g : groups) (rest : text) :
  match_at P s = Some (g, rest) ->
  forall j Z, j < length (repl g) -> ~ pm P (drop j (repl g) ++ Z).
Proof.
  intros E j Z Hj (M & Y & HM & HlM).
  apply pattern1_repl in E as (h & b & _ & Hh & _ & Hr). rewrite Hr in HM, Hj. clear Hr.
  apply pattern1_split in HlM as (h' & b' & -> & Hh' & Hb').
  apply call_head_shape in Hh as (W & A & S & -> & HW & HA & HS).
  apply call_head_shape in Hh' as (W' & A' & S' & -> & HW' & HA' & HS').
  apply logargs_body_shape in Hb' as (S1 & S2 & B & S3 & -> & _).
  assert (EX : exists X,
             concat [txt "Log."; W; txt "("; A; txt ","; S] ++ txt "nil" =
             X ++ ","%char :: (S ++ txt "nil") /\
             Forall (fun c => is_not "," c = true) X).
  { exists (txt "Log." ++ W ++ txt "(" ++ A). split.
    - cbn [concat]. rewrite app_nil_r, <- !app_assoc. reflexivity.
    - repeat (apply Forall_app; split);
        first [ assumption | apply Forall_forallb; reflexivity
              | apply (Forall_is_not is_word); [reflexivity|assumption] ]. }
  destruct EX as (X & EX & HX). rewrite EX in HM, Hj. clear EX.
  rewrite length_app in Hj. cbn [length] in Hj.
  destruct (le_lt_dec j (length X)) as [Hle|Hgt].
  - rewrite drop_app_le in HM by exact Hle.
    assert (EM : exists X' R,
               concat [txt "Log."; W'; txt "("; A'; txt ","; S'] ++
               concat [txt "&pulumi.LogArgs{"; S1; txt "Message:"; S2;
                       txt "pulumi.Sprintf("; B; txt ")"; S3; txt "}"] =
               X' ++ ","%char :: (S' ++ "&"%char :: R) /\
               Forall (fun c => is_not "," c = true) X').
    { exists (txt "Log." ++ W' ++ txt "(" ++ A'). eexists. split.
      - cbn [concat]. rewrite !app_nil_r, <- !app_assoc. reflexivity.
      - repeat (apply Forall_app; split);
          first [ assumption | apply Forall_forallb; reflexivity
                | apply (Forall_is_not is_word); [reflexivity|assumption] ]. }
    destruct EM as (X' & R & EM & HX'). rewrite EM in HM. clear EM.
    rewrite <- !app_assoc in HM.
    change (drop j X ++ ","%char :: ((S ++ txt "nil") ++ Z) =
            X' ++ ","%char :: ((S' ++ "&"%char :: R) ++ Y)) in HM.
    rewrite <- !app_assoc in HM.
    assert (HdX : Forall (fun c => is_not "," c = true) (drop j X))
      by (apply Forall_drop; exact HX).
    destruct (first_stop_unique (is_not ",") _ _ "," "," _ _ HdX HX' eq_refl eq_refl HM)
      as (_ & _ & HM2).
    destruct (first_stop_unique is_space _ _ "n" "&" _ _ HS HS' eq_refl eq_refl HM2)
      as (_ & Hc & _).
    discriminate.
  - rewrite drop_app_ge in HM by lia.
    destruct (j - length X) as [|k] eqn:Ek; [lia|]. cbn [drop] in HM.
    destruct (drop k (S ++ txt "nil")) as [|c t] eqn:Ed.
    + apply (f_equal length) in Ed. rewrite length_drop in Ed. cbn [length] in Ed. lia.
    + assert (F : Forall (fun c => is_not "L" c = true) (c :: t)).
      { rewrite <- Ed. apply Forall_drop. apply Forall_app. split.
        - apply (Forall_is_not is_space); [reflexivity|exact HS].
        - apply Forall_forallb. reflexivity. }
      apply Forall_cons in F as [F _].
      cbn in HM. injection HM as -> _. discriminate.
Qed.

Lemma pattern1_before (s : text) (g : groups) (rest : text) :
  match_at P s = Some (g, rest) ->
  forall a Z, pm P (a ++ repl g ++ Z) -> pm P (a ++ s).
Proof.
  intros E a Z (M & Y & HM & HlM).
  apply pattern1_repl in E as (h & b & -> & Hh & Hb & Hr). rewrite Hr in HM. clear Hr.
  rewrite <- app_assoc in HM. rewrite app_assoc in HM.
  apply prefix_cases in HM as [[a' HM]|(c & l & -> & Hy)].
  { exists M, (a' ++ b ++ rest). split; [|exact HlM].
    rewrite (app_assoc a h), HM, <- app_assoc. reflexivity. }
  cbn in Hy. injection Hy as <- Hy.
  apply pattern1_split in HlM as (h' & b' & HM & Hh' & Hb').
  destruct (call_head_shape h' Hh') as (W' & A' & S' & -> & HW' & HA' & HS').
  apply logargs_body_shape in Hb' as (S1 & S2 & B & S3 & -> & H1 & H2 & HB1 & HB2 & H3).
  rewrite <- concat_app in HM. cbn [app] in HM.
  symmetry in HM. apply concat_split_at in HM as (i & pre & post & Hi & Ha & Hl).
  case_index i Hi.
  - split_literal Hi.
  - destruct (call_head_has_comma h Hh).
    assert (F : Forall (fun c => is_not "," c = true) (a ++ h)).
    { rewrite Ha. cbn [take concat]. rewrite app_nil_r.
      rewrite Hi in HW'. apply Forall_app in HW' as [HW' _].
      repeat (apply Forall_app; split);
        first [ assumption | apply Forall_forallb; reflexivity
              | apply (Forall_is_not is_word); [reflexivity|assumption] ]. }
    apply Forall_app in F as [_ F]. exact F.
  - split_literal Hi.
  - destruct (call_head_has_comma h Hh).
    assert (F : Forall (fun c => is_not "," c = true) (a ++ h)).
    { rewrite Ha. cbn [take concat]. rewrite app_nil_r.
      rewrite Hi in HA'. apply Forall_app in HA' as [HA' _].
      repeat (apply Forall_app; split);
        first [ assumption | apply Forall_forallb; reflexivity
              | apply (Forall_is_not is_word); [reflexivity|assumption] ]. }
    apply Forall_app in F as [_ F]. exact F.
  - split_literal Hi.
  - rewrite Hi in HS'. apply Forall_middle in HS'. discriminate.
  - split_literal Hi.
  - rewrite Hi in H1. apply Forall_middle in H1. discriminate.
  - split_literal Hi.
  - rewrite Hi in H2. apply Forall_middle in H2. discriminate.
  - split_literal Hi; try subst l; cbn in Hy; discriminate.
  - subst B. clear Hl Hy l.
    apply logargs_body_shape in Hb as (T1 & T2 & B0 & T3 & -> & HT1 & HT2 & HB01 & HB02 & HT3).
    exists (concat [txt "Log."; W'; txt "("; A'; txt ","; S'] ++
            concat [txt "&pulumi.LogArgs{"; S1; txt "Message:"; S2;
                    txt "pulumi.Sprintf(";
                    pre ++ concat [txt "&pulumi.LogArgs{"; T1; txt "Message:"; T2;
                                   txt "pulumi.Sprintf("; B0];
                    txt ")"; T3; txt "}"]), rest.
    split.
    + rewrite (app_assoc a h), Ha. cbn [concat take].
      rewrite !app_nil_r, <- !app_assoc. reflexivity.
    + apply pattern1_join; try assumption.
      * destruct pre; discriminate.
      * apply Forall_app in HB2 as [Hpre _].
        cbn [concat]. rewrite app_nil_r.
        repeat (apply Forall_app; split);
          first [ assumption | apply Forall_forallb; reflexivity
                | apply (Forall_is_not is_space); [reflexivity|assumption] ].
  - split_literal Hi.
  - rewrite Hi in H3. apply Forall_middle in H3. discriminate.
  - split_literal Hi.
Qed.

Lemma pattern1_settles : settles P repl.
Proof.
  constructor.
  - exact pattern1_nonempty.
  - exact pattern1_inside.
  - exact pattern1_before.
Qed.

End Pattern1Settles.

Lemma pattern1_idempotent (c : text) :
  let sub1 := ReSub FixLogargs.pattern1 [TRef 1; TLit (txt "nil")] in
  apply_rule sub1 (apply_rule sub1 c) = apply_rule sub1 c.
Proof.
  cbv zeta. cbn [apply_rule]. unfold sub_template.
  exact (proj2 (sub_settled _ _ pattern1_settles c)).
Qed.

(** * The claims on re-application and on the count *)

(** ** C9: the count of [fix_logargs.py] *)


Section LoopOk.
Import FixLogargs.









End LoopOk.



(** ** C1: which rules can be applied again *)

(** C1 (amended): every edit of the scripts that searches for a literal
    text, but for the first replacement of Fix 2 of [fix_orchestrator.py],
    is idempotent on every content, and so is any literal replacement whose
    search text cannot touch a copy of its replacement: applied twice in a
    row it yields what it yields applied once.  So is every pattern
    replacement by a template: the LogArgs patterns of [fix_orchestrator.py]
    and [fix_final_errors.py], the [pulumi.Map] pattern, and the first
    pattern of [fix_logargs].  A rule that comments out a matched line is
    not: it finds that line again, and applied twice it puts ["//"] twice in
    front of the line the first application commented.  The second pattern
    of [fix_logargs] is not idempotent either: rewriting an inner call can
    make the call around it match. *)
Theorem C1_reapplication :
  (forall (old new c : text),
      cross_free old new = true ->
      apply_rule (Replace old new) (apply_rule (Replace old new) c) =
      apply_rule (Replace old new) c) /\
  Forall (fun r => forall c, apply_rule r (apply_rule r c) = apply_rule r c)
         literal_rules /\
  Forall (fun r => forall c, apply_rule r (apply_rule r c) = apply_rule r c)
         pattern_rules /\
  (forall (start stop : nat) (needle c : text),
      matches (CommentLine start stop needle) c = true ->
      exists i l,
        start <= i < stop /\ readlines c !! i = Some l /\
        apply_rule (CommentLine start stop needle) c =
          writelines (<[i := txt "//" ++ l]> (readlines c)) /\
        apply_rule (CommentLine start stop needle)
                   (apply_rule (CommentLine start stop needle) c) =
          writelines (<[i := txt "//" ++ txt "//" ++ l]> (readlines c))) /\
  (let second := ReSubFn FixLogargs.pattern2 FixLogargs.replace_message in
   apply_rule second nested_log_call =
     txt "ctx.Log.A(a, &pulumi.LogArgs{Message: pulumi.Sprintf(ctx.Log.w(m}, nil)})" /\
   apply_rule second (apply_rule second nested_log_call) = txt "ctx.Log.A(a, nil)").
Proof.
  split; [|split; [|split; [|split]]]; [| | | |cbv zeta; split; vm_compute; reflexivity].
  - intros old new c H. cbn [apply_rule]. apply replace_idempotent. exact H.
  - unfold literal_rules.
    repeat (apply List.Forall_cons; [intros c; cbn [apply_rule]|]);
      try apply List.Forall_nil;
      first [ apply replace_idempotent | apply literal_pattern_idempotent ];
      vm_compute; reflexivity.
  - unfold pattern_rules.
    repeat (apply List.Forall_cons; [intros c|]); try apply List.Forall_nil.
    + exact (orchestrator_logargs_idempotent c).
    + exact (map_conversion_idempotent c).
    + exact (final_logargs_idempotent c).
    + exact (pattern1_idempotent c).
  - intros start stop needle c H.
    destruct (matches_window start stop needle c H) as (i & l & Hi & Hl & Hin & Hclear).
    exists i, l. split; [exact Hi|]. split; [exact Hl|].
    apply comment_twice; assumption.
Qed.

Lemma C1_reapplication_witness :
  let dns := Replace (txt "o.config.DNS.") (txt "o.config.Network.DNS.") in
  apply_rule dns (apply_rule dns (txt "x := o.config.DNS.Zone")) =
  apply_rule dns (txt "x := o.config.DNS.Zone") /\
  exists i l,
    0 <= i < 2 /\ readlines (txt "var totalCount int") !! i = Some l /\
    apply_rule (CommentLine 0 2 (txt "totalCount")) (txt "var totalCount int") =
      writelines (<[i := txt "//" ++ l]> (readlines (txt "var totalCount int"))) /\
    apply_rule (CommentLine 0 2 (txt "totalCount"))
               (apply_rule (CommentLine 0 2 (txt "totalCount")) (txt "var totalCount int")) =
      writelines (<[i := txt "//" ++ txt "//" ++ l]> (readlines (txt "var totalCount int"))).
Proof.
  cbv zeta. split.
  - apply (proj1 C1_reapplication). vm_compute. reflexivity.
  - apply (proj1 (proj2 (proj2 (proj2 C1_reapplication)))). vm_compute. reflexivity.
Defined.
